(** * linked_ptr: a shared-ownership handle whose reference count is a ring

    Shallow embedding of [linked_ptr.h].  Every handle object lives at an
    address; its ring node [base] is a member subobject, so a pointer to a
    ring node is modelled by the address of the handle that contains it.
    Memory is a finite map from addresses to handle objects, and the
    [delete] expressions executed so far are recorded in a log. *)

From Stdlib Require Import ZArith Lia.
From stdpp Require Import base option list gmap.

Set Warnings "-clear-no-such-hyp".
Local Open Scope Z_scope.

(** ** Data model *)

(** Address of a handle object (and of the ring node inside it). *)
Abbreviation loc := positive.

(** A raw resource reference [T*], as an address; [0] is [nullptr].  A
    conversion to a pointer to a base class can move the address, see
    [static_cast]. *)
Abbreviation ptr := Z.

Definition nullptr : ptr := 0.

(** [static_cast<T*>(p)] on a pointer to a class derived from [T], and
    the implicit conversion of the same kind: the null pointer stays
    null, and a pointer to an object becomes the pointer to its base
    subobject, which the layout of the object puts at [conv p].  Between
    pointers of one type, and to the first base of single inheritance,
    [conv] is the identity. *)
Definition static_cast (conv : ptr → ptr) (p : ptr) : ptr :=
  if bool_decide (p = nullptr) then nullptr else conv p.

(** [struct linked_ptr_base { linked_ptr_base* _left; linked_ptr_base* _right; }] *)
Record linked_ptr_base := mk_base { _left : loc; _right : loc }.

(** [class linked_ptr { T* _ptr = nullptr; mutable linked_ptr_base base; }] *)
Record linked_ptr := mk_linked_ptr { _ptr : ptr; base : linked_ptr_base }.

(** Live handle objects, and the resources on which [delete] ran. *)
Record state := State { heap : gmap loc linked_ptr; deleted : list ptr }.

Definition with_left (v : loc) (c : linked_ptr) : linked_ptr :=
  mk_linked_ptr (_ptr c) (mk_base v (_right (base c))).

Definition with_right (v : loc) (c : linked_ptr) : linked_ptr :=
  mk_linked_ptr (_ptr c) (mk_base (_left (base c)) v).

Definition with_ptr (p : ptr) (c : linked_ptr) : linked_ptr :=
  mk_linked_ptr p (base c).

(** ** Effects: a state monad with faults *)

Inductive fault :=
| AssertionFailed   (* [assert] evaluated to false *)
| InvalidAccess.    (* access outside the lifetime of an object *)

Inductive outcome (A : Type) :=
| Done (a : A) (σ : state)
| Fault (f : fault).
Arguments Done {A} a σ.
Arguments Fault {A} f.

Definition M (A : Type) : Type := state → outcome A.

Definition ret {A} (a : A) : M A := λ σ, Done a σ.

Definition bind {A B} (m : M A) (k : A → M B) : M B :=
  λ σ, match m σ with
       | Done a σ' => k a σ'
       | Fault f => Fault f
       end.

Definition raise {A} (f : fault) : M A := λ _, Fault f.

Declare Scope cpp_scope.
Delimit Scope cpp_scope with cpp.
Notation "x <- m ;; k" := (bind m (λ x, k))
  (at level 100, m at next level, right associativity) : cpp_scope.
Notation "m ;; k" := (bind m (λ _, k))
  (at level 100, right associativity) : cpp_scope.
Local Open Scope cpp_scope.

(** Pure updates of one field of the object at [x] (no effect when [x]
    is not live; the monadic stores below fault in that case). *)
Definition st_set_left (x v : loc) (σ : state) : state :=
  State (alter (with_left v) x (heap σ)) (deleted σ).

Definition st_set_right (x v : loc) (σ : state) : state :=
  State (alter (with_right v) x (heap σ)) (deleted σ).

Definition st_set_ptr (x : loc) (p : ptr) (σ : state) : state :=
  State (alter (with_ptr p) x (heap σ)) (deleted σ).

(** The object [c] starts to live at [this]. *)
Definition st_alloc (this : loc) (c : linked_ptr) (σ : state) : state :=
  State (<[this := c]> (heap σ)) (deleted σ).

(** The object at [this] stops living. *)
Definition st_dealloc (this : loc) (σ : state) : state :=
  State (delete this (heap σ)) (deleted σ).

(** The resource at [p] is destroyed and deallocated, unless [p] is null. *)
Definition st_delete (p : ptr) (σ : state) : state :=
  if bool_decide (p = nullptr) then σ else State (heap σ) (deleted σ ++ [p]).

Definition load (x : loc) : M linked_ptr :=
  λ σ, match heap σ !! x with
       | Some c => Done c σ
       | None => Fault InvalidAccess
       end.

Definition get_left (x : loc) : M loc := c <- load x;; ret (_left (base c)).
Definition get_right (x : loc) : M loc := c <- load x;; ret (_right (base c)).
Definition get_ptr (x : loc) : M ptr := c <- load x;; ret (_ptr c).

Definition set_left (x v : loc) : M unit :=
  _ <- load x;; λ σ, Done () (st_set_left x v σ).
Definition set_right (x v : loc) : M unit :=
  _ <- load x;; λ σ, Done () (st_set_right x v σ).
Definition set_ptr (x : loc) (p : ptr) : M unit :=
  _ <- load x;; λ σ, Done () (st_set_ptr x p σ).

(** [delete p]: nothing happens for a null pointer, otherwise the resource
    is destroyed and deallocated. *)
Definition delete_expr (p : ptr) : M unit :=
  λ σ, Done () (st_delete p σ).

(** Start of the lifetime of a handle object at [this], with its members
    initialised; the storage must not hold a live object. *)
Definition alloc (this : loc) (c : linked_ptr) : M unit :=
  λ σ, match heap σ !! this with
       | Some _ => Fault InvalidAccess
       | None => Done () (st_alloc this c σ)
       end.

(** End of the lifetime of the object at [this]. *)
Definition dealloc (this : loc) : M unit :=
  _ <- load this;; λ σ, Done () (st_dealloc this σ).

(** ** Ring node: [details::linked_ptr_base] *)

Module details.

(** [return _left == this && _right == this;] *)
Definition unique (this : loc) : M bool :=
  l <- get_left this;;
  if bool_decide (l = this)
  then r <- get_right this;; ret (bool_decide (r = this))
  else ret false.

(** [std::swap(_right, other._right)] *)
Definition std_swap_right (a b : loc) : M unit :=
  ra <- get_right a;; rb <- get_right b;;
  set_right a rb;; set_right b ra.

(** [std::swap(_left, other._left)] *)
Definition std_swap_left (a b : loc) : M unit :=
  la <- get_left a;; lb <- get_left b;;
  set_left a lb;; set_left b la.

(** [_right->_left = _left->_right = this;] the right operand of an
    assignment is evaluated first.  (Reading [_right] before the store
    gives another result only when [_left] is the node itself and
    [_right] is not; no state considered below is such.) *)
Definition repoint_neighbours (this : loc) : M unit :=
  l <- get_left this;; set_right l this;;
  r <- get_right this;; set_left r this.

(** [void swap(linked_ptr_base& other)]: returns at once when both nodes
    are unique, otherwise exchanges the link fields and repoints the
    neighbours of each node that does not test unique afterwards. *)
Definition swap (this other : loc) : M unit :=
  u <- unique this;;
  both <- (if u then unique other else ret false);;
  if both then ret ()
  else
    std_swap_right this other;;
    std_swap_left this other;;
    u1 <- unique this;;
    (if negb u1 then repoint_neighbours this else ret ());;
    u2 <- unique other;;
    (if negb u2 then repoint_neighbours other else ret ()).

(** [void insert_after(linked_ptr_base& rhs)], with its [assert(unique())]. *)
Definition insert_after (this rhs : loc) : M unit :=
  u <- unique this;;
  if negb u then raise AssertionFailed
  else
    r <- get_right rhs;; set_right this r;;
    r' <- get_right this;; set_left r' this;;
    set_left this rhs;;
    set_right rhs this.

(** [void erase()]: [_right->_left = _left; _left->_right = _right;
    _right = _left = this;] *)
Definition erase (this : loc) : M unit :=
  r <- get_right this;; l <- get_left this;; set_left r l;;
  l' <- get_left this;; r' <- get_right this;; set_right l' r';;
  set_left this this;;
  v <- get_left this;; set_right this v.

End details.

(** ** Handle: [linked_ptr<T>] *)

(** [linked_ptr() noexcept = default;] *)
Definition ctor_default (this : loc) : M unit :=
  alloc this (mk_linked_ptr nullptr (mk_base this this)).

(** [explicit linked_ptr(Y* ptr) : _ptr(static_cast<T*>(ptr)) {}] *)
Definition ctor_raw (this : loc) (p : ptr) : M unit :=
  alloc this (mk_linked_ptr p (mk_base this this)).

(** [T* get() const noexcept { return _ptr; }] *)
Definition get (this : loc) : M ptr := get_ptr this.

(** [bool unique() const noexcept { return base.unique(); }] *)
Definition unique (this : loc) : M bool := details.unique this.

(** [linked_ptr(const linked_ptr& rhs)]: the handle and its source are
    of one type.  (It is also [linked_ptr(const linked_ptr<Y>& rhs)] for
    types whose pointer conversion keeps the address.) *)
Definition ctor_copy (this rhs : loc) : M unit :=
  alloc this (mk_linked_ptr nullptr (mk_base this this));;
  details.insert_after this rhs;;
  p <- get rhs;; set_ptr this p.

(** [linked_ptr(const linked_ptr<Y>& rhs)], the source being a handle of
    another type: [_ptr = static_cast<T*>(rhs.get())], with [conv] the
    conversion from [Y*] to [T*]. *)
Definition ctor_copy_conv (conv : ptr → ptr) (this rhs : loc) : M unit :=
  alloc this (mk_linked_ptr nullptr (mk_base this this));;
  details.insert_after this rhs;;
  p <- get rhs;; set_ptr this (static_cast conv p).

(** [void reset(Y* ptr)] *)
Definition reset_to (this : loc) (p : ptr) : M unit :=
  u <- unique this;;
  (if u then q <- get_ptr this;; delete_expr q else details.erase this);;
  set_ptr this p.

(** [void reset() noexcept] *)
Definition reset (this : loc) : M unit :=
  u <- unique this;;
  (if u then q <- get_ptr this;; delete_expr q else details.erase this);;
  set_ptr this nullptr.

(** [~linked_ptr() { reset(); }], after which the object is gone. *)
Definition dtor (this : loc) : M unit :=
  reset this;; dealloc this.

(** [std::swap(_ptr, other._ptr)] *)
Definition std_swap_ptr (a b : loc) : M unit :=
  pa <- get_ptr a;; pb <- get_ptr b;;
  set_ptr a pb;; set_ptr b pa.

(** [void swap(linked_ptr& other) noexcept] *)
Definition swap (this other : loc) : M unit :=
  p <- get_ptr this;; q <- get_ptr other;;
  if bool_decide (p = q) then ret ()
  else details.swap this other;; std_swap_ptr this other.

(** Assignment between two handles of one type.  The class declares no
    copy assignment operator: the member template
    [operator=(const linked_ptr<Y>&)] is never one, and with [Y = T] it
    loses overload resolution to the implicitly declared
    [operator=(const linked_ptr&)], which assigns the members in the
    order of their declaration, [_ptr] and then [base] (whose own
    implicit assignment copies [_left] and [_right]).  The body of the
    template, [reset(rhs.get()); insert_after(...)], names a function
    [insert_after] that neither [linked_ptr] nor its namespace has, so it
    has no instance that compiles. *)
Definition implicit_copy_assign (this rhs : loc) : M unit :=
  p <- get_ptr rhs;; set_ptr this p;;
  l <- get_left rhs;; set_left this l;;
  r <- get_right rhs;; set_right this r.

(** [explicit operator bool() const] *)
Definition op_bool (h : linked_ptr) : bool := negb (bool_decide (_ptr h = nullptr)).

(** The six comparison operators on two handles of one static type;
    [std::less<>] on [void*] is the order of addresses. *)
Definition op_eq (lhs rhs : linked_ptr) : bool := bool_decide (_ptr lhs = _ptr rhs).
Definition op_ne (lhs rhs : linked_ptr) : bool := negb (op_eq lhs rhs).
Definition op_lt (lhs rhs : linked_ptr) : bool := bool_decide (_ptr lhs < _ptr rhs).
Definition op_gt (lhs rhs : linked_ptr) : bool := negb (op_lt lhs rhs) && negb (op_eq lhs rhs).
Definition op_le (lhs rhs : linked_ptr) : bool := negb (op_gt lhs rhs).
Definition op_ge (lhs rhs : linked_ptr) : bool := negb (op_lt lhs rhs).

(** The comparison operators on a [linked_ptr<T>] and a [linked_ptr<Y>]
    of different types.  [lhs.get() == rhs.get()] brings the two pointers
    to their common type before it compares them, [cl] converting the
    [T*] and [cr] the [Y*] (one of the two is the identity).
    [static_cast<void*>] keeps the address, so [<] and [>=] are [op_lt]
    and [op_ge] whatever the types are. *)
Definition op_eq_conv (cl cr : ptr → ptr) (lhs rhs : linked_ptr) : bool :=
  bool_decide (static_cast cl (_ptr lhs) = static_cast cr (_ptr rhs)).
Definition op_ne_conv (cl cr : ptr → ptr) (lhs rhs : linked_ptr) : bool :=
  negb (op_eq_conv cl cr lhs rhs).
Definition op_gt_conv (cl cr : ptr → ptr) (lhs rhs : linked_ptr) : bool :=
  negb (op_lt lhs rhs) && negb (op_eq_conv cl cr lhs rhs).
Definition op_le_conv (cl cr : ptr → ptr) (lhs rhs : linked_ptr) : bool :=
  negb (op_gt_conv cl cr lhs rhs).

(** ** Closed forms of the ring operations *)

(** What [erase] leaves when the node's neighbours are [l] and [r]: the
    neighbours linked to each other and the node linked to itself. *)
Definition erased (this l r : loc) (σ : state) : state :=
  st_set_right this this (st_set_left this this
    (st_set_right l r (st_set_left r l σ))).

(** What [insert_after] leaves when [r] is the right neighbour of [rhs]. *)
Definition inserted (this rhs r : loc) (σ : state) : state :=
  st_set_right rhs this (st_set_left this rhs
    (st_set_left r this (st_set_right this r σ))).

(** What [linked_ptr_base::swap] leaves when neither node is alone, the
    neighbours of [a] being [la] and [ra] and those of [b] being [lb] and
    [rb]. *)
Definition swapped (a b la ra lb rb : loc) (σ : state) : state :=
  st_set_left ra b (st_set_right la b
    (st_set_left rb a (st_set_right lb a
      (st_set_left b la (st_set_left a lb
        (st_set_right b ra (st_set_right a rb σ))))))).

(** ** Observing a state *)

Definition live (σ : state) (x : loc) : Prop := is_Some (heap σ !! x).

Definition lft (σ : state) (x : loc) : option loc :=
  (λ c, _left (base c)) <$> heap σ !! x.

Definition rgt (σ : state) (x : loc) : option loc :=
  (λ c, _right (base c)) <$> heap σ !! x.

Definition rsrc (σ : state) (x : loc) : option ptr :=
  _ptr <$> heap σ !! x.

(** The ring node at [x] has both neighbours equal to itself. *)
Definition singleton (σ : state) (x : loc) : Prop :=
  lft σ x = Some x ∧ rgt σ x = Some x.

(** A chain of doubly linked nodes: [x] is followed by the nodes of [xs]
    in order and then by [z], and every right link has its left link. *)
Fixpoint chain (σ : state) (x : loc) (xs : list loc) (z : loc) : Prop :=
  match xs with
  | [] => rgt σ x = Some z ∧ lft σ z = Some x
  | y :: ys => rgt σ x = Some y ∧ lft σ y = Some x ∧ chain σ y ys z
  end.

(** The links between consecutive nodes of [xs] alone. *)
Fixpoint inner (σ : state) (xs : list loc) : Prop :=
  match xs with
  | [] => True
  | y :: ys =>
      match ys with
      | [] => True
      | y' :: _ => rgt σ y = Some y' ∧ lft σ y' = Some y ∧ inner σ ys
      end
  end.

(** [ring σ ls]: the nodes of [ls], without repetition, form one cycle,
    each linked to the next and the last linked back to the first. *)
Definition ring (σ : state) (ls : list loc) : Prop :=
  match ls with
  | [] => False
  | x :: xs => NoDup (x :: xs) ∧ chain σ x xs x
  end.

(** Every member of [ls] holds the resource reference [p]. *)
Definition owns (σ : state) (ls : list loc) (p : ptr) : Prop :=
  Forall (λ x, rsrc σ x = Some p) ls.

Global Instance chain_dec σ x xs z : Decision (chain σ x xs z).
Proof. revert x. induction xs as [|y ys IH]; intros x; simpl; apply _. Defined.

Global Instance ring_dec σ ls : Decision (ring σ ls).
Proof. destruct ls; simpl; apply _. Defined.

Global Instance singleton_dec σ x : Decision (singleton σ x).
Proof. unfold singleton. apply _. Defined.

Global Instance owns_dec σ ls p : Decision (owns σ ls p).
Proof. unfold owns. apply _. Defined.

(** ** Invariants of the heap *)

(** Every link has its converse: the left neighbour of a live node has
    that node as its right neighbour, and the other way round.  In
    particular no link leaves the live objects. *)
Definition linked (σ : state) : Prop :=
  map_Forall (λ x c, rgt σ (_left (base c)) = Some x ∧
                     lft σ (_right (base c)) = Some x) (heap σ).

(** A node and its right neighbour hold the same resource reference. *)
Definition coherent (σ : state) : Prop :=
  map_Forall (λ x c, rsrc σ (_right (base c)) = Some (_ptr c)) (heap σ).

Global Instance linked_dec σ : Decision (linked σ).
Proof. unfold linked. apply _. Defined.

Global Instance coherent_dec σ : Decision (coherent σ).
Proof. unfold coherent. apply _. Defined.

(** ** Programs and states used as examples *)

(** An object of a class with two bases lives at the address 256 and its
    second base subobject 16 bytes further: the conversion to a pointer
    to that base, a handle to the object, and the handle to the base
    subobject that shares its ring. *)
Definition to_second_base (p : ptr) : ptr := p + 16.
Definition ex_derived : linked_ptr := mk_linked_ptr 256 (mk_base 2 2).
Definition ex_second_base : linked_ptr := mk_linked_ptr 272 (mk_base 1 1).

(** Two subobjects of one class, at 100 and at 200 in one object, share
    a virtual base subobject at 300: the conversion to a pointer to that
    base. *)
Definition to_shared_base (p : ptr) : ptr :=
  if bool_decide (p = 100 ∨ p = 200) then 300 else p.

(** [reset()] on each handle of [ls], in order. *)
Fixpoint reset_all (ls : list loc) : M unit :=
  match ls with
  | [] => ret ()
  | x :: xs => reset x;; reset_all xs
  end.

(** No handle lives and nothing was deleted. *)
Definition ex_empty : state := State ∅ [].

(** Handle 1 is empty and alone; handles 2 and 3 share the resource 7. *)
Definition ex_shared : state :=
  State {[ 1%positive := mk_linked_ptr 0 (mk_base 1 1);
           2%positive := mk_linked_ptr 7 (mk_base 3 3);
           3%positive := mk_linked_ptr 7 (mk_base 2 2) ]} [].

(** Handle 1 owns the resource 100 alone; handles 2 and 3 share 200. *)
Definition ex_mixed : state :=
  State {[ 1%positive := mk_linked_ptr 100 (mk_base 1 1);
           2%positive := mk_linked_ptr 200 (mk_base 3 3);
           3%positive := mk_linked_ptr 200 (mk_base 2 2) ]} [].

(** [ex_mixed] after [swap] of the handles 1 and 2. *)
Definition ex_mixed_swapped : state :=
  State {[ 1%positive := mk_linked_ptr 200 (mk_base 2 2);
           2%positive := mk_linked_ptr 100 (mk_base 1 1);
           3%positive := mk_linked_ptr 200 (mk_base 1 1) ]} [].

(** Handles 1 and 2 each own a resource alone. *)
Definition ex_two_owners : state :=
  State {[ 1%positive := mk_linked_ptr 100 (mk_base 1 1);
           2%positive := mk_linked_ptr 200 (mk_base 2 2) ]} [].

(** [{ linked_ptr<int> a(p100), b(p200), c(b); a.swap(b); }]: three
    handles, one swap, and the destructors at the end of the block, in
    the reverse order of construction. *)
Definition block_with_swap : M unit :=
  ctor_raw 1 100;; ctor_raw 2 200;; ctor_copy 3 2;;
  swap 1 2;;
  dtor 3;; dtor 2;; dtor 1.

(** Two swaps of a sole owner with a sharing handle, then every handle is
    reset. *)
Definition resets_after_swaps : M unit :=
  ctor_raw 1 100;; ctor_raw 2 200;; ctor_copy 3 2;;
  swap 1 2;;
  ctor_raw 4 300;;
  swap 3 4;;
  reset 3;; reset 4;; reset 2;; reset 1.

(** All four handles are empty and alone; [delete] ran twice on 200. *)
Definition ex_after_resets : state :=
  State {[ 1%positive := mk_linked_ptr 0 (mk_base 1 1);
           2%positive := mk_linked_ptr 0 (mk_base 2 2);
           3%positive := mk_linked_ptr 0 (mk_base 3 3);
           4%positive := mk_linked_ptr 0 (mk_base 4 4) ]} [200; 200].

(** Handles 1 and 2 share the resource 100; handles 3, 4 and 5 share
    200. *)
Definition ex_two_rings : state :=
  State {[ 1%positive := mk_linked_ptr 100 (mk_base 2 2);
           2%positive := mk_linked_ptr 100 (mk_base 1 1);
           3%positive := mk_linked_ptr 200 (mk_base 5 4);
           4%positive := mk_linked_ptr 200 (mk_base 3 5);
           5%positive := mk_linked_ptr 200 (mk_base 4 3) ]} [].

(** ** Sequences of handle operations *)

(** The operations a program can apply to handles. *)
Inductive op :=
| Default (this : loc)
| Raw (this : loc) (p : ptr)
| Copy (this rhs : loc)
| Reset (this : loc)
| ResetTo (this : loc) (p : ptr)
| Destroy (this : loc)
| Swap (this other : loc).

Definition exec (o : op) : M unit :=
  match o with
  | Default this => ctor_default this
  | Raw this p => ctor_raw this p
  | Copy this rhs => ctor_copy this rhs
  | Reset this => reset this
  | ResetTo this p => reset_to this p
  | Destroy this => dtor this
  | Swap this other => swap this other
  end.

Fixpoint run (os : list op) : M unit :=
  match os with
  | [] => ret ()
  | o :: os' => exec o;; run os'
  end.

(** What the language asks of an operation, and what [swap] asks beyond
    it: a constructor runs in storage without a live object, the other
    operations on live objects; [swap] is applied to two handles that
    hold the same reference, or are both alone, or both not alone. *)
Definition allowed (σ : state) (o : op) : Prop :=
  match o with
  | Default this | Raw this _ => ¬ live σ this
  | Copy this rhs => ¬ live σ this ∧ live σ rhs
  | Reset this | ResetTo this _ | Destroy this => live σ this
  | Swap this other =>
      live σ this ∧ live σ other ∧
      (rsrc σ this = rsrc σ other ∨ (singleton σ this ↔ singleton σ other))
  end.

(** Every operation of the sequence is allowed in the state it is applied
    to. *)
Fixpoint allowed_all (σ : state) (os : list op) : Prop :=
  match os with
  | [] => True
  | o :: os' =>
      allowed σ o ∧
      match exec o σ with
      | Done _ σ' => allowed_all σ' os'
      | Fault _ => True
      end
  end.

Global Instance live_dec σ x : Decision (live σ x).
Proof. unfold live. apply _. Defined.

Global Instance allowed_dec σ o : Decision (allowed σ o).
Proof. destruct o; simpl; apply _. Defined.

Global Instance allowed_all_dec σ os : Decision (allowed_all σ os).
Proof.
  revert σ. induction os as [|o os IH]; intros σ; simpl; [apply _|].
  destruct (exec o σ); apply _.
Defined.

(** ** Sound states *)

(** No live handle holds the reference [p]. *)
Definition holds_none (σ : state) (p : ptr) : Prop :=
  map_Forall (λ _ c, _ptr c ≠ p) (heap σ).

(** A reference that can be handed to a handle: null, or a resource that
    no handle holds and that was not deleted. *)
Definition fresh (σ : state) (p : ptr) : Prop :=
  p = nullptr ∨ ((p ∉ deleted σ) ∧ holds_none σ p).

(** An allowed operation that is handed only fresh references. *)
Definition permitted (σ : state) (o : op) : Prop :=
  allowed σ o ∧
  match o with
  | Raw _ p | ResetTo _ p => fresh σ p
  | _ => True
  end.

Fixpoint permitted_all (σ : state) (os : list op) : Prop :=
  match os with
  | [] => True
  | o :: os' =>
      permitted σ o ∧
      match exec o σ with
      | Done _ σ' => permitted_all σ' os'
      | Fault _ => True
      end
  end.

Global Instance permitted_dec σ o : Decision (permitted σ o).
Proof. unfold permitted, fresh, holds_none. destruct o; apply _. Defined.

Global Instance permitted_all_dec σ os : Decision (permitted_all σ os).
Proof.
  revert σ. induction os as [|o os IH]; intros σ; simpl; [apply _|].
  destruct (exec o σ); apply _.
Defined.

(** The state of a program that used its handles as meant: every live
    handle is a member of an intact ring whose members hold one resource
    reference; handles that hold the same resource are in one ring; no
    handle holds a deleted resource; and no resource was deleted twice. *)
Definition sound (σ : state) : Prop :=
  (∀ x, live σ x → ∃ ls p, ring σ ls ∧ owns σ ls p ∧ x ∈ ls) ∧
  (∀ x y p, p ≠ nullptr → rsrc σ x = Some p → rsrc σ y = Some p →
            ∃ ls, ring σ ls ∧ x ∈ ls ∧ y ∈ ls) ∧
  (∀ x p, rsrc σ x = Some p → p ≠ nullptr → p ∉ deleted σ) ∧
  NoDup (deleted σ).

(** From [σ] to [σ'] no resource is lost: what was deleted stays
    deleted, and a resource that a handle held is still held by a handle
    or was deleted. *)
Definition kept (σ σ' : state) : Prop :=
  (∀ p, p ∈ deleted σ → p ∈ deleted σ') ∧
  (∀ x p, rsrc σ x = Some p → p ≠ nullptr →
          (∃ y, rsrc σ' y = Some p) ∨ p ∈ deleted σ').

(** The references an operation hands to a handle. *)
Definition handed (o : op) : list ptr :=
  match o with
  | Raw _ p | ResetTo _ p => [p]
  | _ => []
  end.

(** ** Handles as plain holders of references *)

(** The reference each live handle holds. *)
Definition holders (σ : state) : gmap loc ptr := _ptr <$> heap σ.

(** No handle other than [h] holds [p]. *)
Definition sole_holder (m : gmap loc ptr) (h : loc) (p : ptr) : Prop :=
  map_Forall (λ u v, u = h ∨ v ≠ p) m.

(** The log of deleted resources after [h] lets go of what it holds: the
    resource is deleted when it is not null and no other handle holds
    it. *)
Definition release (m : gmap loc ptr) (D : list ptr) (h : loc) : list ptr :=
  match m !! h with
  | Some p => if decide (p ≠ nullptr ∧ sole_holder m h p) then D ++ [p] else D
  | None => D
  end.

(** What each operation does to the references held and to the log of
    deleted resources, with no ring at all. *)
Definition model_step (o : op) (s : gmap loc ptr * list ptr)
  : gmap loc ptr * list ptr :=
  match o with
  | Default h => (<[h := nullptr]> s.1, s.2)
  | Raw h p => (<[h := p]> s.1, s.2)
  | Copy h r =>
      (match s.1 !! r with Some p => <[h := p]> s.1 | None => s.1 end, s.2)
  | Reset h => (<[h := nullptr]> s.1, release s.1 s.2 h)
  | ResetTo h q => (<[h := q]> s.1, release s.1 s.2 h)
  | Destroy h => (delete h s.1, release s.1 s.2 h)
  | Swap a b =>
      (match s.1 !! a, s.1 !! b with
       | Some p, Some q => <[b := p]> (<[a := q]> s.1)
       | _, _ => s.1
       end, s.2)
  end.

Definition model_run (os : list op) (s : gmap loc ptr * list ptr)
  : gmap loc ptr * list ptr :=
  foldl (λ s o, model_step o s) s os.

Global Instance sole_holder_dec m h p : Decision (sole_holder m h p).
Proof. unfold sole_holder. apply _. Defined.

(** A reference that the table shows to be fresh. *)
Definition model_fresh (s : gmap loc ptr * list ptr) (p : ptr) : Prop :=
  p = nullptr ∨ ((p ∉ s.2) ∧ map_Forall (λ _ v, v ≠ p) s.1).

(** Operations that the table alone shows to be permitted.  A [swap] of
    two handles with different references is taken only when neither is
    null: a handle with a resource is alone in its ring when it is the
    sole holder, which the table does not tell of an empty handle. *)
Definition model_permitted (s : gmap loc ptr * list ptr) (o : op) : Prop :=
  match o with
  | Default h => s.1 !! h = None
  | Raw h p => s.1 !! h = None ∧ model_fresh s p
  | Copy h r => s.1 !! h = None ∧ is_Some (s.1 !! r)
  | Reset h | Destroy h => is_Some (s.1 !! h)
  | ResetTo h p => is_Some (s.1 !! h) ∧ model_fresh s p
  | Swap a b =>
      match s.1 !! a, s.1 !! b with
      | Some p, Some q =>
          p = q ∨
          (p ≠ nullptr ∧ q ≠ nullptr ∧
           (sole_holder s.1 a p ↔ sole_holder s.1 b q))
      | _, _ => False
      end
  end.

Fixpoint model_permitted_all (s : gmap loc ptr * list ptr) (os : list op)
  : Prop :=
  match os with
  | [] => True
  | o :: os' => model_permitted s o ∧ model_permitted_all (model_step o s) os'
  end.

Global Instance model_fresh_dec s p : Decision (model_fresh s p).
Proof. unfold model_fresh. apply _. Defined.

Global Instance model_permitted_dec s o : Decision (model_permitted s o).
Proof.
  destruct o as [h|h p|h r|h|h p|h|a b]; simpl; try apply _.
  destruct (s.1 !! a), (s.1 !! b); apply _.
Defined.

Global Instance model_permitted_all_dec s os :
  Decision (model_permitted_all s os).
Proof. revert s. induction os as [|o os IH]; intros s; simpl; apply _. Defined.

(** ** The test routines of [main.cpp] *)

(** Addresses for the local handles of a routine: distinct, and none
    holds a live handle. *)
Definition unused (σ : state) (hs : list loc) : Prop :=
  NoDup hs ∧ Forall (λ h, ¬ live σ h) hs.

(** What distinct [new] expressions return: distinct resources, not
    null, not deleted, and held by no handle. *)
Definition new_resources (σ : state) (ps : list ptr) : Prop :=
  NoDup ps ∧
  Forall (λ p, p ≠ nullptr ∧ (p ∉ deleted σ) ∧ holds_none σ p) ps.

Global Instance unused_dec σ hs : Decision (unused σ hs).
Proof. unfold unused. apply _. Defined.

Global Instance new_resources_dec σ ps : Decision (new_resources σ ps).
Proof. unfold new_resources, holds_none. apply _. Defined.

Module main.

(** [lhs == rhs] on the handles at two addresses. *)
Definition equal (lhs rhs : loc) : M bool :=
  c1 <- load lhs;; c2 <- load rhs;; ret (op_eq c1 c2).

(** [m1 && m2]: the right operand is evaluated only when the left one is
    true. *)
Definition and_then (m1 m2 : M bool) : M bool :=
  b <- m1;; if b then m2 else ret false.

(** [!m] *)
Definition negation (m : M bool) : M bool := b <- m;; ret (negb b).

(** The flag that the destructor of the [is_deleted] object at [p] sets:
    it is set when [delete] ran on [p]. *)
Definition flag (p : ptr) : M bool :=
  λ σ, Done (bool_decide (p ∈ deleted σ)) σ.

(** [bool base_test()], with [n1] and [n2] the results of the two [new]
    expressions and the locals at [ptr1], [ptr2] and [ptr3].  On [bool],
    [check *= e] is [check = check && e].  The locals are destroyed in
    the reverse order of their construction once the result is
    computed. *)
Definition base_test (n1 n2 : ptr) (ptr1 ptr2 ptr3 : loc) : M bool :=
  ctor_raw ptr1 n1;;
  ctor_raw ptr2 n2;;
  ctor_copy ptr3 ptr1;;
  c1 <- unique ptr2;;
  c2 <- negation (unique ptr1);;
  c3 <- equal ptr1 ptr3;;
  dtor ptr3;; dtor ptr2;; dtor ptr1;;
  ret (true && c1 && c2 && c3).

(** [bool unique_test()] *)
Definition unique_test (n1 n2 n3 n5 : ptr) (p1 p2 p3 p4 : loc) : M bool :=
  ctor_raw p1 n1;;
  ctor_raw p2 n2;;
  ctor_raw p3 n3;;
  c1 <- and_then (and_then (unique p1) (unique p2)) (unique p3);;
  ctor_copy p4 p3;;
  c2 <- and_then (negation (unique p3)) (negation (unique p4));;
  reset_to p3 n5;;
  c3 <- and_then (unique p3) (unique p4);;
  dtor p4;; dtor p3;; dtor p2;; dtor p1;;
  ret (true && c1 && c2 && c3).

(** [bool unique2_test()]: [p2] is a handle to the base class made from
    the handle [p1] to the derived class; the base is the first and only
    base, so the conversion keeps the address. *)
Definition unique2_test (n : ptr) (p1 p2 : loc) : M bool :=
  ctor_raw p1 n;;
  ctor_copy p2 p1;;
  c1 <- negation (unique p1);;
  c2 <- negation (unique p2);;
  dtor p2;; dtor p1;;
  ret (true && c1 && c2).

(** [bool test_swap()], with [a0] and [b0] the two [is_deleted]
    objects. *)
Definition test_swap (a0 b0 : ptr) (a1 a2 a3 a4 b1 b2 b3 b4 : loc) : M bool :=
  ctor_raw a1 a0;;
  ctor_copy a2 a1;;
  ctor_copy a3 a2;;
  ctor_copy a4 a3;;
  ctor_raw b1 b0;;
  ctor_copy b2 b1;;
  ctor_copy b3 b2;;
  ctor_copy b4 b3;;
  swap a2 b2;;
  swap b3 a2;;
  swap b1 a1;;
  reset a3;;
  reset b2;;
  reset b1;;
  reset a4;;
  is_a_deleted <- flag a0;;
  is_b_deleted <- flag b0;;
  dtor b4;; dtor b3;; dtor b2;; dtor b1;;
  dtor a4;; dtor a3;; dtor a2;; dtor a1;;
  ret (is_a_deleted && negb is_b_deleted).

End main.

(** ** Reasoning about loads and stores *)

Section primitives.
Implicit Types (σ : state) (x y v : loc) (p : ptr).

Lemma lft_live σ x l : lft σ x = Some l → live σ x.
Proof. unfold lft, live. destruct (heap σ !! x); naive_solver. Qed.

Lemma rgt_live σ x r : rgt σ x = Some r → live σ x.
Proof. unfold rgt, live. destruct (heap σ !! x); naive_solver. Qed.

Lemma rsrc_live σ x p : rsrc σ x = Some p → live σ x.
Proof. unfold rsrc, live. destruct (heap σ !! x); naive_solver. Qed.

Lemma live_set_left σ x v y : live σ y → live (st_set_left x v σ) y.
Proof. unfold live. simpl. by rewrite lookup_alter_is_Some. Qed.

Lemma live_set_right σ x v y : live σ y → live (st_set_right x v σ) y.
Proof. unfold live. simpl. by rewrite lookup_alter_is_Some. Qed.

Lemma live_set_ptr σ x p y : live σ y → live (st_set_ptr x p σ) y.
Proof. unfold live. simpl. by rewrite lookup_alter_is_Some. Qed.

Lemma lft_set_left σ x v y :
  live σ x → lft (st_set_left x v σ) y = if decide (x = y) then Some v else lft σ y.
Proof.
  intros [c Hc]. unfold lft. simpl. rewrite lookup_alter.
  case_decide; [by rewrite Hc | done].
Qed.

Lemma rgt_set_left σ x v y : rgt (st_set_left x v σ) y = rgt σ y.
Proof.
  unfold rgt. simpl. rewrite lookup_alter. case_decide; [subst|done].
  by destruct (heap σ !! y).
Qed.

Lemma rsrc_set_left σ x v y : rsrc (st_set_left x v σ) y = rsrc σ y.
Proof.
  unfold rsrc. simpl. rewrite lookup_alter. case_decide; [subst|done].
  by destruct (heap σ !! y).
Qed.

Lemma rgt_set_right σ x v y :
  live σ x → rgt (st_set_right x v σ) y = if decide (x = y) then Some v else rgt σ y.
Proof.
  intros [c Hc]. unfold rgt. simpl. rewrite lookup_alter.
  case_decide; [by rewrite Hc | done].
Qed.

Lemma lft_set_right σ x v y : lft (st_set_right x v σ) y = lft σ y.
Proof.
  unfold lft. simpl. rewrite lookup_alter. case_decide; [subst|done].
  by destruct (heap σ !! y).
Qed.

Lemma rsrc_set_right σ x v y : rsrc (st_set_right x v σ) y = rsrc σ y.
Proof.
  unfold rsrc. simpl. rewrite lookup_alter. case_decide; [subst|done].
  by destruct (heap σ !! y).
Qed.

Lemma rsrc_set_ptr σ x p y :
  live σ x → rsrc (st_set_ptr x p σ) y = if decide (x = y) then Some p else rsrc σ y.
Proof.
  intros [c Hc]. unfold rsrc. simpl. rewrite lookup_alter.
  case_decide; [by rewrite Hc | done].
Qed.

Lemma lft_set_ptr σ x p y : lft (st_set_ptr x p σ) y = lft σ y.
Proof.
  unfold lft. simpl. rewrite lookup_alter. case_decide; [subst|done].
  by destruct (heap σ !! y).
Qed.

Lemma rgt_set_ptr σ x p y : rgt (st_set_ptr x p σ) y = rgt σ y.
Proof.
  unfold rgt. simpl. rewrite lookup_alter. case_decide; [subst|done].
  by destruct (heap σ !! y).
Qed.

Lemma deleted_set_left σ x v : deleted (st_set_left x v σ) = deleted σ.
Proof. done. Qed.

Lemma deleted_set_right σ x v : deleted (st_set_right x v σ) = deleted σ.
Proof. done. Qed.

Lemma deleted_set_ptr σ x p : deleted (st_set_ptr x p σ) = deleted σ.
Proof. done. Qed.

Lemma lft_alloc σ x c y :
  lft (st_alloc x c σ) y = if decide (x = y) then Some (_left (base c)) else lft σ y.
Proof. unfold lft. simpl. rewrite lookup_insert. by case_decide. Qed.

Lemma rgt_alloc σ x c y :
  rgt (st_alloc x c σ) y = if decide (x = y) then Some (_right (base c)) else rgt σ y.
Proof. unfold rgt. simpl. rewrite lookup_insert. by case_decide. Qed.

Lemma rsrc_alloc σ x c y :
  rsrc (st_alloc x c σ) y = if decide (x = y) then Some (_ptr c) else rsrc σ y.
Proof. unfold rsrc. simpl. rewrite lookup_insert. by case_decide. Qed.

Lemma live_alloc σ x c y : live σ y → live (st_alloc x c σ) y.
Proof.
  unfold live. simpl. rewrite lookup_insert. by case_decide.
Qed.

Lemma live_alloc_eq σ x c : live (st_alloc x c σ) x.
Proof. unfold live. simpl. by rewrite lookup_insert_eq. Qed.

Lemma lft_dealloc σ x y :
  lft (st_dealloc x σ) y = if decide (x = y) then None else lft σ y.
Proof. unfold lft. simpl. rewrite lookup_delete. by case_decide. Qed.

Lemma rgt_dealloc σ x y :
  rgt (st_dealloc x σ) y = if decide (x = y) then None else rgt σ y.
Proof. unfold rgt. simpl. rewrite lookup_delete. by case_decide. Qed.

Lemma rsrc_dealloc σ x y :
  rsrc (st_dealloc x σ) y = if decide (x = y) then None else rsrc σ y.
Proof. unfold rsrc. simpl. rewrite lookup_delete. by case_decide. Qed.

Lemma lft_delete σ p y : lft (st_delete p σ) y = lft σ y.
Proof. unfold st_delete. by case_bool_decide. Qed.

Lemma rgt_delete σ p y : rgt (st_delete p σ) y = rgt σ y.
Proof. unfold st_delete. by case_bool_decide. Qed.

Lemma rsrc_delete σ p y : rsrc (st_delete p σ) y = rsrc σ y.
Proof. unfold st_delete. by case_bool_decide. Qed.

Lemma live_delete σ p y : live σ y → live (st_delete p σ) y.
Proof. unfold st_delete. by case_bool_decide. Qed.

Lemma deleted_delete σ p :
  deleted (st_delete p σ) = if decide (p = nullptr) then deleted σ else deleted σ ++ [p].
Proof. unfold st_delete. case_bool_decide; by case_decide. Qed.

Lemma deleted_alloc σ x c : deleted (st_alloc x c σ) = deleted σ.
Proof. done. Qed.

Lemma deleted_dealloc σ x : deleted (st_dealloc x σ) = deleted σ.
Proof. done. Qed.

Lemma alloc_ok σ x c : ¬ live σ x → alloc x c σ = Done () (st_alloc x c σ).
Proof.
  unfold live, alloc. intros H. destruct (heap σ !! x) eqn:E; [|done].
  destruct H. by eexists.
Qed.

Lemma dealloc_ok σ x : live σ x → dealloc x σ = Done () (st_dealloc x σ).
Proof. intros [c Hc]. unfold dealloc, bind, load. by rewrite Hc. Qed.

(** Two states with the same observations are the same state. *)
Lemma state_ext σ1 σ2 :
  (∀ x, lft σ1 x = lft σ2 x) → (∀ x, rgt σ1 x = rgt σ2 x) →
  (∀ x, rsrc σ1 x = rsrc σ2 x) → deleted σ1 = deleted σ2 → σ1 = σ2.
Proof.
  destruct σ1 as [h1 d1], σ2 as [h2 d2]. unfold lft, rgt, rsrc. simpl.
  intros HL HR HP ->. f_equal. apply map_eq. intros x.
  specialize (HL x). specialize (HR x). specialize (HP x).
  destruct (h1 !! x) as [[p1 [l1 r1]]|], (h2 !! x) as [[p2 [l2 r2]]|];
    simpl in *; congruence.
Qed.

Lemma get_left_ok σ x l : lft σ x = Some l → get_left x σ = Done l σ.
Proof.
  unfold lft, get_left, bind, load, ret.
  destruct (heap σ !! x); naive_solver.
Qed.

Lemma get_right_ok σ x r : rgt σ x = Some r → get_right x σ = Done r σ.
Proof.
  unfold rgt, get_right, bind, load, ret.
  destruct (heap σ !! x); naive_solver.
Qed.

Lemma get_ptr_ok σ x p : rsrc σ x = Some p → get_ptr x σ = Done p σ.
Proof.
  unfold rsrc, get_ptr, bind, load, ret.
  destruct (heap σ !! x); naive_solver.
Qed.

Lemma set_left_ok σ x v : live σ x → set_left x v σ = Done () (st_set_left x v σ).
Proof. intros [c Hc]. unfold set_left, bind, load. by rewrite Hc. Qed.

Lemma set_right_ok σ x v : live σ x → set_right x v σ = Done () (st_set_right x v σ).
Proof. intros [c Hc]. unfold set_right, bind, load. by rewrite Hc. Qed.

Lemma set_ptr_ok σ x p : live σ x → set_ptr x p σ = Done () (st_set_ptr x p σ).
Proof. intros [c Hc]. unfold set_ptr, bind, load. by rewrite Hc. Qed.

Lemma bind_done {A B} (m : M A) (k : A → M B) σ a σ' :
  m σ = Done a σ' → bind m k σ = k a σ'.
Proof. unfold bind. by intros ->. Qed.

End primitives.

Create HintDb heap_db discriminated.
#[export] Hint Resolve lft_live rgt_live rsrc_live
  live_set_left live_set_right live_set_ptr
  live_alloc live_alloc_eq live_delete : heap_db.

(** Rewrite the observations of an updated state, then split on the
    address comparisons this leaves. *)
Ltac observe :=
  repeat first
    [ rewrite lft_alloc | rewrite rgt_alloc | rewrite rsrc_alloc
    | rewrite lft_dealloc | rewrite rgt_dealloc | rewrite rsrc_dealloc
    | rewrite lft_delete | rewrite rgt_delete | rewrite rsrc_delete
    | rewrite deleted_delete | rewrite deleted_alloc | rewrite deleted_dealloc
    | rewrite rgt_set_left | rewrite rsrc_set_left
    | rewrite lft_set_right | rewrite rsrc_set_right
    | rewrite lft_set_ptr | rewrite rgt_set_ptr
    | rewrite deleted_set_left | rewrite deleted_set_right
    | rewrite deleted_set_ptr
    | rewrite lft_set_left by eauto 10 with heap_db
    | rewrite rgt_set_right by eauto 10 with heap_db
    | rewrite rsrc_set_ptr by eauto 10 with heap_db ].

Ltac split_addr :=
  repeat (case_decide; simplify_eq; try done).

(** Run the next load or store of a monadic program. *)
Ltac step :=
  first
    [ erewrite (bind_done (get_left _)) by (apply get_left_ok; observe; split_addr; eauto)
    | erewrite (bind_done (get_right _)) by (apply get_right_ok; observe; split_addr; eauto)
    | erewrite (bind_done (get_ptr _)) by (apply get_ptr_ok; observe; split_addr; eauto)
    | erewrite (bind_done (set_left _ _)) by (apply set_left_ok; eauto 10 with heap_db)
    | erewrite (bind_done (set_right _ _)) by (apply set_right_ok; eauto 10 with heap_db)
    | erewrite (bind_done (set_ptr _ _)) by (apply set_ptr_ok; eauto 10 with heap_db)
    | rewrite set_left_ok by eauto 10 with heap_db
    | rewrite set_right_ok by eauto 10 with heap_db
    | rewrite set_ptr_ok by eauto 10 with heap_db ].

Section ring_node.
Implicit Types (σ : state) (x y this rhs other : loc).

Lemma unique_ok σ this l r :
  lft σ this = Some l → rgt σ this = Some r →
  details.unique this σ = Done (bool_decide (l = this ∧ r = this)) σ.
Proof.
  intros Hl Hr. unfold details.unique.
  rewrite (bind_done _ _ _ _ _ (get_left_ok _ _ _ Hl)).
  case_bool_decide as E.
  - rewrite (bind_done _ _ _ _ _ (get_right_ok _ _ _ Hr)). unfold ret.
    f_equal. apply bool_decide_ext. intuition congruence.
  - unfold ret. f_equal. symmetry. apply bool_decide_eq_false. intuition congruence.
Qed.

Lemma unique_singleton σ this :
  singleton σ this → details.unique this σ = Done true σ.
Proof.
  intros [Hl Hr]. rewrite (unique_ok _ _ _ _ Hl Hr).
  f_equal. by apply bool_decide_eq_true.
Qed.

Lemma erase_ok σ this l r :
  lft σ this = Some l → rgt σ this = Some r → live σ l → live σ r →
  details.erase this σ = Done () (erased this l r σ).
Proof.
  intros Hl Hr Ll Lr. unfold details.erase.
  rewrite (bind_done _ _ _ _ _ (get_right_ok _ _ _ Hr)).
  rewrite (bind_done _ _ _ _ _ (get_left_ok _ _ _ Hl)).
  do 6 step. step. done.
Qed.

End ring_node.

Section ring_ops.
Implicit Types (σ : state) (x y this rhs other : loc).

Lemma insert_after_ok σ this rhs r :
  singleton σ this → rgt σ rhs = Some r → live σ r →
  details.insert_after this rhs σ = Done () (inserted this rhs r σ).
Proof.
  intros Hs Hr Lr. pose proof Hs as [Hl Hr'].
  unfold details.insert_after.
  rewrite (bind_done _ _ _ _ _ (unique_singleton _ _ Hs)). simpl.
  rewrite (bind_done _ _ _ _ _ (get_right_ok _ _ _ Hr)).
  do 4 step. step. done.
Qed.

Lemma erase_inserted σ this rhs r :
  singleton σ this → rgt σ rhs = Some r → lft σ r = Some rhs →
  erased this rhs r (inserted this rhs r σ) = σ.
Proof.
  intros [Hl Hr'] Hr Hlr.
  assert (live σ this) by eauto with heap_db.
  assert (live σ rhs) by eauto with heap_db.
  assert (live σ r) by eauto with heap_db.
  apply state_ext; intros; unfold erased, inserted; observe; try done;
    split_addr; congruence.
Qed.

End ring_ops.

(** ** Rings as cyclic lists *)

Section rings.
Implicit Types (σ : state) (x y z w : loc) (xs ys ls : list loc).

Lemma chain_cons_inner σ ys : ∀ x y z,
  chain σ x (y :: ys) z ↔
  rgt σ x = Some y ∧ lft σ y = Some x ∧ inner σ (y :: ys) ∧
  ∃ w, last (y :: ys) = Some w ∧ rgt σ w = Some z ∧ lft σ z = Some w.
Proof.
  induction ys as [|y' ys IH]; intros x y z.
  - simpl. split.
    + intros (?&?&?&?). repeat split; eauto.
    + intros (?&?&_&w&[= <-]&?&?). done.
  - change (chain σ x (y :: y' :: ys) z) with
      (rgt σ x = Some y ∧ lft σ y = Some x ∧ chain σ y (y' :: ys) z).
    rewrite IH. rewrite last_cons_cons.
    change (inner σ (y :: y' :: ys)) with
      (rgt σ y = Some y' ∧ lft σ y' = Some y ∧ inner σ (y' :: ys)).
    tauto.
Qed.

Lemma inner_frame σ σ' xs w :
  NoDup xs → last xs = Some w →
  (∀ u, u ∈ xs → u ≠ w → rgt σ' u = rgt σ u) →
  (∀ u, u ∈ xs → head xs ≠ Some u → lft σ' u = lft σ u) →
  inner σ xs → inner σ' xs.
Proof.
  induction xs as [|y [|y' ys] IH]; try done.
  intros Hnd Hlast HR HL (Hr & Hl & Hin).
  rewrite last_cons_cons in Hlast.
  apply NoDup_cons in Hnd as [Hy Hnd].
  assert (w ∈ y' :: ys) by (apply last_Some_elem_of; done).
  split_and!.
  - rewrite HR; [done|set_solver|]. intros ->. done.
  - rewrite HL; [done|set_solver|]. simpl. intros [= ->]. set_solver.
  - apply IH; try done.
    + intros u Hu ?. apply HR; [set_solver|done].
    + intros u Hu ?. apply HL; [set_solver|]. simpl. intros [= ->]. done.
Qed.

Lemma chain_live σ xs : ∀ x z u, chain σ x xs z → u ∈ x :: xs → live σ u.
Proof.
  induction xs as [|y ys IH]; intros x z u; simpl.
  - intros [Hr _] Hu. apply list_elem_of_singleton in Hu as ->. eauto with heap_db.
  - intros (Hr & Hl & Hc) Hu. apply elem_of_cons in Hu as [->|Hu]; eauto with heap_db.
Qed.

Lemma ring_live σ ls x : ring σ ls → x ∈ ls → live σ x.
Proof. destruct ls as [|y ys]; [done|]. intros [_ Hc]. by eapply chain_live. Qed.

Lemma ring_NoDup σ ls : ring σ ls → NoDup ls.
Proof. destruct ls; [done|]. by intros [? _]. Qed.

Lemma ring_singleton σ x : ring σ [x] ↔ singleton σ x.
Proof.
  unfold singleton. simpl. split.
  - intros [_ [? ?]]. done.
  - intros [? ?]. split; [apply NoDup_singleton|done].
Qed.

(** The links of the first node of a ring with at least two nodes. *)
Lemma ring_head_links σ x y ys :
  ring σ (x :: y :: ys) →
  ∃ w, last (y :: ys) = Some w ∧ lft σ x = Some w ∧ rgt σ x = Some y ∧
       lft σ y = Some x ∧ rgt σ w = Some x ∧ x ≠ y ∧ x ≠ w.
Proof.
  intros [Hnd Hc]. apply chain_cons_inner in Hc as (Hr & Hl & _ & w & Hw & Hrw & Hlw).
  exists w. split_and!; try done.
  - apply NoDup_cons in Hnd as [Hx _]. set_solver.
  - apply NoDup_cons in Hnd as [Hx _]. apply last_Some_elem_of in Hw. set_solver.
Qed.

(** A state that only differs outside of a ring still has that ring. *)
Lemma ring_frame σ σ' ls :
  (∀ u, u ∈ ls → lft σ' u = lft σ u ∧ rgt σ' u = rgt σ u) →
  ring σ ls → ring σ' ls.
Proof.
  destruct ls as [|x [|y ys]]; [done| |].
  - intros H. rewrite !ring_singleton. unfold singleton.
    destruct (H x) as [-> ->]; [set_solver|done].
  - intros H [Hnd Hc]. split; [done|].
    apply chain_cons_inner in Hc as (Hr & Hl & Hin & w & Hw & Hrw & Hlw).
    assert (w ∈ y :: ys) by (by apply last_Some_elem_of).
    apply chain_cons_inner.
    destruct (H x) as [Ex1 Ex2]; [set_solver|].
    destruct (H y) as [Ey _]; [set_solver|].
    destruct (H w) as [_ Ew]; [set_solver|].
    split_and!; [congruence..| |exists w; split_and!; congruence].
    apply NoDup_cons in Hnd as [_ Hnd].
    eapply inner_frame; [done|done| | |done]; intros u Hu _; apply H; set_solver.
Qed.

(** Rotating the list of a ring gives the same ring. *)
Lemma ring_rotate σ x xs : ring σ (x :: xs) → ring σ (xs ++ [x]).
Proof.
  destruct xs as [|y ys]; [done|].
  intros [Hnd Hc]. split.
  - change (NoDup ((y :: ys) ++ [x])).
    apply NoDup_app. apply NoDup_cons in Hnd as [Hx Hnd].
    split_and!; [done| |apply NoDup_singleton].
    intros u Hu Hu'. apply list_elem_of_singleton in Hu' as ->. done.
  - simpl in Hc. destruct Hc as (Hr & Hl & Hc).
    clear Hnd. revert y Hr Hl Hc. induction ys as [|y' ys IH]; intros y Hr Hl Hc.
    + simpl in *. tauto.
    + simpl in Hc. destruct Hc as (Hr' & Hl' & Hc).
      change (rgt σ y = Some y' ∧ lft σ y' = Some y ∧ chain σ y' (ys ++ [x]) y).
      split_and!; try done.
      clear IH Hr' Hl'. revert y' Hc. induction ys as [|y'' ys IH]; intros y' Hc.
      * simpl in *. tauto.
      * simpl in Hc. destruct Hc as (? & ? & Hc).
        change (rgt σ y' = Some y'' ∧ lft σ y'' = Some y' ∧ chain σ y'' (ys ++ [x]) y).
        split_and!; try done. by apply IH.
Qed.

End rings.

Section ring_splice.
Implicit Types (σ : state) (x y z w this rhs : loc) (xs ys ls rest : list loc).

Lemma ring_inner σ y ys :
  ring σ (y :: ys) ↔
  NoDup (y :: ys) ∧ inner σ (y :: ys) ∧
  ∃ w, last (y :: ys) = Some w ∧ rgt σ w = Some y ∧ lft σ y = Some w.
Proof.
  destruct ys as [|y' ys].
  - simpl. split.
    + intros [? [? ?]]. split_and!; eauto.
    + intros (? & _ & w & [= <-] & ? & ?). done.
  - unfold ring. rewrite chain_cons_inner.
    change (inner σ (y :: y' :: ys)) with
      (rgt σ y = Some y' ∧ lft σ y' = Some y ∧ inner σ (y' :: ys)).
    rewrite last_cons_cons. tauto.
Qed.

(** Erasing the first node of a ring of two or more nodes leaves the ring
    of the other nodes, in the same order, and the node alone. *)
Lemma erase_ring σ x y ys w :
  ring σ (x :: y :: ys) → last (y :: ys) = Some w →
  ring (erased x w y σ) (y :: ys) ∧ singleton (erased x w y σ) x.
Proof.
  intros Hring Hw.
  assert (Lx : live σ x) by (eapply ring_live; [done|set_solver]).
  assert (Ly : live σ y) by (eapply ring_live; [done|set_solver]).
  assert (Hwin : w ∈ y :: ys) by (by apply last_Some_elem_of).
  assert (Lw : live σ w) by (eapply ring_live; [done|set_solver]).
  apply ring_inner in Hring as (Hnd & Hin & w' & Hw' & Hrw & Hlx).
  rewrite last_cons_cons, Hw in Hw'. injection Hw' as <-.
  apply NoDup_cons in Hnd as [Hx Hnd].
  change (inner σ (x :: y :: ys)) with
    (rgt σ x = Some y ∧ lft σ y = Some x ∧ inner σ (y :: ys)) in Hin.
  destruct Hin as (Hrx & Hly & Hin).
  split.
  - apply ring_inner. split_and!; [done| |].
    + eapply inner_frame; [done..| | |done].
      * intros u Hu Hne. unfold erased. observe. split_addr.
      * intros u Hu Hne. unfold erased. observe. split_addr.
    + exists w. unfold erased. split_and!; [done|observe; split_addr..].
  - unfold singleton, erased. split; observe; split_addr.
Qed.

(** Inserting a node that is alone after the first node of a ring puts
    it second in that ring. *)
Lemma insert_ring σ this rhs rest r :
  ring σ (rhs :: rest) → singleton σ this → this ∉ rhs :: rest →
  rgt σ rhs = Some r →
  ring (inserted this rhs r σ) (rhs :: this :: rest).
Proof.
  intros Hring [Hlt Hrt] Hnotin Hr.
  assert (Lt : live σ this) by eauto with heap_db.
  assert (Lrhs : live σ rhs) by eauto with heap_db.
  assert (this ≠ rhs) by set_solver.
  destruct rest as [|y ys].
  - apply ring_singleton in Hring as [Hl' Hr']. simplify_eq.
    split; [apply NoDup_cons; split; [set_solver|apply NoDup_singleton]|].
    unfold inserted. simpl. split_and!; observe; split_addr.
  - assert (Ly : live σ y) by (eapply ring_live; [done|set_solver]).
    apply ring_inner in Hring as (Hnd & Hin & w & Hw & Hrw & Hlx).
    change (inner σ (rhs :: y :: ys)) with
      (rgt σ rhs = Some y ∧ lft σ y = Some rhs ∧ inner σ (y :: ys)) in Hin.
    destruct Hin as (Hrx & Hly & Hin). simplify_eq.
    rewrite last_cons_cons in Hw.
    assert (Hwin : w ∈ y :: ys) by (by apply last_Some_elem_of).
    pose proof Hnd as Hnd'. apply NoDup_cons in Hnd' as [Hrhs Hnd'].
    apply ring_inner. split_and!.
    + apply NoDup_cons. split; [set_solver|]. apply NoDup_cons. set_solver.
    + change (rgt (inserted this rhs y σ) rhs = Some this ∧
              lft (inserted this rhs y σ) this = Some rhs ∧
              rgt (inserted this rhs y σ) this = Some y ∧
              lft (inserted this rhs y σ) y = Some this ∧
              inner (inserted this rhs y σ) (y :: ys)).
      unfold inserted. split_and!; [observe; split_addr..|].
      eapply inner_frame; [done..| | |done].
      * intros u Hu Hne. observe. split_addr; set_solver.
      * intros u Hu Hne. observe. split_addr; set_solver.
    + exists w. rewrite !last_cons_cons. unfold inserted.
      split_and!; [done|observe; split_addr; set_solver..].
Qed.

End ring_splice.

(** ** Handle operations *)

Section handle_ops.
Implicit Types (σ : state) (x y this rhs : loc) (p q : ptr) (rest ls : list loc).

Lemma reset_to_unique σ this p q :
  singleton σ this → rsrc σ this = Some q →
  reset_to this p σ = Done () (st_set_ptr this p (st_delete q σ)).
Proof.
  intros Hs Hq. unfold reset_to, unique.
  rewrite (bind_done _ _ _ _ _ (unique_singleton _ _ Hs)).
  assert (E : (q0 <- get_ptr this;; delete_expr q0) σ = Done () (st_delete q σ))
    by (by rewrite (bind_done _ _ _ _ _ (get_ptr_ok _ _ _ Hq))).
  rewrite (bind_done _ _ _ _ _ E).
  apply set_ptr_ok. eauto with heap_db.
Qed.

Lemma reset_to_shared σ this p l r :
  lft σ this = Some l → rgt σ this = Some r → ¬ (l = this ∧ r = this) →
  live σ l → live σ r →
  reset_to this p σ = Done () (st_set_ptr this p (erased this l r σ)).
Proof.
  intros Hl Hr Hne Ll Lr. unfold reset_to, unique.
  rewrite (bind_done _ _ _ _ _ (unique_ok _ _ _ _ Hl Hr)).
  rewrite bool_decide_eq_false_2 by done.
  rewrite (bind_done _ _ _ _ _ (erase_ok _ _ _ _ Hl Hr Ll Lr)).
  apply set_ptr_ok. unfold erased. eauto 10 with heap_db.
Qed.

Lemma reset_is_reset_to this : reset this = reset_to this nullptr.
Proof. done. Qed.

Lemma ctor_copy_ok σ this rhs r p :
  ¬ live σ this → rgt σ rhs = Some r → live σ r → rsrc σ rhs = Some p →
  ctor_copy this rhs σ =
  Done () (st_set_ptr this p
    (inserted this rhs r
       (st_alloc this (mk_linked_ptr nullptr (mk_base this this)) σ))).
Proof.
  intros Hfresh Hr Lr Hp.
  assert (this ≠ rhs) by (intros ->; eauto with heap_db).
  unfold ctor_copy.
  rewrite (bind_done _ _ _ _ _ (alloc_ok _ _ _ Hfresh)).
  erewrite (bind_done (details.insert_after _ _)); cycle 1.
  { apply (insert_after_ok _ _ _ r).
    - split; observe; split_addr.
    - observe; split_addr.
    - eauto with heap_db. }
  unfold get. unfold inserted. step. step. done.
Qed.

Lemma static_cast_id p : static_cast id p = p.
Proof. unfold static_cast. by case_bool_decide. Qed.

Lemma ctor_copy_conv_ok (conv : ptr → ptr) σ this rhs r p :
  ¬ live σ this → rgt σ rhs = Some r → live σ r → rsrc σ rhs = Some p →
  ctor_copy_conv conv this rhs σ =
  Done () (st_set_ptr this (static_cast conv p)
    (inserted this rhs r
       (st_alloc this (mk_linked_ptr nullptr (mk_base this this)) σ))).
Proof.
  intros Hfresh Hr Lr Hp.
  assert (this ≠ rhs) by (intros ->; eauto with heap_db).
  unfold ctor_copy_conv.
  rewrite (bind_done _ _ _ _ _ (alloc_ok _ _ _ Hfresh)).
  erewrite (bind_done (details.insert_after _ _)); cycle 1.
  { apply (insert_after_ok _ _ _ r).
    - split; observe; split_addr.
    - observe; split_addr.
    - eauto with heap_db. }
  unfold get. unfold inserted. step. step. done.
Qed.

End handle_ops.

(** ** The ring operations *)

Section ring_claims.
Implicit Types (σ : state) (x y n t r this rhs : loc) (p q : ptr) (rest ls : list loc).

(** Claim C10.  Splicing a singleton node [n] after a node [t] whose right
    neighbour links back to it, and then erasing [n], runs without fault
    and gives back the state it started from: every node has the left and
    right neighbours it had, and [n] is a singleton again.  In between,
    [n] really is the second node of the ring of [t]. *)
Theorem insert_erase_round_trip σ n t r :
  singleton σ n → rgt σ t = Some r → lft σ r = Some t →
  ∃ σ1,
    details.insert_after n t σ = Done () σ1 ∧
    (∀ rest, ring σ (t :: rest) → n ∉ t :: rest → ring σ1 (t :: n :: rest)) ∧
    details.erase n σ1 = Done () σ ∧
    (details.insert_after n t;; details.erase n) σ = Done () σ.
Proof.
  intros Hs Hr Hl.
  assert (Ln : live σ n) by (destruct Hs; eauto with heap_db).
  assert (Lt : live σ t) by eauto with heap_db.
  assert (Lr : live σ r) by eauto with heap_db.
  pose proof (insert_after_ok σ n t r Hs Hr Lr) as Hins.
  assert (Hera : details.erase n (inserted n t r σ) = Done () σ).
  { rewrite (erase_ok _ n t r).
    - by rewrite erase_inserted.
    - unfold inserted. observe. split_addr.
    - destruct Hs as [Hnl Hnr]. unfold inserted. observe. split_addr; congruence.
    - unfold inserted. eauto 10 with heap_db.
    - unfold inserted. eauto 10 with heap_db. }
  exists (inserted n t r σ). split_and!; [done| |done|].
  - intros rest Hring Hn. by apply insert_ring.
  - by rewrite (bind_done _ _ _ _ _ Hins).
Qed.

Lemma insert_erase_round_trip_witness :
  ∃ σ1,
    details.insert_after 1 2 ex_shared = Done () σ1 ∧
    (∀ rest, ring ex_shared (2%positive :: rest) → 1%positive ∉ 2%positive :: rest →
             ring σ1 (2%positive :: 1%positive :: rest)) ∧
    details.erase 1 σ1 = Done () ex_shared ∧
    (details.insert_after 1 2;; details.erase 1) ex_shared = Done () ex_shared.
Proof.
  apply (insert_erase_round_trip ex_shared 1 2 3); vm_compute; auto.
Defined.

End ring_claims.

(** ** Reset and destruction *)

Section release_or_detach.
Implicit Types (σ : state) (x y w this rhs : loc) (p q : ptr) (rest ls : list loc).

(** Any member of a ring can be taken as its first node. *)
Lemma ring_at_member σ ls x :
  ring σ ls → x ∈ ls → ∃ l1 l2, ls = l1 ++ x :: l2 ∧ ring σ (x :: l2 ++ l1).
Proof.
  intros Hring Hx. apply list_elem_of_split in Hx as (l1 & l2 & ->).
  exists l1, l2. split; [done|].
  revert l2 Hring. induction l1 as [|a l1 IH]; intros l2 Hring.
  - by rewrite app_nil_r.
  - simpl in Hring. apply ring_rotate in Hring.
    rewrite <- app_assoc in Hring. simpl in Hring.
    apply IH in Hring. by rewrite <- app_assoc in Hring.
Qed.

(** [reset(q)] on the first node of a ring of two or more nodes. *)
Lemma reset_to_ring σ this y ys q :
  ring σ (this :: y :: ys) →
  ∃ w, last (y :: ys) = Some w ∧
       lft σ this = Some w ∧ rgt σ this = Some y ∧
       reset_to this q σ = Done () (st_set_ptr this q (erased this w y σ)) ∧
       ring (st_set_ptr this q (erased this w y σ)) (y :: ys) ∧
       singleton (st_set_ptr this q (erased this w y σ)) this.
Proof.
  intros Hring.
  destruct (ring_head_links _ _ _ _ Hring) as (w & Hw & Hl & Hr & _ & _ & Hne & _).
  assert (Hwin : w ∈ y :: ys) by (by apply last_Some_elem_of).
  assert (Lw : live σ w) by (eapply ring_live; [done|set_solver]).
  assert (Ly : live σ y) by (eapply ring_live; [done|set_solver]).
  destruct (erase_ring _ _ _ _ _ Hring Hw) as [Hring' [Hsl Hsr]].
  exists w. split_and!; try done.
  - apply reset_to_shared; try done. intros [_ ->]. done.
  - eapply ring_frame; [|exact Hring']. intros u _. by observe.
  - split; by observe.
Qed.


(** Claim C3.  The destructor and [reset()] follow the release-or-detach
    rule.  When the handle tests [unique()], [delete] runs on its resource
    and no link changes; otherwise nothing is deleted, the node is erased
    from its ring, and the other members keep the ring, in their order,
    and keep the resource.  After [reset()] the handle is an empty
    singleton, and the destructor is [reset()] followed by the end of the
    object's lifetime. *)
Theorem reset_release_or_detach σ this p l r :
  rsrc σ this = Some p → lft σ this = Some l → rgt σ this = Some r →
  live σ l → live σ r →
  ∃ u σ',
    unique this σ = Done u σ ∧
    reset this σ = Done () σ' ∧
    dtor this σ = Done () (st_dealloc this σ') ∧
    singleton σ' this ∧ rsrc σ' this = Some nullptr ∧
    (∀ x, x ≠ this → rsrc σ' x = rsrc σ x) ∧
    if u
    then deleted σ' = (if decide (p = nullptr) then deleted σ else deleted σ ++ [p]) ∧
         ∀ x, lft σ' x = lft σ x ∧ rgt σ' x = rgt σ x
    else deleted σ' = deleted σ ∧
         ∀ rest, ring σ (this :: rest) → owns σ rest p →
           ring σ' rest ∧ owns σ' rest p ∧
           ring (st_dealloc this σ') rest ∧ owns (st_dealloc this σ') rest p.
Proof.
  intros Hp Hl Hr Ll Lr.
  assert (Lthis : live σ this) by eauto with heap_db.
  exists (bool_decide (l = this ∧ r = this)).
  case_bool_decide as Hu.
  - destruct Hu as [-> ->].
    assert (Hs : singleton σ this) by done.
    exists (st_set_ptr this nullptr (st_delete p σ)).
    pose proof (reset_to_unique σ this nullptr p Hs Hp) as Hreset.
    rewrite <- reset_is_reset_to in Hreset.
    split_and!.
    + unfold unique. by rewrite (unique_singleton _ _ Hs).
    + done.
    + unfold dtor. rewrite (bind_done _ _ _ _ _ Hreset).
      apply dealloc_ok. eauto with heap_db.
    + split; by observe.
    + observe. split_addr.
    + intros x Hx. observe. split_addr.
    + by observe.
    + intros x. by observe.
  - exists (st_set_ptr this nullptr (erased this l r σ)).
    pose proof (reset_to_shared σ this nullptr l r Hl Hr Hu Ll Lr) as Hreset.
    rewrite <- reset_is_reset_to in Hreset.
    split_and!.
    + unfold unique. rewrite (unique_ok _ _ _ _ Hl Hr).
      by rewrite bool_decide_eq_false_2.
    + done.
    + unfold dtor. rewrite (bind_done _ _ _ _ _ Hreset).
      apply dealloc_ok. unfold erased. eauto 10 with heap_db.
    + unfold erased. split; observe; split_addr.
    + unfold erased. observe. split_addr.
    + intros x Hx. unfold erased. observe. split_addr.
    + done.
    + intros rest Hring Hown.
      destruct rest as [|y ys].
      { apply ring_singleton in Hring as [? ?]. destruct Hu. split; congruence. }
      destruct (reset_to_ring _ _ _ _ nullptr Hring)
        as (w & Hw & Hl' & Hr' & _ & Hring' & _).
      assert (w = l) as -> by congruence. assert (y = r) as -> by congruence.
      assert (Hnotin : this ∉ r :: ys)
        by (apply ring_NoDup, NoDup_cons in Hring as [? _]; done).
      assert (Hown' : owns (st_set_ptr this nullptr (erased this l r σ)) (r :: ys) p).
      { unfold owns in *. rewrite Forall_forall in *. intros x Hx.
        unfold erased. observe. split_addr. by apply Hown. }
      split_and!; [done|done| |].
      * eapply ring_frame; [|exact Hring']. intros u Hu'. observe.
        split_addr.
      * unfold owns in *. rewrite Forall_forall in *. intros x Hx.
        rewrite rsrc_dealloc. split_addr. by apply Hown'.
Qed.

Lemma reset_release_or_detach_witness :
  ∃ u σ',
    unique 2 ex_shared = Done u ex_shared ∧
    reset 2 ex_shared = Done () σ' ∧
    dtor 2 ex_shared = Done () (st_dealloc 2 σ') ∧
    singleton σ' 2 ∧ rsrc σ' 2 = Some nullptr ∧
    (∀ x, x ≠ 2%positive → rsrc σ' x = rsrc ex_shared x) ∧
    if u
    then deleted σ' = (if decide (7 = nullptr) then deleted ex_shared
                       else deleted ex_shared ++ [7]) ∧
         ∀ x, lft σ' x = lft ex_shared x ∧ rgt σ' x = rgt ex_shared x
    else deleted σ' = deleted ex_shared ∧
         ∀ rest, ring ex_shared (2%positive :: rest) → owns ex_shared rest 7 →
           ring σ' rest ∧ owns σ' rest 7 ∧
           ring (st_dealloc 2 σ') rest ∧ owns (st_dealloc 2 σ') rest 7.
Proof.
  apply (reset_release_or_detach ex_shared 2 7 3 3); vm_compute; eauto.
Defined.

(** Claim C4.  [reset(q)] on a handle that shares its ring with other
    handles makes it a singleton that holds [q].  The other members form
    the ring they formed before without it, in the same order; they keep
    the links they had among themselves and their resource reference,
    nothing outside the ring changes, and nothing is deleted. *)
Theorem reset_to_shared_handle σ this rest p q :
  ring σ (this :: rest) → rest ≠ [] → owns σ (this :: rest) p →
  ∃ σ',
    reset_to this q σ = Done () σ' ∧
    singleton σ' this ∧ rsrc σ' this = Some q ∧
    (this ∉ rest) ∧ ring σ' rest ∧ owns σ' rest p ∧
    deleted σ' = deleted σ ∧
    (∀ x y, x ∈ rest → y ∈ rest →
       (rgt σ x = Some y → rgt σ' x = Some y) ∧
       (lft σ x = Some y → lft σ' x = Some y)) ∧
    (∀ x, x ∉ this :: rest →
       lft σ' x = lft σ x ∧ rgt σ' x = rgt σ x ∧ rsrc σ' x = rsrc σ x).
Proof.
  intros Hring Hne Hown.
  destruct rest as [|y ys]; [done|]. clear Hne.
  destruct (reset_to_ring _ _ _ _ q Hring)
    as (w & Hw & Hl & Hr & Hreset & Hring' & Hsing).
  destruct (ring_head_links _ _ _ _ Hring) as (w' & Hw' & _ & _ & Hly & Hrw & _ & _).
  assert (w' = w) as -> by congruence.
  assert (Hwin : w ∈ y :: ys) by (by apply last_Some_elem_of).
  assert (Lthis : live σ this) by eauto with heap_db.
  assert (Lw : live σ w) by eauto with heap_db.
  assert (Ly : live σ y) by eauto with heap_db.
  assert (Hnotin : this ∉ y :: ys)
    by (apply ring_NoDup, NoDup_cons in Hring as [? _]; done).
  exists (st_set_ptr this q (erased this w y σ)).
  split_and!; try done.
  - unfold erased. observe. split_addr.
  - unfold owns in *. rewrite Forall_forall in *. intros x Hx.
    unfold erased. observe. split_addr. apply Hown. set_solver.
  - intros x z Hx Hz. unfold erased. split; intros E; observe; split_addr.
  - intros x Hx. unfold erased. observe.
    split_and!; split_addr; set_solver.
Qed.

Lemma reset_to_shared_handle_witness :
  ∃ σ',
    reset_to 2 9 ex_shared = Done () σ' ∧
    singleton σ' 2 ∧ rsrc σ' 2 = Some 9 ∧
    (2%positive ∉ [3%positive]) ∧ ring σ' [3%positive] ∧ owns σ' [3%positive] 7 ∧
    deleted σ' = deleted ex_shared ∧
    (∀ x y, x ∈ [3%positive] → y ∈ [3%positive] →
       (rgt ex_shared x = Some y → rgt σ' x = Some y) ∧
       (lft ex_shared x = Some y → lft σ' x = Some y)) ∧
    (∀ x, x ∉ [2%positive; 3%positive] →
       lft σ' x = lft ex_shared x ∧ rgt σ' x = rgt ex_shared x ∧
       rsrc σ' x = rsrc ex_shared x).
Proof.
  apply (reset_to_shared_handle ex_shared 2 [3%positive] 7 9).
  - apply (bool_decide_unpack _). vm_compute. exact I.
  - discriminate.
  - apply (bool_decide_unpack _). vm_compute. exact I.
Defined.

End release_or_detach.

(** ** Construction *)

Section construction.
Implicit Types (σ : state) (x y this rhs : loc) (p q : ptr) (rest ls : list loc).

(** A handle is [unique()] exactly when it is the only member of its ring. *)
Lemma ring_unique σ ls x :
  ring σ ls → x ∈ ls →
  unique x σ = Done (bool_decide (length ls = 1%nat)) σ.
Proof.
  intros Hring Hx.
  destruct (ring_at_member _ _ _ Hring Hx) as (l1 & l2 & -> & Hring').
  assert (Hlen : length (l1 ++ x :: l2) = length (x :: l2 ++ l1))
    by (rewrite !length_app; simpl; rewrite length_app; lia).
  rewrite Hlen. clear Hlen Hring Hx.
  destruct (l2 ++ l1) as [|y ys].
  - apply ring_singleton in Hring'. unfold unique.
    by rewrite (unique_singleton _ _ Hring').
  - destruct (ring_head_links _ _ _ _ Hring') as (w & _ & Hl & Hr & _ & _ & Hne & _).
    unfold unique. rewrite (unique_ok _ _ _ _ Hl Hr). f_equal.
    rewrite bool_decide_eq_false_2 by (intros [_ ->]; done). done.
Qed.

Lemma ring_head_rgt σ x rest :
  ring σ (x :: rest) → ∃ r, rgt σ x = Some r ∧ live σ r.
Proof.
  intros Hring. destruct rest as [|y ys].
  - apply ring_singleton in Hring as [? ?]. eauto with heap_db.
  - destruct (ring_head_links _ _ _ _ Hring) as (w & _ & _ & Hr & Hl & _).
    eauto with heap_db.
Qed.

Lemma rsrc_lookup σ x p :
  rsrc σ x = Some p ↔ ∃ c, heap σ !! x = Some c ∧ _ptr c = p.
Proof.
  unfold rsrc. destruct (heap σ !! x) as [c|]; simpl; split.
  - intros [= <-]. eauto.
  - intros (c' & [= <-] & <-). done.
  - done.
  - intros (? & ? & _). done.
Qed.

(** Copy construction puts the new handle second in the ring of its
    source and gives it the source's resource reference. *)
Lemma ctor_copy_ring σ this rhs rest p :
  ¬ live σ this → ring σ (rhs :: rest) → rsrc σ rhs = Some p →
  ∃ σ', ctor_copy this rhs σ = Done () σ' ∧
    ring σ' (rhs :: this :: rest) ∧
    rsrc σ' this = Some p ∧
    deleted σ' = deleted σ ∧
    (∀ x, x ≠ this → rsrc σ' x = rsrc σ x).
Proof.
  intros Hfresh Hring Hp.
  destruct (ring_head_rgt _ _ _ Hring) as (r & Hr & Lr).
  assert (Hnotin : this ∉ rhs :: rest)
    by (intros Hin; apply Hfresh; by eapply ring_live).
  assert (Hne : this ≠ rhs) by set_solver.
  assert (Lrhs : live σ rhs) by eauto with heap_db.
  set (σa := st_alloc this (mk_linked_ptr nullptr (mk_base this this)) σ).
  exists (st_set_ptr this p (inserted this rhs r σa)).
  assert (Hringa : ring σa (rhs :: rest)).
  { eapply ring_frame; [|exact Hring]. intros u Hu. unfold σa. observe.
    split_addr. }
  assert (Hsa : singleton σa this) by (unfold σa; split; observe; split_addr).
  assert (Hra : rgt σa rhs = Some r) by (unfold σa; observe; split_addr).
  split_and!.
  - by apply ctor_copy_ok.
  - eapply ring_frame; [|by apply insert_ring]. intros u _. by observe.
  - unfold inserted, σa. observe. split_addr.
  - done.
  - intros x Hx. unfold inserted, σa. observe. split_addr.
Qed.

(** Copy construction from a handle of another type. *)
Lemma ctor_copy_conv_ring (conv : ptr → ptr) σ this rhs rest p :
  ¬ live σ this → ring σ (rhs :: rest) → rsrc σ rhs = Some p →
  ∃ σ', ctor_copy_conv conv this rhs σ = Done () σ' ∧
    ring σ' (rhs :: this :: rest) ∧
    rsrc σ' this = Some (static_cast conv p) ∧
    deleted σ' = deleted σ ∧
    (∀ x, x ≠ this → rsrc σ' x = rsrc σ x) ∧
    (static_cast conv p = p → ctor_copy this rhs σ = Done () σ').
Proof.
  intros Hfresh Hring Hp.
  destruct (ring_head_rgt _ _ _ Hring) as (r & Hr & Lr).
  assert (Hnotin : this ∉ rhs :: rest)
    by (intros Hin; apply Hfresh; by eapply ring_live).
  assert (Hne : this ≠ rhs) by set_solver.
  assert (Lrhs : live σ rhs) by eauto with heap_db.
  set (σa := st_alloc this (mk_linked_ptr nullptr (mk_base this this)) σ).
  exists (st_set_ptr this (static_cast conv p) (inserted this rhs r σa)).
  assert (Hringa : ring σa (rhs :: rest)).
  { eapply ring_frame; [|exact Hring]. intros u Hu. unfold σa. observe.
    split_addr. }
  assert (Hsa : singleton σa this) by (unfold σa; split; observe; split_addr).
  assert (Hra : rgt σa rhs = Some r) by (unfold σa; observe; split_addr).
  split_and!.
  - by apply ctor_copy_conv_ok.
  - eapply ring_frame; [|by apply insert_ring]. intros u _. by observe.
  - unfold inserted, σa. observe. split_addr.
  - done.
  - intros x Hx. unfold inserted, σa. observe. split_addr.
  - intros ->. by apply ctor_copy_ok.
Qed.

(** Claim C6.  Copy construction, from a handle of the same type or of
    a type whose pointers [conv] converts, splices the new handle into
    the ring of its source, right after the source, and gives it the
    resource reference of the source converted to its own type.
    Afterwards [==] holds of the two handles, in either order (the
    comparison converts the reference of the source as the constructor
    did), and neither handle tests [unique()].  Where the conversion
    keeps the address of the reference, as it does between handles of one
    type, this is the constructor [ctor_copy] and the two [get()] results
    are the same address. *)
Theorem copy_construct_joins_ring (conv : ptr → ptr) σ this rhs rest p :
  ¬ live σ this → ring σ (rhs :: rest) → rsrc σ rhs = Some p →
  ∃ σ', ctor_copy_conv conv this rhs σ = Done () σ' ∧
    ring σ' (rhs :: this :: rest) ∧
    get rhs σ' = Done p σ' ∧ get this σ' = Done (static_cast conv p) σ' ∧
    (∀ c1 c2, heap σ' !! rhs = Some c1 → heap σ' !! this = Some c2 →
              op_eq_conv conv id c1 c2 = true ∧
              op_eq_conv id conv c2 c1 = true) ∧
    unique rhs σ' = Done false σ' ∧ unique this σ' = Done false σ' ∧
    deleted σ' = deleted σ ∧
    (static_cast conv p = p →
       ctor_copy this rhs σ = Done () σ' ∧ get this σ' = Done p σ' ∧
       ∀ c1 c2, heap σ' !! rhs = Some c1 → heap σ' !! this = Some c2 →
                op_eq c1 c2 = true).
Proof.
  intros Hfresh Hring Hp.
  destruct (ctor_copy_conv_ring conv _ _ _ _ _ Hfresh Hring Hp)
    as (σ' & Hrun & Hring' & Hthis & Hdel & Hother & Hsame).
  assert (Hne : rhs ≠ this) by (intros ->; eauto with heap_db).
  assert (Hrhs : rsrc σ' rhs = Some p) by (by rewrite Hother).
  assert (Hfields : ∀ c1 c2,
    heap σ' !! rhs = Some c1 → heap σ' !! this = Some c2 →
    _ptr c1 = p ∧ _ptr c2 = static_cast conv p).
  { intros c1 c2 H1 H2.
    apply rsrc_lookup in Hrhs as (? & ? & <-).
    apply rsrc_lookup in Hthis as (? & ? & E). split; congruence. }
  exists σ'. split_and!; try done.
  - by apply get_ptr_ok.
  - by apply get_ptr_ok.
  - intros c1 c2 H1 H2. destruct (Hfields c1 c2 H1 H2) as [E1 E2].
    unfold op_eq_conv. rewrite E1, E2, static_cast_id.
    split; by apply bool_decide_eq_true.
  - rewrite (ring_unique _ _ _ Hring') by set_solver. done.
  - rewrite (ring_unique _ _ _ Hring') by set_solver. done.
  - intros E. split_and!.
    + by apply Hsame.
    + apply get_ptr_ok. by rewrite Hthis, E.
    + intros c1 c2 H1 H2. destruct (Hfields c1 c2 H1 H2) as [E1 E2].
      unfold op_eq. apply bool_decide_eq_true. congruence.
Qed.

Lemma copy_construct_joins_ring_witness :
  ∃ σ', ctor_copy_conv to_second_base 4 2 ex_shared = Done () σ' ∧
    ring σ' [2%positive; 4%positive; 3%positive] ∧
    get 2 σ' = Done 7 σ' ∧
    get 4 σ' = Done (static_cast to_second_base 7) σ' ∧
    (∀ c1 c2, heap σ' !! 2%positive = Some c1 → heap σ' !! 4%positive = Some c2 →
              op_eq_conv to_second_base id c1 c2 = true ∧
              op_eq_conv id to_second_base c2 c1 = true) ∧
    unique 2 σ' = Done false σ' ∧ unique 4 σ' = Done false σ' ∧
    deleted σ' = deleted ex_shared ∧
    (static_cast to_second_base 7 = 7 →
       ctor_copy 4 2 ex_shared = Done () σ' ∧ get 4 σ' = Done 7 σ' ∧
       ∀ c1 c2, heap σ' !! 2%positive = Some c1 → heap σ' !! 4%positive = Some c2 →
                op_eq c1 c2 = true).
Proof.
  apply (copy_construct_joins_ring to_second_base ex_shared 4 2 [3%positive] 7).
  - apply (bool_decide_unpack _). vm_compute. exact I.
  - apply (bool_decide_unpack _). vm_compute. exact I.
  - reflexivity.
Defined.

(** Claim C8.  Construction from a raw resource reference gives a handle
    that is alone in its ring and tests [unique()], whatever the other
    handles hold (the reference is not compared with theirs): no other
    object changes, and every ring that existed is still the same ring
    and does not contain the new handle. *)
Theorem raw_construct_sole_owner σ this p :
  ¬ live σ this →
  ∃ σ', ctor_raw this p σ = Done () σ' ∧
    ring σ' [this] ∧ unique this σ' = Done true σ' ∧
    get this σ' = Done p σ' ∧
    deleted σ' = deleted σ ∧
    (∀ x, x ≠ this →
       lft σ' x = lft σ x ∧ rgt σ' x = rgt σ x ∧ rsrc σ' x = rsrc σ x) ∧
    (∀ ls, ring σ ls → ring σ' ls ∧ this ∉ ls).
Proof.
  intros Hfresh.
  exists (st_alloc this (mk_linked_ptr p (mk_base this this)) σ).
  assert (Hs : singleton (st_alloc this (mk_linked_ptr p (mk_base this this)) σ) this)
    by (split; observe; split_addr).
  split_and!.
  - by apply alloc_ok.
  - by apply ring_singleton.
  - unfold unique. by apply unique_singleton.
  - apply get_ptr_ok. observe. split_addr.
  - done.
  - intros x Hx. observe. split_addr.
  - intros ls Hring.
    assert (Hnotin : this ∉ ls) by (intros Hin; apply Hfresh; by eapply ring_live).
    split; [|done].
    eapply ring_frame; [|exact Hring]. intros u Hu. observe.
    split_addr.
Qed.

Lemma raw_construct_sole_owner_witness :
  ∃ σ', ctor_raw 4 7 ex_shared = Done () σ' ∧
    ring σ' [4%positive] ∧ unique 4 σ' = Done true σ' ∧
    get 4 σ' = Done 7 σ' ∧
    deleted σ' = deleted ex_shared ∧
    (∀ x, x ≠ 4%positive →
       lft σ' x = lft ex_shared x ∧ rgt σ' x = rgt ex_shared x ∧
       rsrc σ' x = rsrc ex_shared x) ∧
    (∀ ls, ring ex_shared ls → ring σ' ls ∧ 4%positive ∉ ls).
Proof.
  apply (raw_construct_sole_owner ex_shared 4 7).
  apply (bool_decide_unpack _). vm_compute. exact I.
Defined.

(** Claim C9.  Copy construction from a default-constructed handle links
    the two empty handles into one ring of two nodes: both hold the null
    reference, the boolean test is false for both, and neither tests
    [unique()]. *)
Theorem copy_of_empty_handle σ h1 h2 :
  ¬ live σ h1 → ¬ live σ h2 → h1 ≠ h2 →
  ∃ σ', (ctor_default h1;; ctor_copy h2 h1) σ = Done () σ' ∧
    ring σ' [h1; h2] ∧
    get h1 σ' = Done nullptr σ' ∧ get h2 σ' = Done nullptr σ' ∧
    (∀ c, heap σ' !! h1 = Some c ∨ heap σ' !! h2 = Some c → op_bool c = false) ∧
    unique h1 σ' = Done false σ' ∧ unique h2 σ' = Done false σ'.
Proof.
  intros Hf1 Hf2 Hne.
  set (σ1 := st_alloc h1 (mk_linked_ptr nullptr (mk_base h1 h1)) σ).
  assert (Hrun1 : ctor_default h1 σ = Done () σ1) by (by apply alloc_ok).
  assert (Hf2' : ¬ live σ1 h2).
  { unfold live, σ1. simpl. rewrite lookup_insert_ne by done. exact Hf2. }
  assert (Hring1 : ring σ1 [h1])
    by (apply ring_singleton; unfold σ1; split; observe; split_addr).
  assert (Hp1 : rsrc σ1 h1 = Some nullptr) by (unfold σ1; observe; split_addr).
  destruct (ctor_copy_ring _ _ _ _ _ Hf2' Hring1 Hp1)
    as (σ' & Hrun & Hring' & Hthis & Hdel & Hother).
  assert (Hrhs : rsrc σ' h1 = Some nullptr) by (by rewrite Hother).
  exists σ'. split_and!.
  - by rewrite (bind_done _ _ _ _ _ Hrun1).
  - done.
  - by apply get_ptr_ok.
  - by apply get_ptr_ok.
  - intros c Hc. unfold op_bool.
    apply rsrc_lookup in Hrhs as (c1 & H1 & E1).
    apply rsrc_lookup in Hthis as (c2 & H2 & E2).
    destruct Hc as [Hc|Hc]; simplify_eq; rewrite ?E1, ?E2; done.
  - rewrite (ring_unique _ _ _ Hring') by set_solver. done.
  - rewrite (ring_unique _ _ _ Hring') by set_solver. done.
Qed.

Lemma copy_of_empty_handle_witness :
  ∃ σ', (ctor_default 1;; ctor_copy 2 1) ex_empty = Done () σ' ∧
    ring σ' [1%positive; 2%positive] ∧
    get 1 σ' = Done nullptr σ' ∧ get 2 σ' = Done nullptr σ' ∧
    (∀ c, heap σ' !! 1%positive = Some c ∨ heap σ' !! 2%positive = Some c →
          op_bool c = false) ∧
    unique 1 σ' = Done false σ' ∧ unique 2 σ' = Done false σ'.
Proof.
  apply (copy_of_empty_handle ex_empty 1 2).
  - apply (bool_decide_unpack _). vm_compute. exact I.
  - apply (bool_decide_unpack _). vm_compute. exact I.
  - discriminate.
Defined.

End construction.

(** ** Comparison operators *)

Section comparisons.
Implicit Types (a b c : linked_ptr).

Lemma op_lt_spec a b : op_lt a b = true ↔ _ptr a < _ptr b.
Proof. unfold op_lt. apply bool_decide_eq_true. Qed.

Lemma op_lt_false a b : op_lt a b = false ↔ _ptr b ≤ _ptr a.
Proof. unfold op_lt. rewrite bool_decide_eq_false. lia. Qed.

Lemma op_eq_spec a b : op_eq a b = true ↔ _ptr a = _ptr b.
Proof. unfold op_eq. apply bool_decide_eq_true. Qed.

Lemma op_eq_conv_spec (cl cr : ptr → ptr) a b :
  op_eq_conv cl cr a b = true ↔
  static_cast cl (_ptr a) = static_cast cr (_ptr b).
Proof. unfold op_eq_conv. apply bool_decide_eq_true. Qed.

Lemma op_eq_conv_id a b : op_eq_conv id id a b = op_eq a b.
Proof. unfold op_eq_conv, op_eq. by rewrite !static_cast_id. Qed.

(** Claim C7, as amended.  The six comparison operators depend on
    nothing but the two resource references and, between handles of
    different types, the conversion of the pointers to their common type:
    two pairs of handles with the same [_ptr] fields compare alike,
    whatever their ring links are.  [<] compares the addresses, whatever
    the types, and is a strict weak order on them (irreflexive,
    asymmetric, transitive, with transitive incomparability).  [==] holds
    exactly when the two references, converted to the common type, are
    the same; [!=] is its negation and [>=] the negation of [<].  Between
    handles of one type the operators are [op_eq] to [op_ge]: [==] holds
    exactly when the two addresses are the same, [>] is the converse of
    [<] and [<=] the negation of that converse. *)
Theorem comparisons_by_reference (cl cr : ptr → ptr) a b c a' b' :
  (_ptr a = _ptr a' → _ptr b = _ptr b' →
     op_eq_conv cl cr a b = op_eq_conv cl cr a' b' ∧
     op_ne_conv cl cr a b = op_ne_conv cl cr a' b' ∧
     op_lt a b = op_lt a' b' ∧
     op_gt_conv cl cr a b = op_gt_conv cl cr a' b' ∧
     op_le_conv cl cr a b = op_le_conv cl cr a' b' ∧
     op_ge a b = op_ge a' b') ∧
  (op_eq_conv cl cr a b = true ↔
     static_cast cl (_ptr a) = static_cast cr (_ptr b)) ∧
  op_ne_conv cl cr a b = negb (op_eq_conv cl cr a b) ∧
  op_ge a b = negb (op_lt a b) ∧
  op_lt a a = false ∧
  (op_lt a b = true → op_lt b a = false) ∧
  (op_lt a b = true → op_lt b c = true → op_lt a c = true) ∧
  (op_lt a b = false → op_lt b a = false →
   op_lt b c = false → op_lt c b = false →
   op_lt a c = false ∧ op_lt c a = false) ∧
  (op_eq_conv id id a b = op_eq a b ∧ op_ne_conv id id a b = op_ne a b ∧
   op_gt_conv id id a b = op_gt a b ∧ op_le_conv id id a b = op_le a b) ∧
  (_ptr a = _ptr a' → _ptr b = _ptr b' →
     op_eq a b = op_eq a' b' ∧ op_ne a b = op_ne a' b' ∧
     op_gt a b = op_gt a' b' ∧ op_le a b = op_le a' b') ∧
  (op_eq a b = true ↔ _ptr a = _ptr b) ∧
  (op_lt a b = false → op_lt b a = false → op_eq a b = true) ∧
  op_ne a b = negb (op_eq a b) ∧
  op_gt a b = op_lt b a ∧
  op_le a b = negb (op_lt b a).
Proof.
  assert (Hgt : ∀ x y, op_gt x y = op_lt y x).
  { intros x y. unfold op_gt, op_lt, op_eq.
    repeat case_bool_decide; simpl; try done; lia. }
  split_and!.
  - intros Ea Eb. unfold op_le_conv, op_gt_conv, op_ne_conv, op_ge.
    unfold op_lt, op_eq_conv. by rewrite Ea, Eb.
  - apply op_eq_conv_spec.
  - done.
  - done.
  - apply op_lt_false. lia.
  - rewrite op_lt_spec, op_lt_false. lia.
  - rewrite !op_lt_spec. lia.
  - rewrite !op_lt_false. lia.
  - apply op_eq_conv_id.
  - unfold op_ne_conv, op_ne. by rewrite op_eq_conv_id.
  - unfold op_gt_conv, op_gt. by rewrite op_eq_conv_id.
  - unfold op_le_conv, op_gt_conv, op_le, op_gt. by rewrite op_eq_conv_id.
  - intros Ea Eb. unfold op_le, op_ne. rewrite !Hgt.
    unfold op_lt, op_eq. by rewrite Ea, Eb.
  - apply op_eq_spec.
  - rewrite !op_lt_false, op_eq_spec. lia.
  - done.
  - apply Hgt.
  - unfold op_le. by rewrite Hgt.
Qed.

Lemma comparisons_by_reference_witness :
  op_eq_conv to_second_base id
    (mk_linked_ptr 16 (mk_base 1 1)) (mk_linked_ptr 32 (mk_base 3 3)) =
  op_eq_conv to_second_base id
    (mk_linked_ptr 16 (mk_base 2 2)) (mk_linked_ptr 32 (mk_base 2 3)) ∧
  op_lt (mk_linked_ptr 16 (mk_base 1 1)) (mk_linked_ptr 32 (mk_base 3 3)) =
    op_lt (mk_linked_ptr 16 (mk_base 2 2)) (mk_linked_ptr 32 (mk_base 2 3)) ∧
  op_eq (mk_linked_ptr 16 (mk_base 1 1)) (mk_linked_ptr 32 (mk_base 3 3)) =
    op_eq (mk_linked_ptr 16 (mk_base 2 2)) (mk_linked_ptr 32 (mk_base 2 3)) ∧
  op_lt (mk_linked_ptr 16 (mk_base 1 1)) (mk_linked_ptr 48 (mk_base 4 4)) = true ∧
  op_lt (mk_linked_ptr 32 (mk_base 3 3)) (mk_linked_ptr 16 (mk_base 1 1)) = false.
Proof.
  destruct (comparisons_by_reference to_second_base id
              (mk_linked_ptr 16 (mk_base 1 1)) (mk_linked_ptr 32 (mk_base 3 3))
              (mk_linked_ptr 48 (mk_base 4 4))
              (mk_linked_ptr 16 (mk_base 2 2)) (mk_linked_ptr 32 (mk_base 2 3)))
    as (Hsame & _ & _ & _ & _ & Hasym & Htrans & _ & _ & Hone & _).
  destruct Hsame as (He & _ & Hl & _); [reflexivity..|].
  destruct Hone as (He1 & _); [reflexivity..|].
  split_and!;
    [exact He|exact Hl|exact He1|apply Htrans; reflexivity
    |apply Hasym; reflexivity].
Defined.

(** Claim C7 as the specification states it fails between handles of
    different types.  For a handle to an object and a handle to its
    second base subobject [==] holds although the two addresses differ,
    and [<] holds as well: [>=] is false of two handles that are [==],
    and [>] in the other order is false although [<] holds. *)
Lemma comparisons_across_types :
  ¬ (op_eq_conv to_second_base id ex_derived ex_second_base = true ↔
     _ptr ex_derived = _ptr ex_second_base) ∧
  op_eq_conv to_second_base id ex_derived ex_second_base = true ∧
  op_lt ex_derived ex_second_base = true ∧
  op_ge ex_derived ex_second_base = false ∧
  op_gt_conv id to_second_base ex_second_base ex_derived = false ∧
  op_le_conv id to_second_base ex_second_base ex_derived = true.
Proof.
  split_and!; try reflexivity.
  intros [H _]. specialize (H eq_refl). discriminate H.
Qed.

End comparisons.

(** ** Releasing an intact ring *)

Section release_once.
Implicit Types (σ : state) (x y z this : loc) (p q : ptr) (rest ls order : list loc).

Lemma owns_perm σ ls ls' p : ls ≡ₚ ls' → owns σ ls p → owns σ ls' p.
Proof. unfold owns. by intros ->. Qed.

(** [reset()] on any member of an intact ring: the last member releases
    the resource, every other member only leaves the ring. *)
Lemma reset_member σ ls x p :
  ring σ ls → owns σ ls p → x ∈ ls →
  ∃ σ', reset x σ = Done () σ' ∧
    singleton σ' x ∧ rsrc σ' x = Some nullptr ∧
    (∀ u, u ∉ ls →
       lft σ' u = lft σ u ∧ rgt σ' u = rgt σ u ∧ rsrc σ' u = rsrc σ u) ∧
    ((ls = [x] ∧
      deleted σ' = if decide (p = nullptr) then deleted σ else deleted σ ++ [p]) ∨
     (∃ rest, x :: rest ≡ₚ ls ∧ rest ≠ [] ∧
              ring σ' rest ∧ owns σ' rest p ∧ deleted σ' = deleted σ)).
Proof.
  intros Hring Hown Hx.
  destruct (ring_at_member _ _ _ Hring Hx) as (l1 & l2 & -> & Hring').
  assert (Hperm : x :: l2 ++ l1 ≡ₚ l1 ++ x :: l2).
  { rewrite (Permutation_app_comm l1 (x :: l2)). done. }
  assert (Hown' : owns σ (x :: l2 ++ l1) p) by (by eapply owns_perm).
  assert (Hpx : rsrc σ x = Some p) by (by apply Forall_cons in Hown' as [? _]).
  assert (Lx : live σ x) by eauto with heap_db.
  rewrite reset_is_reset_to.
  destruct (l2 ++ l1) as [|y ys] eqn:E.
  - apply app_eq_nil in E as [-> ->]. simpl in *.
    apply ring_singleton in Hring'.
    exists (st_set_ptr x nullptr (st_delete p σ)). split_and!.
    + by apply reset_to_unique.
    + destruct Hring'. split; by observe.
    + observe. split_addr.
    + intros u Hu. observe. split_and!; split_addr; set_solver.
    + left. split; [done|]. by observe.
  - destruct (reset_to_ring _ _ _ _ nullptr Hring')
      as (w & Hw & Hl & Hr & Hreset & Hring'' & Hsing).
    assert (Hwin : w ∈ y :: ys) by (by apply last_Some_elem_of).
    assert (Hnd : x ∉ y :: ys)
      by (apply ring_NoDup, NoDup_cons in Hring' as [? _]; done).
    assert (Lw : live σ w) by (eapply ring_live; [exact Hring'|set_solver]).
    assert (Ly : live σ y) by (eapply ring_live; [exact Hring'|set_solver]).
    exists (st_set_ptr x nullptr (erased x w y σ)). split_and!; try done.
    + unfold erased. observe. split_addr.
    + intros u Hu.
      assert (u ∉ x :: y :: ys) by (by rewrite Hperm).
      unfold erased. observe. split_and!; split_addr; set_solver.
    + right. exists (y :: ys). split_and!; try done.
      unfold owns in *. rewrite Forall_forall in *. intros u Hu.
      unfold erased. observe. split_addr. apply Hown'. set_solver.
Qed.

(** Resetting all members of an intact ring but one, in any order,
    deletes nothing and leaves the last one alone with the resource. *)
Lemma reset_all_but_one order : ∀ σ ls z p,
  ring σ ls → owns σ ls p → order ++ [z] ≡ₚ ls →
  ∃ σ1, reset_all order σ = Done () σ1 ∧
    deleted σ1 = deleted σ ∧ ring σ1 [z] ∧ rsrc σ1 z = Some p.
Proof.
  induction order as [|x order IH]; intros σ ls z p Hring Hown Hperm.
  - simpl in Hperm. symmetry in Hperm. apply Permutation_singleton_r in Hperm as ->.
    exists σ. split_and!; try done. by apply Forall_cons in Hown as [? _].
  - assert (Hx : x ∈ ls) by (rewrite <- Hperm; set_solver).
    destruct (reset_member _ _ _ _ Hring Hown Hx)
      as (σ1 & Hrun & _ & _ & _ & [[-> _]|(rest & Hp' & _ & Hring1 & Hown1 & Hdel)]).
    + apply Permutation_length in Hperm. simpl in Hperm.
      rewrite length_app in Hperm. simpl in Hperm. lia.
    + assert (Hrest : order ++ [z] ≡ₚ rest).
      { apply (Permutation_cons_inv (a := x)). simpl in Hperm. by rewrite Hperm, Hp'. }
      destruct (IH _ _ _ _ Hring1 Hown1 Hrest) as (σ2 & Hrun2 & Hdel2 & Hring2 & Hz).
      exists σ2. split_and!; try done; [|congruence].
      simpl. by rewrite (bind_done _ _ _ _ _ Hrun).
Qed.

(** Resetting all members of an intact ring, in any order, runs [delete]
    once on its resource (not at all when it is null), and every member
    ends empty and alone. *)
Lemma reset_all_any_order order : ∀ σ ls p,
  ring σ ls → owns σ ls p → order ≡ₚ ls →
  ∃ σ', reset_all order σ = Done () σ' ∧
    deleted σ' = (if decide (p = nullptr) then deleted σ else deleted σ ++ [p]) ∧
    (∀ u, u ∉ ls →
       lft σ' u = lft σ u ∧ rgt σ' u = rgt σ u ∧ rsrc σ' u = rsrc σ u) ∧
    Forall (λ x, singleton σ' x ∧ rsrc σ' x = Some nullptr) order.
Proof.
  induction order as [|x order IH]; intros σ ls p Hring Hown Hperm.
  - symmetry in Hperm. apply Permutation_nil_r in Hperm as ->. done.
  - assert (Hx : x ∈ ls) by (rewrite <- Hperm; set_solver).
    destruct (reset_member _ _ _ _ Hring Hown Hx)
      as (σ1 & Hrun & Hs1 & Hp1 & Hframe
          & [[-> Hdel]|(rest & Hp' & _ & Hring1 & Hown1 & Hdel)]).
    + apply Permutation_singleton_r in Hperm. injection Hperm as ->.
      exists σ1. split_and!; try done.
      * simpl. by rewrite (bind_done _ _ _ _ _ Hrun).
      * by apply Forall_singleton.
    + assert (Hrest : order ≡ₚ rest).
      { apply (Permutation_cons_inv (a := x)). by rewrite Hperm, Hp'. }
      assert (Hnd : x ∉ rest).
      { assert (Hnd' : NoDup (x :: rest)) by (rewrite Hp'; by eapply ring_NoDup).
        by apply NoDup_cons in Hnd' as [? _]. }
      destruct (IH _ _ _ Hring1 Hown1 Hrest) as (σ2 & Hrun2 & Hdel2 & Hframe2 & Hall).
      destruct (Hframe2 x Hnd) as (Ex1 & Ex2 & Ex3).
      exists σ2. split_and!.
      * simpl. by rewrite (bind_done _ _ _ _ _ Hrun).
      * by rewrite Hdel2, Hdel.
      * intros u Hu.
        assert (u ∉ rest) by (intros ?; apply Hu; rewrite <- Hp'; set_solver).
        destruct (Hframe2 u) as (-> & -> & ->); [done|]. by apply Hframe.
      * apply Forall_cons. split; [|done].
        destruct Hs1. unfold singleton. rewrite Ex1, Ex2, Ex3. done.
Qed.

End release_once.

(** ** Swap *)

Section swapping.
Implicit Types (σ : state) (x y a b : loc) (p q : ptr) (xs ys : list loc).

Lemma std_swap_right_ok σ a b ra rb :
  rgt σ a = Some ra → rgt σ b = Some rb →
  details.std_swap_right a b σ = Done () (st_set_right b ra (st_set_right a rb σ)).
Proof.
  intros Ha Hb. unfold details.std_swap_right.
  rewrite (bind_done _ _ _ _ _ (get_right_ok _ _ _ Ha)).
  rewrite (bind_done _ _ _ _ _ (get_right_ok _ _ _ Hb)).
  step. step. done.
Qed.

Lemma std_swap_left_ok σ a b la lb :
  lft σ a = Some la → lft σ b = Some lb →
  details.std_swap_left a b σ = Done () (st_set_left b la (st_set_left a lb σ)).
Proof.
  intros Ha Hb. unfold details.std_swap_left.
  rewrite (bind_done _ _ _ _ _ (get_left_ok _ _ _ Ha)).
  rewrite (bind_done _ _ _ _ _ (get_left_ok _ _ _ Hb)).
  step. step. done.
Qed.

Lemma std_swap_ptr_ok σ a b p q :
  rsrc σ a = Some p → rsrc σ b = Some q →
  std_swap_ptr a b σ = Done () (st_set_ptr b p (st_set_ptr a q σ)).
Proof.
  intros Ha Hb. unfold std_swap_ptr.
  rewrite (bind_done _ _ _ _ _ (get_ptr_ok _ _ _ Ha)).
  rewrite (bind_done _ _ _ _ _ (get_ptr_ok _ _ _ Hb)).
  step. step. done.
Qed.

Lemma repoint_neighbours_ok σ x l r :
  lft σ x = Some l → rgt σ x = Some r → l ≠ x → live σ l → live σ r →
  details.repoint_neighbours x σ = Done () (st_set_left r x (st_set_right l x σ)).
Proof.
  intros Hl Hr Hne Ll Lr. unfold details.repoint_neighbours.
  rewrite (bind_done _ _ _ _ _ (get_left_ok _ _ _ Hl)).
  step. step. step. done.
Qed.

(** [linked_ptr_base::swap] on two nodes that both have neighbours, none
    of the two a neighbour of the other. *)
Lemma swap_nodes_ok σ a b la ra lb rb :
  lft σ a = Some la → rgt σ a = Some ra →
  lft σ b = Some lb → rgt σ b = Some rb →
  live σ la → live σ ra → live σ lb → live σ rb →
  a ≠ b → la ≠ a → lb ≠ b → rb ≠ b → lb ≠ a → la ≠ b →
  details.swap a b σ = Done () (swapped a b la ra lb rb σ).
Proof.
  intros Hla Hra Hlb Hrb Lla Lra Llb Lrb Hab H1 H2 H3 H4 H5.
  assert (La : live σ a) by eauto with heap_db.
  assert (Lb : live σ b) by eauto with heap_db.
  unfold details.swap.
  rewrite (bind_done _ _ _ _ _ (unique_ok _ _ _ _ Hla Hra)).
  rewrite bool_decide_eq_false_2 by (intros [? _]; done).
  unfold ret at 1. unfold bind at 1.
  rewrite (bind_done _ _ _ _ _ (std_swap_right_ok _ _ _ _ _ Hra Hrb)).
  erewrite (bind_done (details.std_swap_left _ _)); cycle 1.
  { apply (std_swap_left_ok _ _ _ la lb); by observe. }
  erewrite (bind_done (details.unique _)); cycle 1.
  { apply (unique_ok _ _ lb rb); observe; split_addr. }
  rewrite bool_decide_eq_false_2 by (intros [? _]; done). cbn [negb].
  erewrite (bind_done (details.repoint_neighbours _)); cycle 1.
  { apply (repoint_neighbours_ok _ _ lb rb); try done.
    - observe. split_addr.
    - observe. split_addr.
    - eauto 10 with heap_db.
    - eauto 10 with heap_db. }
  erewrite (bind_done (details.unique _)); cycle 1.
  { apply (unique_ok _ _ la ra); observe; split_addr. }
  rewrite bool_decide_eq_false_2 by (intros [? _]; done). cbn [negb].
  rewrite (repoint_neighbours_ok _ _ la ra); try done.
  - observe. split_addr.
  - observe. split_addr.
  - eauto 15 with heap_db.
  - eauto 15 with heap_db.
Qed.

Lemma lft_swapped σ a b la ra lb rb u :
  live σ a → live σ b → live σ ra → live σ rb →
  lft (swapped a b la ra lb rb σ) u =
  if decide (ra = u) then Some b else
  if decide (rb = u) then Some a else
  if decide (b = u) then Some la else
  if decide (a = u) then Some lb else lft σ u.
Proof. intros. unfold swapped. by observe. Qed.

Lemma rgt_swapped σ a b la ra lb rb u :
  live σ a → live σ b → live σ la → live σ lb →
  rgt (swapped a b la ra lb rb σ) u =
  if decide (la = u) then Some b else
  if decide (lb = u) then Some a else
  if decide (b = u) then Some ra else
  if decide (a = u) then Some rb else rgt σ u.
Proof. intros. unfold swapped. by observe. Qed.

Lemma rsrc_swapped σ a b la ra lb rb u :
  rsrc (swapped a b la ra lb rb σ) u = rsrc σ u.
Proof. unfold swapped. by observe. Qed.

Lemma live_swapped σ a b la ra lb rb u :
  live σ u → live (swapped a b la ra lb rb σ) u.
Proof. intros. unfold swapped. eauto 15 with heap_db. Qed.

(** After the node swap, [b] stands where [a] stood in front of the
    nodes [x1 :: xs], provided none of them is a node of the other ring. *)
Lemma swapped_ring_left σ a b x1 xs wa lb rb :
  ring σ (a :: x1 :: xs) → last (x1 :: xs) = Some wa →
  live σ b → live σ lb → live σ rb → lb ≠ b → rb ≠ b →
  b ∉ a :: x1 :: xs → lb ∉ a :: x1 :: xs → rb ∉ a :: x1 :: xs →
  ring (swapped a b wa x1 lb rb σ) (b :: x1 :: xs).
Proof.
  intros Hring Hwa Lb Llb Lrb Hlbb Hrbb Hb Hlb Hrb.
  destruct (ring_head_links _ _ _ _ Hring)
    as (wa' & Hwa' & Hla & Hra & Hlx1 & Hrwa & Hax1 & Hawa).
  assert (wa' = wa) as -> by congruence.
  assert (Hwain : wa ∈ x1 :: xs) by (by apply last_Some_elem_of).
  pose proof (ring_NoDup _ _ Hring) as Hnd.
  apply NoDup_cons in Hnd as [HaA Hnd].
  assert (La : live σ a) by eauto with heap_db.
  assert (Lwa : live σ wa) by eauto with heap_db.
  assert (Lx1 : live σ x1) by eauto with heap_db.
  apply ring_inner in Hring as (_ & Hin & _).
  change (inner σ (a :: x1 :: xs)) with
    (rgt σ a = Some x1 ∧ lft σ x1 = Some a ∧ inner σ (x1 :: xs)) in Hin.
  destruct Hin as (_ & _ & Hin).
  rewrite !not_elem_of_cons in Hb, Hlb, Hrb.
  destruct Hb as (Hb1 & Hb2 & Hb3), Hlb as (Hlb1 & Hlb2 & Hlb3),
    Hrb as (Hrb1 & Hrb2 & Hrb3).
  assert (Hbx : b ∉ x1 :: xs) by (rewrite not_elem_of_cons; done).
  assert (Hlbx : lb ∉ x1 :: xs) by (rewrite not_elem_of_cons; done).
  assert (Hrbx : rb ∉ x1 :: xs) by (rewrite not_elem_of_cons; done).
  assert (Hbwa : wa ≠ b) by (intros ->; done).
  assert (Hlbwa : lb ≠ wa) by (intros ->; done).
  apply ring_inner. split_and!.
  - apply NoDup_cons. done.
  - change (rgt (swapped a b wa x1 lb rb σ) b = Some x1 ∧
            lft (swapped a b wa x1 lb rb σ) x1 = Some b ∧
            inner (swapped a b wa x1 lb rb σ) (x1 :: xs)).
    split_and!.
    + rewrite rgt_swapped by done.
      rewrite (decide_False (P := wa = b)) by done.
      rewrite (decide_False (P := lb = b)) by done.
      by rewrite decide_True.
    + rewrite lft_swapped by done. by rewrite decide_True.
    + eapply inner_frame; [done..| | |done].
      * intros u Hu Hne. rewrite rgt_swapped by done.
        rewrite (decide_False (P := wa = u)) by done.
        rewrite (decide_False (P := lb = u)) by (intros <-; done).
        rewrite (decide_False (P := b = u)) by (intros <-; done).
        rewrite (decide_False (P := a = u)) by (intros <-; done). done.
      * intros u Hu Hne. rewrite lft_swapped by done.
        rewrite (decide_False (P := x1 = u)) by (intros <-; done).
        rewrite (decide_False (P := rb = u)) by (intros <-; done).
        rewrite (decide_False (P := b = u)) by (intros <-; done).
        rewrite (decide_False (P := a = u)) by (intros <-; done). done.
  - exists wa. rewrite last_cons_cons. split_and!; [done| |].
    + rewrite rgt_swapped by done. by rewrite decide_True.
    + rewrite lft_swapped by done.
      rewrite (decide_False (P := x1 = b)) by (intros ->; done).
      rewrite (decide_False (P := rb = b)) by done.
      by rewrite decide_True.
Qed.

(** And [a] stands where [b] stood in front of the nodes [y1 :: ys]. *)
Lemma swapped_ring_right σ a b y1 ys wb la ra :
  ring σ (b :: y1 :: ys) → last (y1 :: ys) = Some wb →
  live σ a → live σ la → live σ ra → la ≠ a → ra ≠ a →
  a ∉ b :: y1 :: ys → la ∉ b :: y1 :: ys → ra ∉ b :: y1 :: ys →
  ring (swapped a b la ra wb y1 σ) (a :: y1 :: ys).
Proof.
  intros Hring Hwb La Lla Lra Hlaa Hraa Ha Hla Hra.
  destruct (ring_head_links _ _ _ _ Hring)
    as (wb' & Hwb' & Hlb & Hrb & Hly1 & Hrwb & Hby1 & Hbwb).
  assert (wb' = wb) as -> by congruence.
  assert (Hwbin : wb ∈ y1 :: ys) by (by apply last_Some_elem_of).
  pose proof (ring_NoDup _ _ Hring) as Hnd.
  apply NoDup_cons in Hnd as [HbB Hnd].
  assert (Lb : live σ b) by eauto with heap_db.
  assert (Lwb : live σ wb) by eauto with heap_db.
  assert (Ly1 : live σ y1) by eauto with heap_db.
  apply ring_inner in Hring as (_ & Hin & _).
  change (inner σ (b :: y1 :: ys)) with
    (rgt σ b = Some y1 ∧ lft σ y1 = Some b ∧ inner σ (y1 :: ys)) in Hin.
  destruct Hin as (_ & _ & Hin).
  rewrite !not_elem_of_cons in Ha, Hla, Hra.
  destruct Ha as (Ha1 & Ha2 & Ha3), Hla as (Hla1 & Hla2 & Hla3),
    Hra as (Hra1 & Hra2 & Hra3).
  assert (Hay : a ∉ y1 :: ys) by (rewrite not_elem_of_cons; done).
  assert (Hlay : la ∉ y1 :: ys) by (rewrite not_elem_of_cons; done).
  assert (Hray : ra ∉ y1 :: ys) by (rewrite not_elem_of_cons; done).
  assert (Hawb : wb ≠ a) by (intros ->; done).
  assert (Hlawb : la ≠ wb) by (intros ->; done).
  apply ring_inner. split_and!.
  - apply NoDup_cons. done.
  - change (rgt (swapped a b la ra wb y1 σ) a = Some y1 ∧
            lft (swapped a b la ra wb y1 σ) y1 = Some a ∧
            inner (swapped a b la ra wb y1 σ) (y1 :: ys)).
    split_and!.
    + rewrite rgt_swapped by done.
      rewrite (decide_False (P := la = a)) by done.
      rewrite (decide_False (P := wb = a)) by done.
      rewrite (decide_False (P := b = a)) by done.
      by rewrite decide_True.
    + rewrite lft_swapped by done.
      rewrite (decide_False (P := ra = y1)) by done.
      by rewrite decide_True.
    + eapply inner_frame; [done..| | |done].
      * intros u Hu Hne. rewrite rgt_swapped by done.
        rewrite (decide_False (P := la = u)) by (intros <-; done).
        rewrite (decide_False (P := wb = u)) by done.
        rewrite (decide_False (P := b = u)) by (intros <-; done).
        rewrite (decide_False (P := a = u)) by (intros <-; done). done.
      * intros u Hu Hne. rewrite lft_swapped by done.
        rewrite (decide_False (P := ra = u)) by (intros <-; done).
        rewrite (decide_False (P := y1 = u)) by (intros <-; done).
        rewrite (decide_False (P := b = u)) by (intros <-; done).
        rewrite (decide_False (P := a = u)) by (intros <-; done). done.
  - exists wb. rewrite last_cons_cons. split_and!; [done| |].
    + rewrite rgt_swapped by done.
      rewrite (decide_False (P := la = wb)) by done.
      by rewrite decide_True.
    + rewrite lft_swapped by done.
      rewrite (decide_False (P := ra = a)) by done.
      rewrite (decide_False (P := y1 = a)) by (intros ->; done).
      rewrite (decide_False (P := b = a)) by done.
      by rewrite decide_True.
Qed.

(** Two handles with neighbours, in rings without a common member and
    with different resources: [swap] makes each take the place of the
    other, and nothing else moves. *)
Lemma swap_shared_rings σ a b x1 xs y1 ys p q :
  ring σ (a :: x1 :: xs) → ring σ (b :: y1 :: ys) →
  (∀ u, u ∈ a :: x1 :: xs → u ∉ b :: y1 :: ys) →
  owns σ (a :: x1 :: xs) p → owns σ (b :: y1 :: ys) q → p ≠ q →
  ∃ σ', swap a b σ = Done () σ' ∧
    ring σ' (b :: x1 :: xs) ∧ ring σ' (a :: y1 :: ys) ∧
    owns σ' (b :: x1 :: xs) p ∧ owns σ' (a :: y1 :: ys) q ∧
    deleted σ' = deleted σ ∧
    (∀ u, u ∉ a :: x1 :: xs → u ∉ b :: y1 :: ys →
       lft σ' u = lft σ u ∧ rgt σ' u = rgt σ u ∧ rsrc σ' u = rsrc σ u).
Proof.
  intros HringA HringB Hdisj HownA HownB Hpq.
  destruct (ring_head_links _ _ _ _ HringA)
    as (wa & Hwa & Hla & Hra & Hlx1 & Hrwa & Hax1 & Hawa).
  destruct (ring_head_links _ _ _ _ HringB)
    as (wb & Hwb & Hlb & Hrb & Hly1 & Hrwb & Hby1 & Hbwb).
  assert (Hwain : wa ∈ a :: x1 :: xs)
    by (apply elem_of_cons; right; by apply last_Some_elem_of).
  assert (Hwbin : wb ∈ b :: y1 :: ys)
    by (apply elem_of_cons; right; by apply last_Some_elem_of).
  assert (Hain : a ∈ a :: x1 :: xs) by (apply elem_of_cons; by left).
  assert (Hbin : b ∈ b :: y1 :: ys) by (apply elem_of_cons; by left).
  assert (Hx1in : x1 ∈ a :: x1 :: xs)
    by (apply elem_of_cons; right; apply elem_of_cons; by left).
  assert (Hy1in : y1 ∈ b :: y1 :: ys)
    by (apply elem_of_cons; right; apply elem_of_cons; by left).
  assert (Hdisj' : ∀ u, u ∈ b :: y1 :: ys → u ∉ a :: x1 :: xs)
    by (intros u Hu Hu'; by apply (Hdisj u)).
  assert (Hab : a ≠ b) by (intros ->; by apply (Hdisj b)).
  assert (La : live σ a) by eauto with heap_db.
  assert (Lb : live σ b) by eauto with heap_db.
  assert (Lwa : live σ wa) by eauto with heap_db.
  assert (Lwb : live σ wb) by eauto with heap_db.
  assert (Lx1 : live σ x1) by eauto with heap_db.
  assert (Ly1 : live σ y1) by eauto with heap_db.
  assert (Hpa : rsrc σ a = Some p) by (by apply Forall_cons in HownA as [? _]).
  assert (Hqb : rsrc σ b = Some q) by (by apply Forall_cons in HownB as [? _]).
  set (σs := swapped a b wa x1 wb y1 σ).
  assert (Hnodes : details.swap a b σ = Done () σs).
  { apply swap_nodes_ok;
      first [ done | by apply not_eq_sym
            | intros ->; by apply (Hdisj a) | intros ->; by apply (Hdisj b) ]. }
  assert (HringA' : ring σs (b :: x1 :: xs)).
  { apply swapped_ring_left; try done; try (by apply not_eq_sym); by apply Hdisj'. }
  assert (HringB' : ring σs (a :: y1 :: ys)).
  { apply swapped_ring_right; try done; try (by apply not_eq_sym); by apply Hdisj. }
  assert (Lsa : live σs a) by (by apply live_swapped).
  assert (Lsb : live σs b) by (by apply live_swapped).
  exists (st_set_ptr b p (st_set_ptr a q σs)). split_and!.
  - unfold swap.
    rewrite (bind_done _ _ _ _ _ (get_ptr_ok _ _ _ Hpa)).
    rewrite (bind_done _ _ _ _ _ (get_ptr_ok _ _ _ Hqb)).
    rewrite bool_decide_eq_false_2 by done.
    rewrite (bind_done _ _ _ _ _ Hnodes).
    apply std_swap_ptr_ok; unfold σs; by rewrite rsrc_swapped.
  - eapply ring_frame; [|exact HringA']. intros u _.
    by rewrite !lft_set_ptr, !rgt_set_ptr.
  - eapply ring_frame; [|exact HringB']. intros u _.
    by rewrite !lft_set_ptr, !rgt_set_ptr.
  - unfold owns in *. rewrite Forall_forall in *. intros u Hu.
    rewrite rsrc_set_ptr by eauto with heap_db.
    apply elem_of_cons in Hu as [->|Hu]; [by rewrite decide_True|].
    assert (HuA : u ∈ a :: x1 :: xs) by (apply elem_of_cons; by right).
    rewrite decide_False by (intros <-; by apply (Hdisj b)).
    rewrite rsrc_set_ptr by done.
    rewrite decide_False
      by (intros <-; apply ring_NoDup, NoDup_cons in HringA as [? _]; done).
    unfold σs. rewrite rsrc_swapped. by apply HownA.
  - unfold owns in *. rewrite Forall_forall in *. intros u Hu.
    rewrite rsrc_set_ptr by eauto with heap_db.
    apply elem_of_cons in Hu as [->|Hu].
    { rewrite decide_False by (by apply not_eq_sym).
      rewrite rsrc_set_ptr by done. by rewrite decide_True. }
    assert (HuB : u ∈ b :: y1 :: ys) by (apply elem_of_cons; by right).
    rewrite decide_False
      by (intros <-; apply ring_NoDup, NoDup_cons in HringB as [? _]; done).
    rewrite rsrc_set_ptr by done.
    rewrite decide_False by (intros <-; by apply (Hdisj a)).
    unfold σs. rewrite rsrc_swapped. by apply HownB.
  - done.
  - intros u HuA HuB.
    rewrite !lft_set_ptr, !rgt_set_ptr.
    rewrite !rsrc_set_ptr by eauto with heap_db.
    unfold σs. rewrite lft_swapped, rgt_swapped, rsrc_swapped by done.
    rewrite (decide_False (P := x1 = u)) by (intros <-; done).
    rewrite (decide_False (P := y1 = u)) by (intros <-; done).
    rewrite (decide_False (P := wa = u)) by (intros <-; done).
    rewrite (decide_False (P := wb = u)) by (intros <-; done).
    rewrite !(decide_False (P := b = u)) by (intros <-; done).
    rewrite !(decide_False (P := a = u)) by (intros <-; done).
    done.
Qed.

(** Two handles that are both alone: the ring part of [swap] does
    nothing and the resource references are exchanged. *)
Lemma swap_sole_owners σ a b p q :
  singleton σ a → singleton σ b → rsrc σ a = Some p → rsrc σ b = Some q → p ≠ q →
  swap a b σ = Done () (st_set_ptr b p (st_set_ptr a q σ)) ∧
  details.swap a b σ = Done () σ.
Proof.
  intros Ha Hb Hp Hq Hpq.
  assert (Hnodes : details.swap a b σ = Done () σ).
  { unfold details.swap.
    rewrite (bind_done _ _ _ _ _ (unique_singleton _ _ Ha)).
    by rewrite (bind_done _ _ _ _ _ (unique_singleton _ _ Hb)). }
  split; [|done]. unfold swap.
  rewrite (bind_done _ _ _ _ _ (get_ptr_ok _ _ _ Hp)).
  rewrite (bind_done _ _ _ _ _ (get_ptr_ok _ _ _ Hq)).
  rewrite bool_decide_eq_false_2 by done.
  rewrite (bind_done _ _ _ _ _ Hnodes).
  by apply std_swap_ptr_ok.
Qed.

(** Two handles with the same resource reference: [swap] does nothing. *)
Lemma swap_same_reference σ a b p :
  rsrc σ a = Some p → rsrc σ b = Some p → swap a b σ = Done () σ.
Proof.
  intros Hp Hq. unfold swap.
  rewrite (bind_done _ _ _ _ _ (get_ptr_ok _ _ _ Hp)).
  rewrite (bind_done _ _ _ _ _ (get_ptr_ok _ _ _ Hq)).
  by rewrite bool_decide_eq_true_2.
Qed.

End swapping.

(** ** Where the code departs from its design *)

Section departures.

(** Claim C2, on the code.  [swap] between a handle that is alone and a
    handle that shares its ring exchanges the two resource references,
    but not the ring memberships: handle 1 should take the place of
    handle 2 next to handle 3 and handle 2 should end alone; instead the
    handles 1 and 2 point at each other, and handle 3 points at a handle
    that does not point back. *)
Theorem swap_sole_owner_with_sharer :
  (ctor_raw 1 100;; ctor_raw 2 200;; ctor_copy 3 2) ex_empty = Done () ex_mixed ∧
  ring ex_mixed [1%positive] ∧ ring ex_mixed [2%positive; 3%positive] ∧
  swap 1 2 ex_mixed = Done () ex_mixed_swapped ∧
  rsrc ex_mixed_swapped 1 = Some 200 ∧ rsrc ex_mixed_swapped 2 = Some 100 ∧
  ¬ ring ex_mixed_swapped [1%positive; 3%positive] ∧
  ¬ ring ex_mixed_swapped [2%positive] ∧
  rgt ex_mixed_swapped 3 = Some 1%positive ∧
  lft ex_mixed_swapped 1 = Some 2%positive ∧
  rgt ex_mixed_swapped 1 = Some 2%positive.
Proof.
  split_and!; try (vm_compute; reflexivity);
    apply (bool_decide_unpack _); vm_compute; exact I.
Qed.

(** Claim C1, on the code.  After such a swap the resources are no
    longer released once each.  At the end of a block with three handles
    and one swap, [delete] has run on 200 only, and the resource 100 is
    never released; with two swaps and the handles reset in another
    order, [delete] runs twice on 200 and never on 100 or 300. *)
Theorem swap_breaks_single_release :
  block_with_swap ex_empty = Done () (State ∅ [200]) ∧
  resets_after_swaps ex_empty = Done () ex_after_resets.
Proof. split; vm_compute; reflexivity. Qed.

(** Claim C5, on the code.  Assignment between two sole owners copies
    the three members of the right-hand side and does nothing else: the
    resource of the left-hand side is not released, the right-hand side
    stays alone in its ring, and the left-hand side is in no ring, its
    links pointing at a node that does not point back.  When the two
    objects are then destroyed, the second destructor reaches the first,
    dead, object. *)
Theorem assignment_copies_members :
  (ctor_raw 1 100;; ctor_raw 2 200) ex_empty = Done () ex_two_owners ∧
  unique 1 ex_two_owners = Done true ex_two_owners ∧
  ∃ σ', implicit_copy_assign 1 2 ex_two_owners = Done () σ' ∧
    deleted σ' = [] ∧
    rsrc σ' 1 = Some 200 ∧ rsrc σ' 2 = Some 200 ∧
    ring σ' [2%positive] ∧
    ¬ ring σ' [2%positive; 1%positive] ∧ ¬ ring σ' [1%positive] ∧
    lft σ' 1 = Some 2%positive ∧ rgt σ' 1 = Some 2%positive ∧
    (dtor 2;; dtor 1) σ' = Fault InvalidAccess.
Proof.
  split_and!; try (vm_compute; reflexivity).
  eexists. split; [vm_compute; reflexivity|].
  split_and!; try (vm_compute; reflexivity);
    apply (bool_decide_unpack _); vm_compute; exact I.
Qed.

End departures.
(** ** Invariants kept by the handle operations *)

Section invariants.
Implicit Types (σ : state) (x y this rhs : loc) (p q : ptr).

Lemma live_fields σ x :
  live σ x → ∃ l r p, lft σ x = Some l ∧ rgt σ x = Some r ∧ rsrc σ x = Some p.
Proof.
  unfold live, lft, rgt, rsrc. intros [c ->]. simpl. by eexists _, _, _.
Qed.

Lemma not_live_fields σ x :
  ¬ live σ x → lft σ x = None ∧ rgt σ x = None ∧ rsrc σ x = None.
Proof.
  unfold live, lft, rgt, rsrc. intros H.
  destruct (heap σ !! x) eqn:E; [|done]. destruct H. by eexists.
Qed.

Lemma linked_spec σ :
  linked σ ↔
  ∀ x y, (lft σ x = Some y → rgt σ y = Some x) ∧
         (rgt σ x = Some y → lft σ y = Some x).
Proof.
  unfold linked. rewrite map_Forall_lookup. split.
  - intros H x y. unfold lft at 1, rgt at 2.
    destruct (heap σ !! x) as [c|] eqn:E; simpl; [|done].
    destruct (H x c E) as [H1 H2]. split; intros [= <-]; done.
  - intros H x c E. split.
    + apply H. unfold lft. by rewrite E.
    + apply H. unfold rgt. by rewrite E.
Qed.

Lemma coherent_spec σ :
  coherent σ ↔ ∀ x y, rgt σ x = Some y → rsrc σ x = rsrc σ y.
Proof.
  unfold coherent. rewrite map_Forall_lookup. split.
  - intros H x y. unfold rgt, rsrc at 1.
    destruct (heap σ !! x) as [c|] eqn:E; simpl; [|done].
    intros [= <-]. by rewrite (H x c E).
  - intros H x c E. rewrite <- (H x).
    + unfold rsrc. by rewrite E.
    + unfold rgt. by rewrite E.
Qed.


(** Add the converse of every link at hand, and the equality of the
    resources of every pair of neighbours. *)
Ltac converse HL :=
  repeat match goal with
  | E : lft ?σ ?x = Some ?y |- _ =>
      lazymatch goal with
      | _ : rgt σ y = Some x |- _ => fail
      | _ => pose proof (proj1 (HL x y) E)
      end
  | E : rgt ?σ ?x = Some ?y |- _ =>
      lazymatch goal with
      | _ : lft σ y = Some x |- _ => fail
      | _ => pose proof (proj2 (HL x y) E)
      end
  end.

Ltac same_resource HC :=
  repeat match goal with
  | E : rgt ?σ ?x = Some ?y |- _ =>
      lazymatch goal with
      | _ : rsrc σ x = rsrc σ y |- _ => fail
      | _ => pose proof (HC x y E)
      end
  end.

(** [reset(q)] (and [reset()], which is [reset(nullptr)]) on a live
    handle of a linked state. *)
Lemma reset_to_linked σ this q :
  linked σ → live σ this →
  ∃ σ', reset_to this q σ = Done () σ' ∧ linked σ' ∧
    singleton σ' this ∧ rsrc σ' this = Some q ∧
    (∀ x, live σ' x ↔ live σ x) ∧
    (coherent σ → coherent σ').
Proof.
  intros HL Lthis. rewrite linked_spec in HL.
  destruct (live_fields _ _ Lthis) as (l & r & p & Hl & Hr & Hp).
  assert (Hrl : rgt σ l = Some this) by (by apply HL).
  assert (Hlr : lft σ r = Some this) by (by apply HL).
  assert (Ll : live σ l) by eauto with heap_db.
  assert (Lr : live σ r) by eauto with heap_db.
  destruct (decide (l = this ∧ r = this)) as [[-> ->]|Hne].
  - exists (st_set_ptr this q (st_delete p σ)). split_and!.
    + by apply reset_to_unique.
    + apply linked_spec. intros x y. observe. by apply HL.
    + split; by observe.
    + observe. split_addr.
    + intros x. unfold live, st_set_ptr, st_delete. case_bool_decide; simpl;
        by rewrite lookup_alter_is_Some.
    + rewrite !coherent_spec. intros HC x y. observe. intros E.
      pose proof (HC x y E). split_addr; converse HL; congruence.
  - exists (st_set_ptr this q (erased this l r σ)). split_and!.
    + by apply reset_to_shared.
    + apply linked_spec. intros x y. unfold erased. observe.
      split; intros E; split_addr; converse HL; try congruence.
      all: destruct Hne; split; congruence.
    + unfold erased. split; observe; split_addr.
    + unfold erased. observe. split_addr.
    + intros x. unfold live, st_set_ptr, erased, st_set_right, st_set_left. simpl.
      by rewrite !lookup_alter_is_Some.
    + rewrite !coherent_spec. intros HC x y. unfold erased. observe. intros E.
      split_addr; converse HL; same_resource HC; try congruence.
      all: try (destruct Hne; split; congruence).
Qed.


Lemma live_dealloc σ x y : x ≠ y → live σ y → live (st_dealloc x σ) y.
Proof.
  intros Hne. unfold live, st_dealloc. simpl. by rewrite lookup_delete_ne.
Qed.

Lemma not_live_dealloc σ x : ¬ live (st_dealloc x σ) x.
Proof.
  unfold live, st_dealloc. simpl. rewrite lookup_delete_eq. by intros [? ?].
Qed.

(** Construction from a raw reference (and default construction, which
    is construction from the null reference). *)
Lemma ctor_raw_linked σ this p :
  linked σ → ¬ live σ this →
  ∃ σ', ctor_raw this p σ = Done () σ' ∧ linked σ' ∧
    (coherent σ → coherent σ') ∧
    (∀ x, live σ' x ↔ x = this ∨ live σ x).
Proof.
  intros HL Hfresh. rewrite linked_spec in HL.
  destruct (not_live_fields _ _ Hfresh) as (Nl & Nr & Np).
  exists (st_alloc this (mk_linked_ptr p (mk_base this this)) σ). split_and!.
  - by apply alloc_ok.
  - apply linked_spec. intros x y. observe. simpl.
    split; intros E; split_addr; converse HL; congruence.
  - rewrite !coherent_spec. intros HC x y. observe. simpl. intros E.
    split_addr; converse HL; same_resource HC; congruence.
  - intros x. unfold live, st_alloc. simpl. rewrite lookup_insert.
    case_decide; [subst|]; split; eauto; intros [?|?]; done.
Qed.

Lemma ctor_copy_linked σ this rhs :
  linked σ → ¬ live σ this → live σ rhs →
  ∃ σ', ctor_copy this rhs σ = Done () σ' ∧ linked σ' ∧
    lft σ' this = Some rhs ∧ rgt σ' rhs = Some this ∧
    rsrc σ' this = rsrc σ rhs ∧
    deleted σ' = deleted σ ∧
    (coherent σ → coherent σ') ∧
    (∀ x, live σ' x ↔ x = this ∨ live σ x).
Proof.
  intros HL Hfresh Lrhs. rewrite linked_spec in HL.
  destruct (not_live_fields _ _ Hfresh) as (Nl & Nr & Np).
  destruct (live_fields _ _ Lrhs) as (l & r & p & Hl & Hr & Hp).
  assert (Hlr : lft σ r = Some rhs) by (by apply HL).
  assert (Lr : live σ r) by eauto with heap_db.
  assert (Hne : this ≠ rhs) by (intros ->; done).
  assert (Hner : this ≠ r) by (intros ->; done).
  set (σa := st_alloc this (mk_linked_ptr nullptr (mk_base this this)) σ).
  assert (La : ∀ x, live σ x → live σa x) by (intros; by apply live_alloc).
  assert (Lthis : live σa this) by apply live_alloc_eq.
  exists (st_set_ptr this p (inserted this rhs r σa)). split_and!.
  - by apply ctor_copy_ok.
  - apply linked_spec. intros x y. unfold inserted, σa. observe. simpl.
    split; intros E; split_addr; converse HL; congruence.
  - unfold inserted, σa. observe. split_addr.
  - unfold inserted, σa. observe. split_addr.
  - unfold inserted, σa. observe. split_addr.
  - done.
  - rewrite !coherent_spec. intros HC x y. unfold inserted, σa. observe. simpl.
    intros E. split_addr; converse HL; same_resource HC; congruence.
  - intros x. unfold live, st_set_ptr, inserted, st_set_right, st_set_left, σa,
      st_alloc. simpl. rewrite !lookup_alter_is_Some, lookup_insert.
    case_decide; [subst|]; split; eauto; intros [?|?]; done.
Qed.

(** The destructor of a live handle of a linked state: afterwards the
    object is gone and no link points at it. *)
Lemma dtor_linked σ this :
  linked σ → live σ this →
  ∃ σ', dtor this σ = Done () σ' ∧ linked σ' ∧ ¬ live σ' this ∧
    (∀ x, lft σ' x ≠ Some this ∧ rgt σ' x ≠ Some this) ∧
    (∀ x, live σ' x ↔ x ≠ this ∧ live σ x) ∧
    (coherent σ → coherent σ').
Proof.
  intros HL Lthis.
  destruct (reset_to_linked σ this nullptr HL Lthis)
    as (σ1 & Hreset & HL1 & [Hs1 Hs2] & Hp1 & Hlive1 & Hco1).
  rewrite linked_spec in HL1.
  assert (HL' : ∀ x y,
    (lft (st_dealloc this σ1) x = Some y → rgt (st_dealloc this σ1) y = Some x) ∧
    (rgt (st_dealloc this σ1) x = Some y → lft (st_dealloc this σ1) y = Some x)).
  { intros x y. observe.
    split; intros E; split_addr; converse HL1; congruence. }
  exists (st_dealloc this σ1). split_and!.
  - unfold dtor. rewrite reset_is_reset_to, (bind_done _ _ _ _ _ Hreset).
    apply dealloc_ok. by apply Hlive1.
  - by apply linked_spec.
  - apply not_live_dealloc.
  - intros x. split; intros E; apply HL' in E;
      apply rgt_live in E || apply lft_live in E; by apply not_live_dealloc in E.
  - intros x. unfold live, st_dealloc. simpl. rewrite lookup_delete_is_Some.
    rewrite <- (Hlive1 x). unfold live. split; intros [? ?]; split; done.
  - intros HC. specialize (Hco1 HC). rewrite coherent_spec in *.
    intros x y. observe. intros E.
    split_addr; converse HL1; same_resource Hco1; congruence.
Qed.


(** [swap] of two handles with different resources that are both alone,
    or both have neighbours. *)
Lemma swap_linked σ a b p q :
  linked σ → coherent σ →
  rsrc σ a = Some p → rsrc σ b = Some q → p ≠ q →
  (singleton σ a ↔ singleton σ b) →
  ∃ σ', swap a b σ = Done () σ' ∧ linked σ' ∧ coherent σ' ∧
    rsrc σ' a = Some q ∧ rsrc σ' b = Some p ∧
    deleted σ' = deleted σ ∧
    (∀ x, live σ' x ↔ live σ x).
Proof.
  intros HL HC Hp Hq Hpq Hboth.
  rewrite linked_spec in HL. rewrite coherent_spec in HC.
  assert (La : live σ a) by eauto with heap_db.
  assert (Lb : live σ b) by eauto with heap_db.
  assert (Hab : a ≠ b) by (intros ->; congruence).
  destruct (live_fields _ _ La) as (la & ra & p' & Hla & Hra & Hp').
  destruct (live_fields _ _ Lb) as (lb & rb & q' & Hlb & Hrb & Hq').
  clear p' q' Hp' Hq'.
  destruct (decide (singleton σ a)) as [Hsa|Hsa].
  - pose proof (proj1 Hboth Hsa) as Hsb.
    destruct (swap_sole_owners σ a b p q Hsa Hsb Hp Hq Hpq) as [Hrun _].
    destruct Hsa as [Hsa1 Hsa2], Hsb as [Hsb1 Hsb2].
    exists (st_set_ptr b p (st_set_ptr a q σ)). split_and!.
    + done.
    + apply linked_spec. intros x y. observe. apply HL.
    + apply coherent_spec. intros x y. observe. intros E.
      split_addr; converse HL; same_resource HC; congruence.
    + observe. split_addr.
    + observe. split_addr.
    + done.
    + intros x. unfold live, st_set_ptr. simpl. by rewrite !lookup_alter_is_Some.
  - assert (Hsb : ¬ singleton σ b) by (intros ?; by apply Hsa, Hboth).
    unfold singleton in Hsa, Hsb.
    converse HL.
    assert (la ≠ a) by (intros ->; apply Hsa; split; congruence).
    assert (lb ≠ b) by (intros ->; apply Hsb; split; congruence).
    assert (rb ≠ b) by (intros ->; apply Hsb; split; congruence).
    assert (ra ≠ a) by (intros ->; apply Hsa; split; congruence).
    same_resource HC.
    assert (lb ≠ a) by (intros ->; congruence).
    assert (la ≠ b) by (intros ->; congruence).
    assert (rb ≠ a) by (intros ->; congruence).
    assert (ra ≠ b) by (intros ->; congruence).
    assert (Lla : live σ la) by eauto with heap_db.
    assert (Lra : live σ ra) by eauto with heap_db.
    assert (Llb : live σ lb) by eauto with heap_db.
    assert (Lrb : live σ rb) by eauto with heap_db.
    set (σs := swapped a b la ra lb rb σ).
    assert (Hnodes : details.swap a b σ = Done () σs)
      by (by apply swap_nodes_ok).
    assert (Lsa : live σs a) by (by apply live_swapped).
    assert (Lsb : live σs b) by (by apply live_swapped).
    exists (st_set_ptr b p (st_set_ptr a q σs)). split_and!.
    + unfold swap.
      rewrite (bind_done _ _ _ _ _ (get_ptr_ok _ _ _ Hp)).
      rewrite (bind_done _ _ _ _ _ (get_ptr_ok _ _ _ Hq)).
      rewrite bool_decide_eq_false_2 by done.
      rewrite (bind_done _ _ _ _ _ Hnodes).
      apply std_swap_ptr_ok; unfold σs; by rewrite rsrc_swapped.
    + apply linked_spec. intros x y.
      rewrite !lft_set_ptr, !rgt_set_ptr. unfold σs.
      rewrite !lft_swapped, !rgt_swapped by done.
      split; intros E; split_addr; converse HL; congruence.
    + apply coherent_spec. intros x y.
      rewrite !rgt_set_ptr, !rsrc_set_ptr by eauto with heap_db.
      unfold σs. rewrite !rgt_swapped, !rsrc_swapped by done.
      intros E. split_addr; converse HL; same_resource HC; congruence.
    + observe. split_addr.
    + rewrite !rsrc_set_ptr by eauto with heap_db. unfold σs.
      rewrite rsrc_swapped. split_addr.
    + done.
    + intros x. unfold live, st_set_ptr, σs, swapped, st_set_left, st_set_right.
      simpl. by rewrite !lookup_alter_is_Some.
Qed.

End invariants.

(** ** Edge cases of the ring operations *)

Section edge_cases.
Implicit Types (σ : state) (x y this rhs a b : loc) (p q : ptr).

(** Property X6.  [erase()] on a node that is alone runs without fault
    and changes nothing. *)
Theorem erase_singleton σ this :
  singleton σ this → details.erase this σ = Done () σ.
Proof.
  intros [Hl Hr].
  assert (L : live σ this) by eauto with heap_db.
  rewrite (erase_ok _ _ _ _ Hl Hr L L). f_equal.
  apply state_ext; intros; unfold erased; observe; try done;
    split_addr; congruence.
Qed.

(** Property X8.  [insert_after] on a node that has a neighbour stops at
    its assertion, whatever the target is, before any link is written. *)
Theorem insert_after_linked_node σ this rhs l r :
  lft σ this = Some l → rgt σ this = Some r → ¬ (l = this ∧ r = this) →
  details.insert_after this rhs σ = Fault AssertionFailed.
Proof.
  intros Hl Hr Hne. unfold details.insert_after.
  rewrite (bind_done _ _ _ _ _ (unique_ok _ _ _ _ Hl Hr)).
  by rewrite bool_decide_eq_false_2.
Qed.

(** Property X14.  In a state whose links are all mutual, a second
    [reset()] right after the first changes nothing: it deletes nothing
    and moves no link. *)
Theorem reset_twice σ this :
  linked σ → live σ this →
  ∃ σ', reset this σ = Done () σ' ∧ reset this σ' = Done () σ' ∧
        (reset this;; reset this) σ = Done () σ'.
Proof.
  intros HL Lthis.
  destruct (reset_to_linked σ this nullptr HL Lthis)
    as (σ' & Hreset & _ & Hs & Hp & _ & _).
  assert (L' : live σ' this) by eauto with heap_db.
  assert (Hagain : reset this σ' = Done () σ').
  { rewrite reset_is_reset_to, (reset_to_unique _ _ _ _ Hs Hp). f_equal.
    apply state_ext; intros; observe; try done.
    split_addr. }
  exists σ'. rewrite reset_is_reset_to in *. split_and!; try done.
  by rewrite (bind_done _ _ _ _ _ Hreset).
Qed.

(** Property X21.  Assigning a live handle to itself (the implicit copy
    assignment) changes nothing. *)
Theorem self_assignment σ this :
  live σ this → implicit_copy_assign this this σ = Done () σ.
Proof.
  intros L. destruct (live_fields _ _ L) as (l & r & p & Hl & Hr & Hp).
  unfold implicit_copy_assign.
  rewrite (bind_done _ _ _ _ _ (get_ptr_ok _ _ _ Hp)).
  do 4 step. step. f_equal.
  apply state_ext; intros; observe; try done; split_addr.
Qed.

End edge_cases.

(** ** Lifetimes *)

Section lifetimes.
Implicit Types (σ : state) (x y h this : loc) (p q : ptr).

Ltac live_solver :=
  repeat first
    [ assumption | apply live_alloc_eq
    | apply live_set_left | apply live_set_right | apply live_set_ptr
    | apply live_delete | (apply live_dealloc; [done|]) | apply live_alloc ].

Ltac observe_deep :=
  repeat first
    [ rewrite lft_alloc | rewrite rgt_alloc | rewrite rsrc_alloc
    | rewrite lft_dealloc | rewrite rgt_dealloc | rewrite rsrc_dealloc
    | rewrite lft_delete | rewrite rgt_delete | rewrite rsrc_delete
    | rewrite deleted_delete | rewrite deleted_alloc | rewrite deleted_dealloc
    | rewrite rgt_set_left | rewrite rsrc_set_left
    | rewrite lft_set_right | rewrite rsrc_set_right
    | rewrite lft_set_ptr | rewrite rgt_set_ptr
    | rewrite deleted_set_left | rewrite deleted_set_right
    | rewrite deleted_set_ptr
    | rewrite lft_set_left by live_solver
    | rewrite rgt_set_right by live_solver
    | rewrite rsrc_set_ptr by live_solver ].

(** What the destructor of a handle that is alone leaves. *)
Lemma dtor_sole_owner σ this p :
  singleton σ this → rsrc σ this = Some p →
  dtor this σ = Done () (st_dealloc this (st_set_ptr this nullptr (st_delete p σ))).
Proof.
  intros Hs Hp. assert (L : live σ this) by eauto with heap_db.
  unfold dtor. rewrite reset_is_reset_to.
  rewrite (bind_done _ _ _ _ _ (reset_to_unique _ _ _ _ Hs Hp)).
  apply dealloc_ok. live_solver.
Qed.

(** What the destructor of a handle with neighbours leaves. *)
Lemma dtor_sharer σ this l r :
  lft σ this = Some l → rgt σ this = Some r → ¬ (l = this ∧ r = this) →
  live σ l → live σ r →
  dtor this σ = Done () (st_dealloc this (st_set_ptr this nullptr (erased this l r σ))).
Proof.
  intros Hl Hr Hne Ll Lr. assert (L : live σ this) by eauto with heap_db.
  unfold dtor. rewrite reset_is_reset_to.
  rewrite (bind_done _ _ _ _ _ (reset_to_shared _ _ _ _ _ Hl Hr Hne Ll Lr)).
  apply dealloc_ok. unfold erased. live_solver.
Qed.

(** Property X15.  A resource given to a new handle, shared with a copy
    of it, and both handles destroyed, in either order: the objects and
    links are exactly those before the construction, and [delete] ran
    once on the resource (not at all for the null reference). *)
Theorem share_and_destroy σ h1 h2 p :
  ¬ live σ h1 → ¬ live σ h2 → h1 ≠ h2 →
  (ctor_raw h1 p;; ctor_copy h2 h1;; dtor h1;; dtor h2) σ = Done () (st_delete p σ) ∧
  (ctor_raw h1 p;; ctor_copy h2 h1;; dtor h2;; dtor h1) σ = Done () (st_delete p σ).
Proof.
  intros F1 F2 Hne.
  destruct (not_live_fields _ _ F1) as (Nl1 & Nr1 & Np1).
  destruct (not_live_fields _ _ F2) as (Nl2 & Nr2 & Np2).
  set (σ1 := st_alloc h1 (mk_linked_ptr p (mk_base h1 h1)) σ).
  set (σ2 := st_set_ptr h2 p (inserted h2 h1 h1
               (st_alloc h2 (mk_linked_ptr nullptr (mk_base h2 h2)) σ1))).
  assert (R1 : ctor_raw h1 p σ = Done () σ1) by (by apply alloc_ok).
  assert (L11 : live σ1 h1) by apply live_alloc_eq.
  assert (R2 : ctor_copy h2 h1 σ1 = Done () σ2).
  { apply ctor_copy_ok.
    - unfold live, σ1. simpl. by rewrite lookup_insert_ne.
    - unfold σ1. observe_deep. by rewrite decide_True.
    - done.
    - unfold σ1. observe_deep. by rewrite decide_True. }
  assert (L21 : live σ2 h1) by (unfold σ2, inserted; live_solver).
  assert (L22 : live σ2 h2) by (unfold σ2, inserted; live_solver).
  assert (Hl1 : lft σ2 h1 = Some h2) by (unfold σ2, inserted, σ1; observe_deep; split_addr).
  assert (Hr1 : rgt σ2 h1 = Some h2) by (unfold σ2, inserted, σ1; observe_deep; split_addr).
  assert (Hl2 : lft σ2 h2 = Some h1) by (unfold σ2, inserted, σ1; observe_deep; split_addr).
  assert (Hr2 : rgt σ2 h2 = Some h1) by (unfold σ2, inserted, σ1; observe_deep; split_addr).
  split.
  - rewrite (bind_done _ _ _ _ _ R1), (bind_done _ _ _ _ _ R2).
    erewrite (bind_done (dtor h1)); cycle 1.
    { apply (dtor_sharer _ _ h2 h2); try done. intros [? _]. done. }
    rewrite (dtor_sole_owner _ _ p); cycle 1.
    { unfold erased, σ2, inserted, σ1. split; observe_deep; split_addr. }
    { unfold erased, σ2, inserted, σ1. observe_deep. split_addr. }
    f_equal. apply state_ext; intros;
      unfold erased, σ2, inserted, σ1; observe_deep; try done; split_addr.
  - rewrite (bind_done _ _ _ _ _ R1), (bind_done _ _ _ _ _ R2).
    erewrite (bind_done (dtor h2)); cycle 1.
    { apply (dtor_sharer _ _ h1 h1); try done. intros [? _]. done. }
    rewrite (dtor_sole_owner _ _ p); cycle 1.
    { unfold erased, σ2, inserted, σ1. split; observe_deep; split_addr. }
    { unfold erased, σ2, inserted, σ1. observe_deep. split_addr. }
    f_equal. apply state_ext; intros;
      unfold erased, σ2, inserted, σ1; observe_deep; try done; split_addr.
Qed.

End lifetimes.

(** ** Swapping back *)

Section swap_back.
Implicit Types (σ : state) (x y z a b : loc) (p q : ptr) (xs ys ls : list loc).

(** The list of a ring fixes the links of its members. *)
Lemma chain_links_eq σ σ' xs : ∀ x z,
  chain σ x xs z → chain σ' x xs z →
  (∀ u, u ∈ x :: xs → rgt σ u = rgt σ' u) ∧
  (∀ u, u ∈ xs ++ [z] → lft σ u = lft σ' u).
Proof.
  induction xs as [|y ys IH]; intros x z; simpl.
  - intros [Hr Hl] [Hr' Hl']. split; intros u Hu;
      apply list_elem_of_singleton in Hu as ->; congruence.
  - intros (Hr & Hl & Hc) (Hr' & Hl' & Hc').
    destruct (IH _ _ Hc Hc') as [IHr IHl]. split; intros u Hu.
    + apply elem_of_cons in Hu as [->|Hu]; [congruence|by apply IHr].
    + apply elem_of_cons in Hu as [->|Hu]; [congruence|by apply IHl].
Qed.

Lemma ring_links_eq σ σ' ls u :
  ring σ ls → ring σ' ls → u ∈ ls →
  lft σ u = lft σ' u ∧ rgt σ u = rgt σ' u.
Proof.
  destruct ls as [|x xs]; [done|]. intros [_ Hc] [_ Hc'] Hu.
  destruct (chain_links_eq _ _ _ _ _ Hc Hc') as [Hr Hl]. split.
  - apply Hl. apply elem_of_cons in Hu as [->|Hu]; set_solver.
  - by apply Hr.
Qed.

(** Property X5.  Two handles that share their rings with others, the
    rings having no common member and different resources: swapping them
    twice gives back exactly the state before the first swap. *)
Theorem swap_twice_shared σ a b x1 xs y1 ys p q :
  ring σ (a :: x1 :: xs) → ring σ (b :: y1 :: ys) →
  (∀ u, u ∈ a :: x1 :: xs → u ∉ b :: y1 :: ys) →
  owns σ (a :: x1 :: xs) p → owns σ (b :: y1 :: ys) q → p ≠ q →
  (swap a b;; swap a b) σ = Done () σ.
Proof.
  intros HringA HringB Hdisj HownA HownB Hpq.
  destruct (swap_shared_rings _ _ _ _ _ _ _ _ _ HringA HringB Hdisj HownA HownB Hpq)
    as (σ1 & Hrun1 & HringA1 & HringB1 & HownA1 & HownB1 & Hdel1 & Hframe1).
  pose proof (ring_NoDup _ _ HringA) as HndA.
  pose proof (ring_NoDup _ _ HringB) as HndB.
  apply NoDup_cons in HndA as [HaA _]. apply NoDup_cons in HndB as [HbB _].
  assert (Hab : a ≠ b) by (intros ->; apply (Hdisj b); set_solver).
  assert (Hdisj1 : ∀ u, u ∈ a :: y1 :: ys → u ∉ b :: x1 :: xs).
  { intros u Hu Hu'.
    apply elem_of_cons in Hu as [->|Hu]; apply elem_of_cons in Hu' as [->|Hu']; try done.
    all: apply (Hdisj u); set_solver. }
  assert (Hqp : q ≠ p) by congruence.
  destruct (swap_shared_rings _ _ _ _ _ _ _ _ _ HringB1 HringA1 Hdisj1 HownB1 HownA1 Hqp)
    as (σ2 & Hrun2 & HringB2 & HringA2 & HownB2 & HownA2 & Hdel2 & Hframe2).
  rewrite (bind_done _ _ _ _ _ Hrun1), Hrun2. f_equal.
  assert (Hin : ∀ u, (u ∈ a :: x1 :: xs) ∨ (u ∈ b :: y1 :: ys) ∨
                     ((u ∉ a :: x1 :: xs) ∧ (u ∉ b :: y1 :: ys))).
  { intros u. destruct (decide (u ∈ a :: x1 :: xs)); [by left|].
    destruct (decide (u ∈ b :: y1 :: ys)); [right; by left|]. right; by right. }
  assert (Hobs : ∀ u, lft σ2 u = lft σ u ∧ rgt σ2 u = rgt σ u ∧ rsrc σ2 u = rsrc σ u).
  { intros u. destruct (Hin u) as [Hu|[Hu|[Hu1 Hu2]]].
    - destruct (ring_links_eq _ _ _ _ HringA2 HringA Hu) as [-> ->].
      unfold owns in *. rewrite Forall_forall in HownA2, HownA.
      by rewrite (HownA2 u Hu), (HownA u Hu).
    - destruct (ring_links_eq _ _ _ _ HringB2 HringB Hu) as [-> ->].
      unfold owns in *. rewrite Forall_forall in HownB2, HownB.
      by rewrite (HownB2 u Hu), (HownB u Hu).
    - assert (u ∉ a :: y1 :: ys) by set_solver.
      assert (u ∉ b :: x1 :: xs) by set_solver.
      destruct (Hframe2 u) as (-> & -> & ->); [done..|]. by apply Hframe1. }
  apply state_ext; try (intros u; by destruct (Hobs u) as (? & ? & ?)).
  congruence.
Qed.

End swap_back.

(** ** Order of handles *)

Section ordering.
Implicit Types (a b c : linked_ptr).

(** Property X16.  Between two handles of one type exactly one of
    [a < b], [a == b] and [a > b] holds, [<=] is [<] or [==], and [>=] is
    [>] or [==].  Between handles of any two types at least one of the
    three holds, [>] excludes both [<] and [==], and [<=] is [<] or
    [==]. *)
Theorem comparison_trichotomy (cl cr : ptr → ptr) a b :
  (op_lt a b = true ∧ op_eq a b = false ∧ op_gt a b = false ∨
   op_lt a b = false ∧ op_eq a b = true ∧ op_gt a b = false ∨
   op_lt a b = false ∧ op_eq a b = false ∧ op_gt a b = true) ∧
  op_le a b = op_lt a b || op_eq a b ∧
  op_ge a b = op_gt a b || op_eq a b ∧
  (op_lt a b = true ∨ op_eq_conv cl cr a b = true ∨
   op_gt_conv cl cr a b = true) ∧
  op_gt_conv cl cr a b && op_lt a b = false ∧
  op_gt_conv cl cr a b && op_eq_conv cl cr a b = false ∧
  op_le_conv cl cr a b = op_lt a b || op_eq_conv cl cr a b.
Proof.
  split_and!.
  - unfold op_gt, op_lt, op_eq.
    repeat case_bool_decide; simpl; try lia; naive_solver.
  - unfold op_le, op_gt. by destruct (op_lt a b), (op_eq a b).
  - unfold op_ge, op_gt, op_lt, op_eq.
    repeat case_bool_decide; simpl; try done; lia.
  - unfold op_gt_conv. destruct (op_lt a b), (op_eq_conv cl cr a b); auto.
  - unfold op_gt_conv. by destruct (op_lt a b), (op_eq_conv cl cr a b).
  - unfold op_gt_conv. by destruct (op_lt a b), (op_eq_conv cl cr a b).
  - unfold op_le_conv, op_gt_conv.
    by destruct (op_lt a b), (op_eq_conv cl cr a b).
Qed.

(** Property X20.  On handles of one type [==] is an equivalence:
    reflexive, symmetric and transitive.  Between handles of two types
    it is symmetric, each reference converted as in the other order.
    Across types it is not transitive: the handles to two subobjects that
    share a base subobject are both [==] to the handle to that base, and
    not to each other. *)
Theorem op_eq_equivalence (cl cr : ptr → ptr) a b c :
  op_eq a a = true ∧
  (op_eq a b = true → op_eq b a = true) ∧
  (op_eq a b = true → op_eq b c = true → op_eq a c = true) ∧
  op_eq_conv cl cr a b = op_eq_conv cr cl b a ∧
  (op_eq_conv to_shared_base id
     (mk_linked_ptr 100 (base a)) (mk_linked_ptr 300 (base c)) = true ∧
   op_eq_conv id to_shared_base
     (mk_linked_ptr 300 (base c)) (mk_linked_ptr 200 (base b)) = true ∧
   op_eq (mk_linked_ptr 100 (base a)) (mk_linked_ptr 200 (base b)) = false).
Proof.
  rewrite !op_eq_spec. split_and!; try congruence; try reflexivity.
  unfold op_eq_conv. apply bool_decide_ext. split; congruence.
Qed.

End ordering.

(** ** Erasing, and resetting a sole owner *)

Section sole_owner.
Implicit Types (σ : state) (x y this : loc) (p q : ptr) (ys : list loc).

(** Property X7.  [erase()] on a member of a ring of two or more nodes:
    the other members form the ring they formed without it, in the same
    order, the node is alone, no resource reference changes, nothing is
    deleted and no object outside the ring changes. *)
Theorem erase_member σ x y ys :
  ring σ (x :: y :: ys) →
  ∃ σ', details.erase x σ = Done () σ' ∧
    ring σ' (y :: ys) ∧ singleton σ' x ∧
    deleted σ' = deleted σ ∧
    (∀ u, rsrc σ' u = rsrc σ u) ∧
    (∀ u, u ∉ x :: y :: ys → lft σ' u = lft σ u ∧ rgt σ' u = rgt σ u).
Proof.
  intros Hring.
  destruct (ring_head_links _ _ _ _ Hring) as (w & Hw & Hl & Hr & _ & _ & _ & _).
  assert (Hwin : w ∈ y :: ys) by (by apply last_Some_elem_of).
  assert (Lx : live σ x) by eauto with heap_db.
  assert (Lw : live σ w) by (eapply ring_live; [done|set_solver]).
  assert (Ly : live σ y) by (eapply ring_live; [done|set_solver]).
  destruct (erase_ring _ _ _ _ _ Hring Hw) as [Hring' Hs].
  exists (erased x w y σ). split_and!; try done.
  - by apply erase_ok.
  - intros u. unfold erased. by observe.
  - intros u Hu. unfold erased. observe. split; split_addr; set_solver.
Qed.

(** [reset(q)] on a handle that is alone: [delete] runs on the resource
    it held (unless null) and the handle holds [q], still alone; no
    other object changes. *)
Lemma reset_to_sole_owner σ this p q :
  singleton σ this → rsrc σ this = Some p →
  ∃ σ', reset_to this q σ = Done () σ' ∧
    singleton σ' this ∧ rsrc σ' this = Some q ∧
    deleted σ' = (if decide (p = nullptr) then deleted σ else deleted σ ++ [p]) ∧
    (∀ u, lft σ' u = lft σ u ∧ rgt σ' u = rgt σ u) ∧
    (∀ u, u ≠ this → rsrc σ' u = rsrc σ u).
Proof.
  intros Hs Hp. assert (L : live σ this) by eauto with heap_db.
  exists (st_set_ptr this q (st_delete p σ)). split_and!.
  - by apply reset_to_unique.
  - destruct Hs. split; by observe.
  - observe. split_addr.
  - by observe.
  - intros u. by observe.
  - intros u Hu. observe. split_addr.
Qed.

(** Property X18.  [reset] does not compare the new reference with the
    one the handle holds: a sole owner reset to its own reference
    ([h.reset(h.get())]) deletes the resource and keeps holding the
    reference, and its destructor then deletes the resource again. *)
Theorem reset_to_own_reference σ this p :
  singleton σ this → rsrc σ this = Some p → p ≠ nullptr →
  ∃ σ', (p' <- get this;; reset_to this p') σ = Done () σ' ∧
    rsrc σ' this = Some p ∧ deleted σ' = deleted σ ++ [p] ∧
    ∃ σ'', dtor this σ' = Done () σ'' ∧ deleted σ'' = deleted σ ++ [p; p].
Proof.
  intros Hs Hp Hnull. assert (L : live σ this) by eauto with heap_db.
  destruct (reset_to_sole_owner σ this p p Hs Hp)
    as (σ' & Hrun & Hs' & Hp' & Hdel & _ & _).
  rewrite decide_False in Hdel by done.
  exists σ'. split_and!; try done.
  - unfold get. by rewrite (bind_done _ _ _ _ _ (get_ptr_ok _ _ _ Hp)).
  - destruct (reset_to_sole_owner σ' this p nullptr Hs' Hp')
      as (σ'' & Hrun' & _ & Hp'' & Hdel' & _ & _).
    rewrite decide_False in Hdel' by done.
    exists (st_dealloc this σ''). split.
    + unfold dtor. rewrite reset_is_reset_to, (bind_done _ _ _ _ _ Hrun').
      apply dealloc_ok. eauto with heap_db.
    + simpl. rewrite Hdel', Hdel. by rewrite <- app_assoc.
Qed.

(** Property X19.  Construction does not compare references either: two
    handles constructed from the same raw reference are both sole
    owners, and destroying both deletes the resource twice. *)
Theorem raw_construct_twice σ h h' p :
  ¬ live σ h → ¬ live σ h' → h ≠ h' → p ≠ nullptr →
  ∃ σ1, (ctor_raw h p;; ctor_raw h' p) σ = Done () σ1 ∧
    unique h σ1 = Done true σ1 ∧ unique h' σ1 = Done true σ1 ∧
    ∃ σ2, (dtor h;; dtor h') σ1 = Done () σ2 ∧
          deleted σ2 = deleted σ ++ [p; p].
Proof.
  intros F F' Hne Hnull.
  set (σa := st_alloc h (mk_linked_ptr p (mk_base h h)) σ).
  set (σ1 := st_alloc h' (mk_linked_ptr p (mk_base h' h')) σa).
  assert (Fa : ¬ live σa h')
    by (unfold live, σa; simpl; by rewrite lookup_insert_ne).
  assert (Hs : singleton σ1 h) by (unfold σ1, σa; split; observe; split_addr).
  assert (Hs' : singleton σ1 h') by (unfold σ1, σa; split; observe; split_addr).
  assert (Hp : rsrc σ1 h = Some p) by (unfold σ1, σa; observe; split_addr).
  assert (Hp' : rsrc σ1 h' = Some p) by (unfold σ1, σa; observe; split_addr).
  exists σ1. split_and!.
  - unfold ctor_raw. rewrite (bind_done _ _ _ _ _ (alloc_ok _ _ _ F)).
    by apply alloc_ok.
  - unfold unique. by apply unique_singleton.
  - unfold unique. by apply unique_singleton.
  - destruct (reset_to_sole_owner σ1 h p nullptr Hs Hp)
      as (σb & Hrun & _ & Hpb & Hdel & Hlinks & Hrsrc).
    rewrite decide_False in Hdel by done.
    assert (Lb : live σb h) by eauto with heap_db.
    set (σc := st_dealloc h σb).
    assert (Hsc : singleton σc h').
    { destruct Hs' as [E1 E2]. destruct (Hlinks h') as [E3 E4].
      unfold σc. split; observe; split_addr; congruence. }
    assert (Hpc : rsrc σc h' = Some p).
    { unfold σc. observe. split_addr. rewrite Hrsrc by done. done. }
    destruct (reset_to_sole_owner σc h' p nullptr Hsc Hpc)
      as (σd & Hrun' & _ & Hpd & Hdel' & _ & _).
    rewrite decide_False in Hdel' by done.
    exists (st_dealloc h' σd). split.
    + assert (D1 : dtor h σ1 = Done () σc).
      { unfold dtor. rewrite reset_is_reset_to, (bind_done _ _ _ _ _ Hrun).
        by apply dealloc_ok. }
      rewrite (bind_done _ _ _ _ _ D1).
      unfold dtor. rewrite reset_is_reset_to, (bind_done _ _ _ _ _ Hrun').
      apply dealloc_ok. eauto with heap_db.
    + simpl. rewrite Hdel'. unfold σc. simpl. rewrite Hdel.
      by rewrite <- app_assoc.
Qed.

End sole_owner.

(** ** Further properties of the operations *)

Section further_properties.
Implicit Types (σ : state) (x y z a b this rhs : loc) (p q : ptr).
Implicit Types (ls order xs ys : list loc).

(** Property X1.  On a member of an intact ring [unique()] answers true
    exactly when the handle is the only member of the ring. *)
Theorem unique_iff_sole_member σ ls x :
  ring σ ls → x ∈ ls →
  ∃ u, unique x σ = Done u σ ∧ (u = true ↔ ls = [x]).
Proof.
  intros Hring Hx. rewrite (ring_unique _ _ _ Hring Hx).
  eexists. split; [done|]. rewrite bool_decide_eq_true. split.
  - destruct ls as [|y [|? ?]]; simpl; try done.
    intros _. apply list_elem_of_singleton in Hx as ->. done.
  - by intros ->.
Qed.

Lemma unique_iff_sole_member_witness :
  ∃ u, unique 3 ex_shared = Done u ex_shared ∧
       (u = true ↔ [2%positive; 3%positive] = [3%positive]).
Proof.
  apply (unique_iff_sole_member ex_shared [2%positive; 3%positive] 3).
  - apply (bool_decide_unpack _). vm_compute. exact I.
  - apply (bool_decide_unpack _). vm_compute. exact I.
Defined.

Lemma erase_singleton_witness : details.erase 1 ex_shared = Done () ex_shared.
Proof.
  apply (erase_singleton ex_shared 1).
  apply (bool_decide_unpack _). vm_compute. exact I.
Defined.

Lemma insert_after_linked_node_witness :
  details.insert_after 2 1 ex_shared = Fault AssertionFailed.
Proof.
  apply (insert_after_linked_node ex_shared 2 1 3 3); [reflexivity..|].
  vm_compute. intros [? _]. discriminate.
Defined.

Lemma reset_all_snoc order : ∀ σ σ1 z,
  reset_all order σ = Done () σ1 →
  reset_all (order ++ [z]) σ = (reset z;; ret ()) σ1.
Proof.
  induction order as [|x order IH]; intros σ σ1 z; simpl.
  - by intros [= <-].
  - intros H. unfold bind in H at 1. unfold bind at 1.
    destruct (reset x σ) as [[] σ'|f]; [|done]. by apply IH.
Qed.

(** Property X2.  The members of an intact ring reset one after another,
    in any order: as long as one member is left nothing is deleted and
    that member holds the resource alone; the last [reset()] runs
    [delete] on the resource, once (not at all for the null reference),
    and all the handles end empty and alone. *)
Theorem release_at_last_reset σ ls order z p :
  ring σ ls → owns σ ls p → order ++ [z] ≡ₚ ls →
  ∃ σ1 σ2,
    reset_all order σ = Done () σ1 ∧
    deleted σ1 = deleted σ ∧ ring σ1 [z] ∧ rsrc σ1 z = Some p ∧
    reset z σ1 = Done () σ2 ∧
    deleted σ2 = (if decide (p = nullptr) then deleted σ else deleted σ ++ [p]) ∧
    Forall (λ x, singleton σ2 x ∧ rsrc σ2 x = Some nullptr) (order ++ [z]).
Proof.
  intros Hring Hown Hperm.
  destruct (reset_all_but_one order _ _ _ _ Hring Hown Hperm)
    as (σ1 & Hrun1 & Hdel1 & Hring1 & Hp1).
  destruct (reset_all_any_order (order ++ [z]) _ _ _ Hring Hown Hperm)
    as (σ2 & Hrun2 & Hdel2 & _ & Hall).
  exists σ1, σ2. split_and!; try done.
  rewrite (reset_all_snoc _ _ _ _ Hrun1) in Hrun2.
  unfold bind, ret in Hrun2. destruct (reset z σ1) as [[] σ'|f]; congruence.
Qed.

Lemma release_at_last_reset_witness :
  ∃ σ1 σ2,
    reset_all [4%positive; 3%positive] ex_two_rings = Done () σ1 ∧
    deleted σ1 = deleted ex_two_rings ∧ ring σ1 [5%positive] ∧
    rsrc σ1 5 = Some 200 ∧
    reset 5 σ1 = Done () σ2 ∧
    deleted σ2 = (if decide (200 = nullptr) then deleted ex_two_rings
                  else deleted ex_two_rings ++ [200]) ∧
    Forall (λ x, singleton σ2 x ∧ rsrc σ2 x = Some nullptr)
           ([4%positive; 3%positive] ++ [5%positive]).
Proof.
  apply (release_at_last_reset ex_two_rings
           [3%positive; 4%positive; 5%positive] [4%positive; 3%positive] 5 200).
  - apply (bool_decide_unpack _). vm_compute. exact I.
  - apply (bool_decide_unpack _). vm_compute. exact I.
  - apply (bool_decide_unpack _). vm_compute. exact I.
Defined.

(** Property X3.  [swap] of two handles that both share their rings, the
    rings having no common member and holding different resources: each
    handle takes the place of the other in the other's ring, the two
    resource references are exchanged with them, nothing is deleted and
    no object outside the two rings changes. *)
Theorem swap_exchanges_rings σ a b x1 xs y1 ys p q :
  ring σ (a :: x1 :: xs) → ring σ (b :: y1 :: ys) →
  (∀ u, u ∈ a :: x1 :: xs → u ∉ b :: y1 :: ys) →
  owns σ (a :: x1 :: xs) p → owns σ (b :: y1 :: ys) q → p ≠ q →
  ∃ σ', swap a b σ = Done () σ' ∧
    ring σ' (b :: x1 :: xs) ∧ ring σ' (a :: y1 :: ys) ∧
    owns σ' (b :: x1 :: xs) p ∧ owns σ' (a :: y1 :: ys) q ∧
    deleted σ' = deleted σ ∧
    (∀ u, u ∉ a :: x1 :: xs → u ∉ b :: y1 :: ys →
       lft σ' u = lft σ u ∧ rgt σ' u = rgt σ u ∧ rsrc σ' u = rsrc σ u).
Proof. apply swap_shared_rings. Qed.

Lemma swap_exchanges_rings_witness :
  ∃ σ', swap 1 3 ex_two_rings = Done () σ' ∧
    ring σ' [3%positive; 2%positive] ∧
    ring σ' [1%positive; 4%positive; 5%positive] ∧
    owns σ' [3%positive; 2%positive] 100 ∧
    owns σ' [1%positive; 4%positive; 5%positive] 200 ∧
    deleted σ' = deleted ex_two_rings ∧
    (∀ u, u ∉ [1%positive; 2%positive] → u ∉ [3%positive; 4%positive; 5%positive] →
       lft σ' u = lft ex_two_rings u ∧ rgt σ' u = rgt ex_two_rings u ∧
       rsrc σ' u = rsrc ex_two_rings u).
Proof.
  apply (swap_exchanges_rings ex_two_rings 1 3 2 [] 4 [5%positive] 100 200).
  - apply (bool_decide_unpack _). vm_compute. exact I.
  - apply (bool_decide_unpack _). vm_compute. exact I.
  - apply Forall_forall. apply (bool_decide_unpack _). vm_compute. exact I.
  - apply (bool_decide_unpack _). vm_compute. exact I.
  - apply (bool_decide_unpack _). vm_compute. exact I.
  - discriminate.
Defined.

(** Property X4.  [swap] of two handles that are both alone and hold
    different resources exchanges the two resource references and leaves
    every link as it was: both are still alone. *)
Theorem swap_of_sole_owners σ a b p q :
  singleton σ a → singleton σ b →
  rsrc σ a = Some p → rsrc σ b = Some q → p ≠ q →
  ∃ σ', swap a b σ = Done () σ' ∧
    singleton σ' a ∧ singleton σ' b ∧
    rsrc σ' a = Some q ∧ rsrc σ' b = Some p ∧
    deleted σ' = deleted σ ∧
    (∀ u, lft σ' u = lft σ u ∧ rgt σ' u = rgt σ u) ∧
    (∀ u, u ≠ a → u ≠ b → rsrc σ' u = rsrc σ u).
Proof.
  intros Ha Hb Hp Hq Hpq.
  assert (a ≠ b) by (intros ->; congruence).
  assert (live σ a) by eauto with heap_db.
  assert (live σ b) by eauto with heap_db.
  destruct (swap_sole_owners σ a b p q Ha Hb Hp Hq Hpq) as [Hrun _].
  destruct Ha, Hb.
  exists (st_set_ptr b p (st_set_ptr a q σ)). split_and!; try done.
  - split; by observe.
  - split; by observe.
  - observe. split_addr.
  - observe. split_addr.
  - intros u. by observe.
  - intros u ? ?. observe. split_addr.
Qed.

Lemma swap_of_sole_owners_witness :
  ∃ σ', swap 1 2 ex_two_owners = Done () σ' ∧
    singleton σ' 1 ∧ singleton σ' 2 ∧
    rsrc σ' 1 = Some 200 ∧ rsrc σ' 2 = Some 100 ∧
    deleted σ' = deleted ex_two_owners ∧
    (∀ u, lft σ' u = lft ex_two_owners u ∧ rgt σ' u = rgt ex_two_owners u) ∧
    (∀ u, u ≠ 1%positive → u ≠ 2%positive → rsrc σ' u = rsrc ex_two_owners u).
Proof.
  apply (swap_of_sole_owners ex_two_owners 1 2 100 200).
  - apply (bool_decide_unpack _). vm_compute. exact I.
  - apply (bool_decide_unpack _). vm_compute. exact I.
  - reflexivity.
  - reflexivity.
  - discriminate.
Defined.

Lemma swap_twice_shared_witness :
  (swap 1 3;; swap 1 3) ex_two_rings = Done () ex_two_rings.
Proof.
  apply (swap_twice_shared ex_two_rings 1 3 2 [] 4 [5%positive] 100 200).
  - apply (bool_decide_unpack _). vm_compute. exact I.
  - apply (bool_decide_unpack _). vm_compute. exact I.
  - apply Forall_forall. apply (bool_decide_unpack _). vm_compute. exact I.
  - apply (bool_decide_unpack _). vm_compute. exact I.
  - apply (bool_decide_unpack _). vm_compute. exact I.
  - discriminate.
Defined.

Lemma reset_twice_witness :
  ∃ σ', reset 2 ex_shared = Done () σ' ∧ reset 2 σ' = Done () σ' ∧
        (reset 2;; reset 2) ex_shared = Done () σ'.
Proof.
  apply (reset_twice ex_shared 2).
  - apply (bool_decide_unpack _). vm_compute. exact I.
  - apply (bool_decide_unpack _). vm_compute. exact I.
Defined.

Lemma share_and_destroy_witness :
  (ctor_raw 4 9;; ctor_copy 5 4;; dtor 4;; dtor 5) ex_shared
    = Done () (st_delete 9 ex_shared) ∧
  (ctor_raw 4 9;; ctor_copy 5 4;; dtor 5;; dtor 4) ex_shared
    = Done () (st_delete 9 ex_shared).
Proof.
  apply (share_and_destroy ex_shared 4 5 9).
  - apply (bool_decide_unpack _). vm_compute. exact I.
  - apply (bool_decide_unpack _). vm_compute. exact I.
  - discriminate.
Defined.

(** Property X9.  In a state whose links are all mutual, [reset(q)] and
    [reset()] on a live handle run without fault and keep the links
    mutual; the handle ends alone, holding [q] (the null reference after
    [reset()]); the same objects are live; and if neighbours held the
    same resource before, they do afterwards. *)
Theorem reset_keeps_invariants σ this q :
  linked σ → live σ this →
  ∃ σ' σ0,
    reset_to this q σ = Done () σ' ∧ reset this σ = Done () σ0 ∧
    linked σ' ∧ linked σ0 ∧
    singleton σ' this ∧ rsrc σ' this = Some q ∧
    singleton σ0 this ∧ rsrc σ0 this = Some nullptr ∧
    (∀ x, live σ' x ↔ live σ x) ∧
    (coherent σ → coherent σ' ∧ coherent σ0).
Proof.
  intros HL Lthis.
  destruct (reset_to_linked σ this q HL Lthis) as (σ' & ? & ? & ? & ? & ? & ?).
  destruct (reset_to_linked σ this nullptr HL Lthis) as (σ0 & ? & ? & ? & ? & ? & ?).
  exists σ', σ0. split_and!; try done. intros ?. split; auto.
Qed.

Lemma reset_keeps_invariants_witness :
  ∃ σ' σ0,
    reset_to 2 9 ex_shared = Done () σ' ∧ reset 2 ex_shared = Done () σ0 ∧
    linked σ' ∧ linked σ0 ∧
    singleton σ' 2 ∧ rsrc σ' 2 = Some 9 ∧
    singleton σ0 2 ∧ rsrc σ0 2 = Some nullptr ∧
    (∀ x, live σ' x ↔ live ex_shared x) ∧
    (coherent ex_shared → coherent σ' ∧ coherent σ0).
Proof.
  apply (reset_keeps_invariants ex_shared 2 9).
  - apply (bool_decide_unpack _). vm_compute. exact I.
  - apply (bool_decide_unpack _). vm_compute. exact I.
Defined.

(** Property X10.  In a state whose links are all mutual, construction
    from a raw reference, and default construction, in storage that holds
    no live object run without fault and keep the links mutual; the new
    object is the only new live object; and neighbours that held the same
    resource still do. *)
Theorem construct_keeps_invariants σ this p :
  linked σ → ¬ live σ this →
  ∃ σ' σ0,
    ctor_raw this p σ = Done () σ' ∧ ctor_default this σ = Done () σ0 ∧
    linked σ' ∧ linked σ0 ∧
    (coherent σ → coherent σ' ∧ coherent σ0) ∧
    (∀ x, live σ' x ↔ x = this ∨ live σ x).
Proof.
  intros HL F.
  destruct (ctor_raw_linked σ this p HL F) as (σ' & ? & ? & ? & ?).
  destruct (ctor_raw_linked σ this nullptr HL F) as (σ0 & ? & ? & ? & ?).
  exists σ', σ0. split_and!; try done. intros ?. split; auto.
Qed.

Lemma construct_keeps_invariants_witness :
  ∃ σ' σ0,
    ctor_raw 4 7 ex_shared = Done () σ' ∧ ctor_default 4 ex_shared = Done () σ0 ∧
    linked σ' ∧ linked σ0 ∧
    (coherent ex_shared → coherent σ' ∧ coherent σ0) ∧
    (∀ x, live σ' x ↔ x = 4%positive ∨ live ex_shared x).
Proof.
  apply (construct_keeps_invariants ex_shared 4 7).
  - apply (bool_decide_unpack _). vm_compute. exact I.
  - apply (bool_decide_unpack _). vm_compute. exact I.
Defined.

(** Property X11.  In a state whose links are all mutual, copy
    construction from a live handle of the same type, in storage that
    holds no live object, runs without fault and keeps the links mutual:
    the new handle is the right neighbour of its source, holds the
    source's resource reference, nothing is deleted, and neighbours that
    held the same resource still do. *)
Theorem copy_keeps_invariants σ this rhs :
  linked σ → ¬ live σ this → live σ rhs →
  ∃ σ', ctor_copy this rhs σ = Done () σ' ∧ linked σ' ∧
    lft σ' this = Some rhs ∧ rgt σ' rhs = Some this ∧
    rsrc σ' this = rsrc σ rhs ∧
    deleted σ' = deleted σ ∧
    (coherent σ → coherent σ') ∧
    (∀ x, live σ' x ↔ x = this ∨ live σ x).
Proof. apply ctor_copy_linked. Qed.

Lemma copy_keeps_invariants_witness :
  ∃ σ', ctor_copy 4 2 ex_shared = Done () σ' ∧ linked σ' ∧
    lft σ' 4 = Some 2%positive ∧ rgt σ' 2 = Some 4%positive ∧
    rsrc σ' 4 = rsrc ex_shared 2 ∧
    deleted σ' = deleted ex_shared ∧
    (coherent ex_shared → coherent σ') ∧
    (∀ x, live σ' x ↔ x = 4%positive ∨ live ex_shared x).
Proof.
  apply (copy_keeps_invariants ex_shared 4 2).
  - apply (bool_decide_unpack _). vm_compute. exact I.
  - apply (bool_decide_unpack _). vm_compute. exact I.
  - apply (bool_decide_unpack _). vm_compute. exact I.
Defined.

(** Property X12.  In a state whose links are all mutual, the
    destructor of a live handle runs without fault and keeps the links
    mutual: the object is gone, no link of a live object points at it,
    every other object is still live, and neighbours that held the same
    resource still do. *)
Theorem destroy_keeps_invariants σ this :
  linked σ → live σ this →
  ∃ σ', dtor this σ = Done () σ' ∧ linked σ' ∧ ¬ live σ' this ∧
    (∀ x, lft σ' x ≠ Some this ∧ rgt σ' x ≠ Some this) ∧
    (∀ x, live σ' x ↔ x ≠ this ∧ live σ x) ∧
    (coherent σ → coherent σ').
Proof. apply dtor_linked. Qed.

Lemma destroy_keeps_invariants_witness :
  ∃ σ', dtor 2 ex_shared = Done () σ' ∧ linked σ' ∧ ¬ live σ' 2 ∧
    (∀ x, lft σ' x ≠ Some 2%positive ∧ rgt σ' x ≠ Some 2%positive) ∧
    (∀ x, live σ' x ↔ x ≠ 2%positive ∧ live ex_shared x) ∧
    (coherent ex_shared → coherent σ').
Proof.
  apply (destroy_keeps_invariants ex_shared 2).
  - apply (bool_decide_unpack _). vm_compute. exact I.
  - apply (bool_decide_unpack _). vm_compute. exact I.
Defined.

(** Property X13.  In a state whose links are all mutual and whose
    neighbours hold the same resource, [swap] of two handles with
    different resources that are both alone, or both not alone, runs
    without fault and keeps both properties; the two resource references
    are exchanged and nothing is deleted. *)
Theorem swap_keeps_invariants σ a b p q :
  linked σ → coherent σ →
  rsrc σ a = Some p → rsrc σ b = Some q → p ≠ q →
  (singleton σ a ↔ singleton σ b) →
  ∃ σ', swap a b σ = Done () σ' ∧ linked σ' ∧ coherent σ' ∧
    rsrc σ' a = Some q ∧ rsrc σ' b = Some p ∧
    deleted σ' = deleted σ ∧
    (∀ x, live σ' x ↔ live σ x).
Proof. apply swap_linked. Qed.

Lemma swap_keeps_invariants_witness :
  ∃ σ', swap 1 3 ex_two_rings = Done () σ' ∧ linked σ' ∧ coherent σ' ∧
    rsrc σ' 1 = Some 200 ∧ rsrc σ' 3 = Some 100 ∧
    deleted σ' = deleted ex_two_rings ∧
    (∀ x, live σ' x ↔ live ex_two_rings x).
Proof.
  apply (swap_keeps_invariants ex_two_rings 1 3 100 200).
  - apply (bool_decide_unpack _). vm_compute. exact I.
  - apply (bool_decide_unpack _). vm_compute. exact I.
  - reflexivity.
  - reflexivity.
  - discriminate.
  - split; intros H; exfalso; revert H; apply (bool_decide_unpack _);
      vm_compute; exact I.
Defined.

Lemma op_eq_equivalence_witness :
  op_eq (mk_linked_ptr 16 (mk_base 1 1)) (mk_linked_ptr 16 (mk_base 1 1)) = true ∧
  op_eq (mk_linked_ptr 16 (mk_base 2 3)) (mk_linked_ptr 16 (mk_base 1 1)) = true ∧
  op_eq (mk_linked_ptr 16 (mk_base 1 1)) (mk_linked_ptr 16 (mk_base 3 2)) = true.
Proof.
  destruct (op_eq_equivalence id id (mk_linked_ptr 16 (mk_base 1 1))
              (mk_linked_ptr 16 (mk_base 2 3)) (mk_linked_ptr 16 (mk_base 3 2)))
    as (Hrefl & Hsym & Htrans & _).
  split_and!; [exact Hrefl|apply Hsym; reflexivity|apply Htrans; reflexivity].
Defined.

Lemma self_assignment_witness :
  implicit_copy_assign 2 2 ex_shared = Done () ex_shared.
Proof.
  apply (self_assignment ex_shared 2).
  apply (bool_decide_unpack _). vm_compute. exact I.
Defined.

Lemma erase_member_witness :
  ∃ σ', details.erase 3 ex_two_rings = Done () σ' ∧
    ring σ' [4%positive; 5%positive] ∧ singleton σ' 3 ∧
    deleted σ' = deleted ex_two_rings ∧
    (∀ u, rsrc σ' u = rsrc ex_two_rings u) ∧
    (∀ u, u ∉ [3%positive; 4%positive; 5%positive] →
       lft σ' u = lft ex_two_rings u ∧ rgt σ' u = rgt ex_two_rings u).
Proof.
  apply (erase_member ex_two_rings 3 4 [5%positive]).
  apply (bool_decide_unpack _). vm_compute. exact I.
Defined.

(** Property X17.  [reset(q)] on a sole owner runs [delete] on the
    resource it held (nothing for the null reference) and leaves the
    handle alone, holding [q]; no link and no other handle changes. *)
Theorem reset_of_sole_owner σ this p q :
  singleton σ this → rsrc σ this = Some p →
  ∃ σ', reset_to this q σ = Done () σ' ∧
    singleton σ' this ∧ rsrc σ' this = Some q ∧
    deleted σ' = (if decide (p = nullptr) then deleted σ else deleted σ ++ [p]) ∧
    (∀ u, lft σ' u = lft σ u ∧ rgt σ' u = rgt σ u) ∧
    (∀ u, u ≠ this → rsrc σ' u = rsrc σ u).
Proof. apply reset_to_sole_owner. Qed.

Lemma reset_of_sole_owner_witness :
  ∃ σ', reset_to 1 9 ex_two_owners = Done () σ' ∧
    singleton σ' 1 ∧ rsrc σ' 1 = Some 9 ∧
    deleted σ' = (if decide (100 = nullptr) then deleted ex_two_owners
                  else deleted ex_two_owners ++ [100]) ∧
    (∀ u, lft σ' u = lft ex_two_owners u ∧ rgt σ' u = rgt ex_two_owners u) ∧
    (∀ u, u ≠ 1%positive → rsrc σ' u = rsrc ex_two_owners u).
Proof.
  apply (reset_of_sole_owner ex_two_owners 1 100 9).
  - apply (bool_decide_unpack _). vm_compute. exact I.
  - reflexivity.
Defined.

Lemma reset_to_own_reference_witness :
  ∃ σ', (p' <- get 1;; reset_to 1 p') ex_two_owners = Done () σ' ∧
    rsrc σ' 1 = Some 100 ∧ deleted σ' = deleted ex_two_owners ++ [100] ∧
    ∃ σ'', dtor 1 σ' = Done () σ'' ∧
           deleted σ'' = deleted ex_two_owners ++ [100; 100].
Proof.
  apply (reset_to_own_reference ex_two_owners 1 100).
  - apply (bool_decide_unpack _). vm_compute. exact I.
  - reflexivity.
  - discriminate.
Defined.

Lemma raw_construct_twice_witness :
  ∃ σ1, (ctor_raw 4 9;; ctor_raw 5 9) ex_shared = Done () σ1 ∧
    unique 4 σ1 = Done true σ1 ∧ unique 5 σ1 = Done true σ1 ∧
    ∃ σ2, (dtor 4;; dtor 5) σ1 = Done () σ2 ∧
          deleted σ2 = deleted ex_shared ++ [9; 9].
Proof.
  apply (raw_construct_twice ex_shared 4 5 9).
  - apply (bool_decide_unpack _). vm_compute. exact I.
  - apply (bool_decide_unpack _). vm_compute. exact I.
  - discriminate.
  - discriminate.
Defined.

End further_properties.

(** ** Programs *)

Section programs.
Implicit Types (σ : state) (o : op) (os : list op).

Lemma exec_keeps_invariants σ o :
  linked σ → coherent σ → allowed σ o →
  ∃ σ', exec o σ = Done () σ' ∧ linked σ' ∧ coherent σ'.
Proof.
  intros HL HC Hok. destruct o as [h|h p|h rhs|h|h p|h|a b]; simpl in *.
  - destruct (ctor_raw_linked σ h nullptr HL Hok) as (σ' & ? & ? & ? & _). eauto.
  - destruct (ctor_raw_linked σ h p HL Hok) as (σ' & ? & ? & ? & _). eauto.
  - destruct Hok as [F L].
    destruct (ctor_copy_linked σ h rhs HL F L) as (σ' & ? & ? & _ & _ & _ & _ & ? & _).
    eauto.
  - destruct (reset_to_linked σ h nullptr HL Hok) as (σ' & ? & ? & _ & _ & _ & ?).
    eauto.
  - destruct (reset_to_linked σ h p HL Hok) as (σ' & ? & ? & _ & _ & _ & ?). eauto.
  - destruct (dtor_linked σ h HL Hok) as (σ' & ? & ? & _ & _ & _ & ?). eauto.
  - destruct Hok as (La & Lb & Hcase).
    destruct (live_fields _ _ La) as (_ & _ & p & _ & _ & Hp).
    destruct (live_fields _ _ Lb) as (_ & _ & q & _ & _ & Hq).
    destruct (decide (p = q)) as [->|Hpq].
    + exists σ. split_and!; try done. by apply (swap_same_reference _ _ _ q).
    + destruct Hcase as [E|Hboth]; [congruence|].
      destruct (swap_linked σ a b p q HL HC Hp Hq Hpq Hboth) as (σ' & ? & ? & ? & _).
      eauto.
Qed.

(** Property X22.  From a state whose links are all mutual and whose
    neighbours hold the same resource, every sequence of constructions,
    copies, resets, destructions and swaps, each allowed in the state it
    meets, runs to its end without fault and ends in such a state. *)
Theorem run_keeps_invariants os : ∀ σ,
  linked σ → coherent σ → allowed_all σ os →
  ∃ σ', run os σ = Done () σ' ∧ linked σ' ∧ coherent σ'.
Proof.
  induction os as [|o os IH]; intros σ HL HC Hok; simpl in *.
  - exists σ. done.
  - destruct Hok as [Ho Hrest].
    destruct (exec_keeps_invariants σ o HL HC Ho) as (σ1 & Hrun & HL1 & HC1).
    rewrite Hrun in Hrest.
    destruct (IH σ1 HL1 HC1 Hrest) as (σ' & Hrun' & ? & ?).
    exists σ'. split_and!; try done.
    by rewrite (bind_done _ _ _ _ _ Hrun).
Qed.

Lemma run_keeps_invariants_witness :
  ∃ σ', run [Raw 1 100; Copy 2 1; Copy 3 2; Raw 4 200; Copy 5 4;
             Swap 2 5; ResetTo 3 300; Reset 1; Destroy 5; Default 6;
             Copy 7 6; Swap 7 4; Destroy 2] ex_empty = Done () σ' ∧
        linked σ' ∧ coherent σ'.
Proof.
  apply (run_keeps_invariants
           [Raw 1 100; Copy 2 1; Copy 3 2; Raw 4 200; Copy 5 4;
            Swap 2 5; ResetTo 3 300; Reset 1; Destroy 5; Default 6;
            Copy 7 6; Swap 7 4; Destroy 2] ex_empty).
  - apply (bool_decide_unpack _). vm_compute. exact I.
  - apply (bool_decide_unpack _). vm_compute. exact I.
  - apply (bool_decide_unpack _). vm_compute. exact I.
Defined.

End programs.

(** ** Sound states are kept *)

Section soundness.
Implicit Types (σ : state) (x y z this rhs a b : loc) (p q : ptr).
Implicit Types (ls rest T : list loc).

Lemma holds_none_spec σ p : holds_none σ p ↔ ∀ x, rsrc σ x ≠ Some p.
Proof.
  unfold holds_none. rewrite map_Forall_lookup. split.
  - intros H x E. apply rsrc_lookup in E as (c & Hc & Hp). by apply (H x c).
  - intros H x c Hc Hp. apply (H x). apply rsrc_lookup. eauto.
Qed.

Lemma live_rsrc_iff σ x : live σ x ↔ is_Some (rsrc σ x).
Proof. unfold live, rsrc. by rewrite fmap_is_Some. Qed.

(** Following the right links from a node fixes the list of a ring. *)
Lemma chain_det σ ls : ∀ ls' x y,
  chain σ x ls y → chain σ x ls' y → y ∉ ls → y ∉ ls' → ls = ls'.
Proof.
  induction ls as [|a ls IH]; intros [|a' ls'] x y; simpl; try done.
  - intros [Hr _] (Hr' & _) _ Hn. destruct Hn. rewrite Hr in Hr'.
    injection Hr' as <-. by left.
  - intros (Hr & _) [Hr' _] Hn _. destruct Hn. rewrite Hr in Hr'.
    injection Hr' as ->. by left.
  - intros (Hr & _ & Hc) (Hr' & _ & Hc') Hn Hn'.
    rewrite Hr in Hr'. injection Hr' as <-.
    rewrite not_elem_of_cons in Hn, Hn'. f_equal. eapply IH; naive_solver.
Qed.

(** Two rings with a common member have the same members. *)
Lemma ring_same_members σ ls ls' z u :
  ring σ ls → ring σ ls' → z ∈ ls → z ∈ ls' → u ∈ ls → u ∈ ls'.
Proof.
  intros Hr Hr' Hz Hz' Hu.
  destruct (ring_at_member _ _ _ Hr Hz) as (l1 & l2 & -> & Hrot).
  destruct (ring_at_member _ _ _ Hr' Hz') as (l1' & l2' & -> & Hrot').
  assert (E : l2 ++ l1 = l2' ++ l1').
  { destruct Hrot as [Hnd Hc], Hrot' as [Hnd' Hc'].
    apply NoDup_cons in Hnd as [? _]. apply NoDup_cons in Hnd' as [? _].
    by eapply chain_det. }
  assert (Hu' : u ∈ z :: l2 ++ l1) by set_solver.
  rewrite E in Hu'. set_solver.
Qed.

Lemma ring_of_live σ x :
  sound σ → live σ x →
  ∃ rest p, ring σ (x :: rest) ∧ owns σ (x :: rest) p.
Proof.
  intros (HA & _) L. destruct (HA x L) as (ls & p & Hring & Hown & Hx).
  destruct (ring_at_member _ _ _ Hring Hx) as (l1 & l2 & -> & Hrot).
  exists (l2 ++ l1), p. split; [done|].
  eapply owns_perm; [|done]. by rewrite (Permutation_app_comm l1 (x :: l2)).
Qed.

(** An operation that only touches the handles of [T], a set made of
    whole rings, and leaves them in a sound arrangement. *)
Lemma sound_local σ σ' T :
  sound σ →
  (∀ u, u ∉ T → lft σ' u = lft σ u ∧ rgt σ' u = rgt σ u ∧ rsrc σ' u = rsrc σ u) →
  (∀ ls z u, ring σ ls → z ∈ ls → z ∈ T → u ∈ ls → u ∈ T) →
  (∀ u, u ∈ T → live σ' u → ∃ ls p, ring σ' ls ∧ owns σ' ls p ∧ u ∈ ls) →
  (∀ u v p, u ∈ T → v ∈ T → p ≠ nullptr →
     rsrc σ' u = Some p → rsrc σ' v = Some p → ∃ ls, ring σ' ls ∧ u ∈ ls ∧ v ∈ ls) →
  (∀ u p, u ∈ T → rsrc σ' u = Some p → p ≠ nullptr →
     (∃ w, w ∈ T ∧ rsrc σ w = Some p) ∨ ((p ∉ deleted σ) ∧ ∀ v, rsrc σ v ≠ Some p)) →
  (deleted σ' = deleted σ ∨
   ∃ d w, deleted σ' = deleted σ ++ [d] ∧ d ≠ nullptr ∧ w ∈ T ∧
          rsrc σ w = Some d ∧ ∀ u, u ∈ T → rsrc σ' u ≠ Some d) →
  sound σ'.
Proof.
  intros (HA & HB & HC & HD) Hframe Hclosed Hrings Hsame Horigin Hdel.
  assert (Hout : ∀ ls u, ring σ ls → u ∈ ls → u ∉ T → ring σ' ls ∧ ∀ v, v ∈ ls → v ∉ T).
  { intros ls u Hring Hu HuT.
    assert (Hno : ∀ v, v ∈ ls → v ∉ T).
    { intros v Hv HvT. apply HuT. by apply (Hclosed ls v u). }
    split; [|done]. eapply ring_frame; [|done].
    intros v Hv. destruct (Hframe v (Hno v Hv)) as (? & ? & _). done. }
  assert (Hforeign : ∀ u v p, u ∈ T → v ∉ T → p ≠ nullptr →
            rsrc σ' u = Some p → rsrc σ' v = Some p → False).
  { intros u v p Hu Hv Hp Eu Ev.
    destruct (Hframe v Hv) as (_ & _ & Ev'). rewrite Ev' in Ev.
    destruct (Horigin u p Hu Eu Hp) as [(w & Hw & Ew)|[_ Hnone]].
    - destruct (HB w v p Hp Ew Ev) as (ls & Hring & Hwl & Hvl).
      apply Hv. by apply (Hclosed ls w v).
    - by apply (Hnone v). }
  split_and!.
  - intros x L. destruct (decide (x ∈ T)) as [Hx|Hx]; [by apply Hrings|].
    destruct (Hframe x Hx) as (_ & _ & Ex).
    assert (L0 : live σ x) by (apply live_rsrc_iff; rewrite <- Ex; by apply live_rsrc_iff).
    destruct (HA x L0) as (ls & p & Hring & Hown & Hxl).
    destruct (Hout ls x Hring Hxl Hx) as [Hring' Hno].
    exists ls, p. split_and!; try done.
    unfold owns in *. rewrite Forall_forall in *. intros v Hv.
    destruct (Hframe v (Hno v Hv)) as (_ & _ & ->). by apply Hown.
  - intros x y p Hp Ex Ey.
    destruct (decide (x ∈ T)) as [Hx|Hx], (decide (y ∈ T)) as [Hy|Hy].
    + by apply (Hsame x y p).
    + destruct (Hforeign x y p Hx Hy Hp Ex Ey).
    + destruct (Hforeign y x p Hy Hx Hp Ey Ex).
    + destruct (Hframe x Hx) as (_ & _ & Ex'). destruct (Hframe y Hy) as (_ & _ & Ey').
      rewrite Ex' in Ex. rewrite Ey' in Ey.
      destruct (HB x y p Hp Ex Ey) as (ls & Hring & Hxl & Hyl).
      destruct (Hout ls x Hring Hxl Hx) as [Hring' _]. eauto.
  - intros x p Ex Hp.
    assert (Hold : p ∉ deleted σ).
    { destruct (decide (x ∈ T)) as [Hx|Hx].
      - destruct (Horigin x p Hx Ex Hp) as [(w & _ & Ew)|[? _]]; [|done].
        by apply (HC w).
      - destruct (Hframe x Hx) as (_ & _ & Ex'). rewrite Ex' in Ex. by apply (HC x). }
    destruct Hdel as [->|(d & w & Ed & Hd & Hw & Ew & Hgone)]; [done|]. rewrite Ed.
    rewrite elem_of_app, list_elem_of_singleton. intros [?| ->]; [done|].
    destruct (decide (x ∈ T)) as [Hx|Hx]; [by apply (Hgone x)|].
    destruct (Hframe x Hx) as (_ & _ & Ex'). rewrite Ex' in Ex.
    destruct (HB w x d Hd Ew Ex) as (ls & Hring & Hwl & Hxl).
    apply Hx. by apply (Hclosed ls w x).
  - destruct Hdel as [->|(d & w & Ed & Hd & Hw & Ew & _)]; [done|]. rewrite Ed.
    apply NoDup_app. split_and!; [done| |apply NoDup_singleton].
    intros u Hu Hu'. apply list_elem_of_singleton in Hu' as ->.
    by apply (HC w d).
Qed.


(** Such an operation loses no resource if the handles of [T] lose none. *)
Lemma kept_local σ σ' T :
  (∀ u, u ∉ T → lft σ' u = lft σ u ∧ rgt σ' u = rgt σ u ∧ rsrc σ' u = rsrc σ u) →
  (deleted σ' = deleted σ ∨ ∃ d, deleted σ' = deleted σ ++ [d]) →
  (∀ u p, u ∈ T → rsrc σ u = Some p → p ≠ nullptr →
     (∃ v, rsrc σ' v = Some p) ∨ p ∈ deleted σ') →
  kept σ σ'.
Proof.
  intros Hframe Hdel Hkeep. split.
  - intros p Hp. destruct Hdel as [->|[d ->]]; [done|]. set_solver.
  - intros x p E Hp. destruct (decide (x ∈ T)) as [Hx|Hx]; [by eapply Hkeep|].
    left. exists x. destruct (Hframe x Hx) as (_ & _ & ->). done.
Qed.

Lemma kept_refl σ : kept σ σ.
Proof. split; [done|]. intros x p E _. eauto. Qed.

Lemma kept_trans σ1 σ2 σ3 : kept σ1 σ2 → kept σ2 σ3 → kept σ1 σ3.
Proof.
  intros [Hd1 Hk1] [Hd2 Hk2]. split; [auto|].
  intros x p E Hp. destruct (Hk1 x p E Hp) as [[y Ey]|?]; [|auto].
  by apply (Hk2 y).
Qed.

End soundness.

Section sound_operations.
Implicit Types (σ : state) (x y z this rhs a b : loc) (p q : ptr).
Implicit Types (ls rest T : list loc).

Lemma owns_lookup σ ls p u : owns σ ls p → u ∈ ls → rsrc σ u = Some p.
Proof. unfold owns. rewrite Forall_forall. auto. Qed.

Lemma fresh_not_held σ p x :
  fresh σ p → p ≠ nullptr → rsrc σ x ≠ Some p.
Proof.
  intros [?|[_ H]] ?; [done|]. by apply holds_none_spec.
Qed.

Lemma fresh_not_deleted σ p : fresh σ p → p ≠ nullptr → p ∉ deleted σ.
Proof. by intros [?|[? _]] ?. Qed.

(** The rings of a sound state that meet the ring of [x] lie in it. *)
Lemma ring_closed σ x rest ls z u :
  ring σ (x :: rest) → ring σ ls → z ∈ ls → z ∈ x :: rest → u ∈ ls →
  u ∈ x :: rest.
Proof. intros Hr Hls Hz Hz' Hu. by apply (ring_same_members σ ls (x :: rest) z u). Qed.

Lemma sound_raw σ this p :
  sound σ → ¬ live σ this → fresh σ p →
  sound (st_alloc this (mk_linked_ptr p (mk_base this this)) σ) ∧
  kept σ (st_alloc this (mk_linked_ptr p (mk_base this this)) σ).
Proof.
  intros Hs F Hp.
  set (σ' := st_alloc this (mk_linked_ptr p (mk_base this this)) σ).
  assert (Hring : ring σ' [this])
    by (apply ring_singleton; unfold σ'; split; observe; split_addr).
  assert (Hown : owns σ' [this] p).
  { apply Forall_singleton. unfold σ'. observe. split_addr. }
  assert (Hfr : ∀ u, u ∉ [this] →
            lft σ' u = lft σ u ∧ rgt σ' u = rgt σ u ∧ rsrc σ' u = rsrc σ u).
  { intros u Hu. rewrite list_elem_of_singleton in Hu. unfold σ'. observe. split_addr. }
  split; cycle 1.
  { apply (kept_local σ σ' [this] Hfr); [by left|].
    intros u p' Hu E _. apply list_elem_of_singleton in Hu as ->.
    destruct F. eauto with heap_db. }
  apply (sound_local σ σ' [this] Hs Hfr).
  - intros ls z u Hr Hz Hz' _. apply list_elem_of_singleton in Hz' as ->.
    destruct F. by eapply ring_live.
  - intros u Hu _. exists [this], p. done.
  - intros u v p' Hu Hv _ _ _. exists [this]. done.
  - intros u p' Hu E Hp'. apply list_elem_of_singleton in Hu as ->.
    assert (p' = p) as -> by (rewrite (owns_lookup _ _ _ this Hown) in E; [congruence|set_solver]).
    right. split; [by apply fresh_not_deleted|]. intros v. by apply fresh_not_held.
  - by left.
Qed.

Lemma sound_copy σ this rhs :
  sound σ → ¬ live σ this → live σ rhs →
  ∃ σ', ctor_copy this rhs σ = Done () σ' ∧ sound σ' ∧ kept σ σ'.
Proof.
  intros Hs F L.
  destruct (ring_of_live σ rhs Hs L) as (rest & p & Hring & Hown).
  destruct (ring_head_rgt _ _ _ Hring) as (r & Hr & Lr).
  assert (Hp : rsrc σ rhs = Some p) by (apply (owns_lookup _ _ _ _ Hown); set_solver).
  assert (Hrin : r ∈ rhs :: rest).
  { destruct rest as [|y ys].
    - apply ring_singleton in Hring as [_ E]. rewrite Hr in E. injection E as ->. set_solver.
    - destruct (ring_head_links _ _ _ _ Hring) as (_ & _ & _ & E & _).
      rewrite Hr in E. injection E as ->. set_solver. }
  assert (Hnotin : this ∉ rhs :: rest)
    by (intros Hin; apply F; by eapply ring_live).
  destruct (ctor_copy_ring _ _ _ _ _ F Hring Hp)
    as (σ' & Hrun & Hring' & Hthis & Hdel & Hother).
  pose proof (ctor_copy_ok _ _ _ _ _ F Hr Lr Hp) as Hclosed.
  rewrite Hrun in Hclosed. injection Hclosed as Hσ'.
  assert (Hown' : owns σ' (rhs :: this :: rest) p).
  { unfold owns. rewrite Forall_forall. intros u Hu.
    destruct (decide (u = this)) as [->|Hne]; [done|].
    rewrite Hother by done. apply (owns_lookup _ _ _ _ Hown). set_solver. }
  exists σ'. split; [done|].
  assert (Hfr : ∀ u, u ∉ this :: rhs :: rest →
            lft σ' u = lft σ u ∧ rgt σ' u = rgt σ u ∧ rsrc σ' u = rsrc σ u).
  { intros u Hu. rewrite not_elem_of_cons in Hu. destruct Hu as [Hu1 Hu2].
    assert (u ≠ rhs) by set_solver.
    assert (u ≠ r) by (intros ->; done).
    assert (La : live (st_alloc this (mk_linked_ptr nullptr (mk_base this this)) σ) rhs)
      by (by apply live_alloc).
    assert (La' : live (st_alloc this (mk_linked_ptr nullptr (mk_base this this)) σ) r)
      by (by apply live_alloc).
    rewrite Hσ'. unfold inserted. observe.
    rewrite !(decide_False (P := this = u)) by done.
    rewrite !(decide_False (P := rhs = u)) by done.
    rewrite !(decide_False (P := r = u)) by done. done. }
  split; cycle 1.
  { apply (kept_local σ σ' (this :: rhs :: rest) Hfr); [by left|].
    intros u p' Hu E _. left. exists rhs.
    apply elem_of_cons in Hu as [->|Hu]; [destruct F; eauto with heap_db|].
    rewrite (owns_lookup _ _ _ u Hown) in E by done.
    rewrite (owns_lookup _ _ _ rhs Hown') by set_solver. done. }
  apply (sound_local σ σ' (this :: rhs :: rest) Hs Hfr).
  - intros ls z u Hls Hz Hz' Hu. apply elem_of_cons in Hz' as [->|Hz'].
    + destruct F. by eapply ring_live.
    + right. by eapply (ring_closed σ rhs rest ls z u).
  - intros u Hu _. exists (rhs :: this :: rest), p. split_and!; [done..|set_solver].
  - intros u v p' Hu Hv _ _ _. exists (rhs :: this :: rest). split_and!; [done|set_solver..].
  - intros u p' Hu E Hp'. left. exists rhs. split; [set_solver|].
    rewrite (owns_lookup _ _ _ u Hown') in E by set_solver. congruence.
  - by left.
Qed.

(** [reset(q)] on the first node of an intact ring. *)
Lemma reset_to_head σ x rest p q :
  ring σ (x :: rest) → owns σ (x :: rest) p →
  ∃ σ', reset_to x q σ = Done () σ' ∧
    singleton σ' x ∧ rsrc σ' x = Some q ∧
    (∀ u, u ≠ x → rsrc σ' u = rsrc σ u) ∧
    (∀ u, u ∉ x :: rest → lft σ' u = lft σ u ∧ rgt σ' u = rgt σ u) ∧
    ((rest = [] ∧
      deleted σ' = if decide (p = nullptr) then deleted σ else deleted σ ++ [p]) ∨
     (rest ≠ [] ∧ ring σ' rest ∧ deleted σ' = deleted σ)).
Proof.
  intros Hring Hown.
  assert (Hpx : rsrc σ x = Some p) by (apply (owns_lookup _ _ _ _ Hown); set_solver).
  assert (Lx : live σ x) by eauto with heap_db.
  destruct rest as [|y ys].
  - apply ring_singleton in Hring.
    exists (st_set_ptr x q (st_delete p σ)). split_and!.
    + by apply reset_to_unique.
    + destruct Hring. split; by observe.
    + observe. split_addr.
    + intros u Hu. observe. split_addr.
    + intros u Hu. by observe.
    + left. split; [done|]. by observe.
  - destruct (reset_to_ring _ _ _ _ q Hring)
      as (w & Hw & Hl & Hr & Hreset & Hring' & Hsing).
    assert (Hwin : w ∈ y :: ys) by (by apply last_Some_elem_of).
    assert (Lw : live σ w) by (eapply ring_live; [exact Hring|set_solver]).
    assert (Ly : live σ y) by (eapply ring_live; [exact Hring|set_solver]).
    exists (st_set_ptr x q (erased x w y σ)). split_and!; try done.
    + unfold erased. observe. split_addr.
    + intros u Hu. unfold erased. observe. split_addr.
    + intros u Hu. rewrite !not_elem_of_cons in Hu. destruct Hu as (? & ? & ?).
      assert (u ≠ w) by (intros ->; set_solver).
      unfold erased. observe.
      rewrite !(decide_False (P := x = u)) by done.
      rewrite !(decide_False (P := w = u)) by done.
      rewrite !(decide_False (P := y = u)) by done. done.
    + right. done.
Qed.

Lemma sound_reset_to σ x q :
  sound σ → live σ x → fresh σ q →
  ∃ σ', reset_to x q σ = Done () σ' ∧ sound σ' ∧ kept σ σ' ∧
        rsrc σ' x = Some q.
Proof.
  intros Hs L Hq.
  destruct (ring_of_live σ x Hs L) as (rest & p & Hring & Hown).
  assert (Hpx : rsrc σ x = Some p) by (apply (owns_lookup _ _ _ _ Hown); set_solver).
  assert (Hnd : x ∉ rest) by (apply ring_NoDup, NoDup_cons in Hring as [? _]; done).
  destruct (reset_to_head σ x rest p q Hring Hown)
    as (σ' & Hrun & Hsing & Hqx & Hrsrc & Hframe & Hcase).
  assert (Hrest : ∀ u, u ∈ rest → rsrc σ' u = Some p).
  { intros u Hu. rewrite Hrsrc by (intros ->; done).
    apply (owns_lookup _ _ _ _ Hown). set_solver. }
  assert (Hqp : q ≠ nullptr → q ≠ p).
  { intros Hn ->. by apply (fresh_not_held σ p x Hq). }
  exists σ'. split; [done|].
  assert (Hfr : ∀ u, u ∉ x :: rest →
            lft σ' u = lft σ u ∧ rgt σ' u = rgt σ u ∧ rsrc σ' u = rsrc σ u).
  { intros u Hu. destruct (Hframe u Hu) as [-> ->]. split_and!; try done.
    apply Hrsrc. set_solver. }
  split_and!; [|
    apply (kept_local σ σ' (x :: rest) Hfr);
      [destruct Hcase as [[_ ->]|(_ & _ & ->)]; [case_decide; eauto|by left]|] |done].
  2:{ intros u p' Hu E Hp'.
      rewrite (owns_lookup _ _ _ u Hown Hu) in E. injection E as <-.
      destruct Hcase as [[-> Hdel]|(Hne & _ & _)].
      - right. rewrite Hdel, decide_False by done. set_solver.
      - left. destruct rest as [|y ys]; [done|]. exists y. apply Hrest. set_solver. }
  apply (sound_local σ σ' (x :: rest) Hs Hfr).
  - intros ls z u Hls Hz Hz' Hu. by eapply (ring_closed σ x rest ls z u).
  - intros u Hu _. apply elem_of_cons in Hu as [->|Hu].
    + exists [x], q. split_and!; [by apply ring_singleton|by apply Forall_singleton|set_solver].
    + destruct Hcase as [[-> _]|(_ & Hring' & _)]; [set_solver|].
      exists rest, p. split_and!; try done. unfold owns. rewrite Forall_forall. done.
  - intros u v p' Hu Hv Hp' Eu Ev.
    apply elem_of_cons in Hu as [->|Hu]; apply elem_of_cons in Hv as [->|Hv].
    + exists [x]. split_and!; [by apply ring_singleton|set_solver..].
    + rewrite Hqx in Eu. rewrite (Hrest v Hv) in Ev. destruct Hqp; congruence.
    + rewrite Hqx in Ev. rewrite (Hrest u Hu) in Eu. destruct Hqp; congruence.
    + destruct Hcase as [[-> _]|(_ & Hring' & _)]; [set_solver|].
      exists rest. done.
  - intros u p' Hu E Hp'. apply elem_of_cons in Hu as [->|Hu].
    + right. assert (p' = q) as -> by congruence.
      split; [by apply fresh_not_deleted|]. intros v. by apply fresh_not_held.
    + left. exists x. split; [set_solver|]. rewrite (Hrest u Hu) in E. congruence.
  - destruct Hcase as [[-> Hdel]|(_ & _ & Hdel)]; [|by left].
    destruct (decide (p = nullptr)) as [Hn|Hn]; [by left|].
    right. exists p, x. split_and!; try done; [set_solver|].
    intros u Hu. apply list_elem_of_singleton in Hu as ->. rewrite Hqx.
    intros [= ->]. destruct (decide (p = nullptr)); [done|by apply Hqp].
Qed.

Lemma fresh_nullptr σ : fresh σ nullptr.
Proof. by left. Qed.

Lemma sound_dtor σ x :
  sound σ → live σ x →
  ∃ σ', dtor x σ = Done () σ' ∧ sound σ' ∧ kept σ σ'.
Proof.
  intros Hs L.
  destruct (ring_of_live σ x Hs L) as (rest & p & Hring & Hown).
  assert (Hpx : rsrc σ x = Some p) by (apply (owns_lookup _ _ _ _ Hown); set_solver).
  assert (Hnd : x ∉ rest) by (apply ring_NoDup, NoDup_cons in Hring as [? _]; done).
  destruct (reset_to_head σ x rest p nullptr Hring Hown)
    as (σ1 & Hrun & Hsing & Hqx & Hrsrc & Hframe & Hcase).
  assert (L1 : live σ1 x) by eauto with heap_db.
  assert (Hrest : ∀ u, u ∈ rest → rsrc (st_dealloc x σ1) u = Some p).
  { intros u Hu. assert (u ≠ x) by (intros ->; done).
    rewrite rsrc_dealloc, decide_False by done. rewrite Hrsrc by done.
    apply (owns_lookup _ _ _ _ Hown). set_solver. }
  exists (st_dealloc x σ1). split.
  { unfold dtor. rewrite reset_is_reset_to, (bind_done _ _ _ _ _ Hrun).
    by apply dealloc_ok. }
  assert (Hgone : rsrc (st_dealloc x σ1) x = None)
    by (rewrite rsrc_dealloc; by rewrite decide_True).
  assert (Hfr : ∀ u, u ∉ x :: rest →
            lft (st_dealloc x σ1) u = lft σ u ∧ rgt (st_dealloc x σ1) u = rgt σ u ∧
            rsrc (st_dealloc x σ1) u = rsrc σ u).
  { intros u Hu. assert (x ≠ u) by set_solver.
    rewrite lft_dealloc, rgt_dealloc, rsrc_dealloc, !decide_False by done.
    destruct (Hframe u Hu) as [-> ->]. split_and!; try done.
    apply Hrsrc. by apply not_eq_sym. }
  split; cycle 1.
  { apply (kept_local σ (st_dealloc x σ1) (x :: rest) Hfr).
    - simpl. destruct Hcase as [[_ ->]|(_ & _ & ->)]; [case_decide; eauto|by left].
    - intros u p' Hu E Hp'.
      rewrite (owns_lookup _ _ _ u Hown Hu) in E. injection E as <-.
      destruct Hcase as [[-> Hdel]|(Hne & _ & _)].
      + right. simpl. rewrite Hdel, decide_False by done. set_solver.
      + left. destruct rest as [|y ys]; [done|]. exists y. apply Hrest. set_solver. }
  apply (sound_local σ (st_dealloc x σ1) (x :: rest) Hs Hfr).
  - intros ls z u Hls Hz Hz' Hu. by eapply (ring_closed σ x rest ls z u).
  - intros u Hu Lu. apply elem_of_cons in Hu as [->|Hu].
    { apply live_rsrc_iff in Lu. rewrite Hgone in Lu. by destruct Lu. }
    destruct Hcase as [[-> _]|(_ & Hring' & _)]; [set_solver|].
    exists rest, p. split_and!; try done.
    + eapply ring_frame; [|exact Hring']. intros v Hv.
      assert (x ≠ v) by (intros ->; done).
      by rewrite lft_dealloc, rgt_dealloc, !decide_False.
    + unfold owns. rewrite Forall_forall. done.
  - intros u v p' Hu Hv Hp' Eu Ev.
    apply elem_of_cons in Hu as [->|Hu]; [congruence|].
    apply elem_of_cons in Hv as [->|Hv]; [congruence|].
    destruct Hcase as [[-> _]|(_ & Hring' & _)]; [set_solver|].
    exists rest. split_and!; try done.
    eapply ring_frame; [|exact Hring']. intros w Hw.
    assert (x ≠ w) by (intros ->; done).
    by rewrite lft_dealloc, rgt_dealloc, !decide_False.
  - intros u p' Hu E Hp'. apply elem_of_cons in Hu as [->|Hu]; [congruence|].
    left. exists x. split; [set_solver|]. rewrite (Hrest u Hu) in E. congruence.
  - destruct Hcase as [[-> Hdel]|(_ & _ & Hdel)]; [|by left].
    destruct (decide (p = nullptr)) as [Hn|Hn]; [by left|].
    right. exists p, x. split_and!; try done; [set_solver|].
    intros u Hu. apply list_elem_of_singleton in Hu as ->. congruence.
Qed.

End sound_operations.

Section sound_programs.
Implicit Types (σ : state) (x y z this rhs a b : loc) (p q : ptr).
Implicit Types (ls rest T xs ys : list loc) (o : op) (os : list op).

Lemma singleton_ring_nil σ x rest :
  ring σ (x :: rest) → singleton σ x → rest = [].
Proof.
  intros Hring [_ Hr]. destruct rest as [|y ys]; [done|].
  destruct (ring_head_links _ _ _ _ Hring) as (_ & _ & _ & Hr' & _ & _ & Hne & _).
  congruence.
Qed.

Lemma sound_swap σ a b :
  sound σ → live σ a → live σ b →
  (rsrc σ a = rsrc σ b ∨ (singleton σ a ↔ singleton σ b)) →
  ∃ σ', swap a b σ = Done () σ' ∧ sound σ' ∧ kept σ σ'.
Proof.
  intros Hs La Lb Hcase.
  destruct (ring_of_live σ a Hs La) as (ra & p & HringA & HownA).
  destruct (ring_of_live σ b Hs Lb) as (rb & q & HringB & HownB).
  assert (Hp : rsrc σ a = Some p) by (apply (owns_lookup _ _ _ _ HownA); set_solver).
  assert (Hq : rsrc σ b = Some q) by (apply (owns_lookup _ _ _ _ HownB); set_solver).
  destruct (decide (p = q)) as [->|Hpq].
  { exists σ. split_and!; [|done|apply kept_refl].
    by apply (swap_same_reference _ _ _ q). }
  destruct Hcase as [E|Hboth]; [congruence|].
  assert (Hdisj : ∀ u, u ∈ a :: ra → u ∉ b :: rb).
  { intros u Hu Hu'. apply Hpq.
    assert (a ∈ b :: rb)
      by (apply (ring_same_members σ (a :: ra) (b :: rb) u a); set_solver).
    rewrite (owns_lookup _ _ _ a HownB) in Hp by done. congruence. }
  assert (Hab : a ≠ b) by (intros ->; apply (Hdisj b); set_solver).
  assert (Hclosed : ∀ ls z u, ring σ ls → z ∈ ls →
            z ∈ (a :: ra) ++ (b :: rb) → u ∈ ls → u ∈ (a :: ra) ++ (b :: rb)).
  { intros ls z u Hls Hz Hz' Hu. apply elem_of_app in Hz' as [Hz'|Hz'];
      apply elem_of_app; [left|right].
    - by apply (ring_closed σ a ra ls z u).
    - by apply (ring_closed σ b rb ls z u). }
  destruct ra as [|x1 xs], rb as [|y1 ys].
  - apply ring_singleton in HringA, HringB.
    destruct (swap_sole_owners σ a b p q HringA HringB Hp Hq Hpq) as [Hrun _].
    set (σ' := st_set_ptr b p (st_set_ptr a q σ)).
    assert (Ea : rsrc σ' a = Some q) by (unfold σ'; observe; split_addr).
    assert (Eb : rsrc σ' b = Some p) by (unfold σ'; observe; split_addr).
    assert (Hsa : singleton σ' a) by (destruct HringA; unfold σ'; split; by observe).
    assert (Hsb : singleton σ' b) by (destruct HringB; unfold σ'; split; by observe).
    exists σ'. split; [done|].
    assert (Hfr : ∀ u, u ∉ [a] ++ [b] →
              lft σ' u = lft σ u ∧ rgt σ' u = rgt σ u ∧ rsrc σ' u = rsrc σ u).
    { intros u Hu. assert (u ≠ a ∧ u ≠ b) as [? ?] by set_solver.
      unfold σ'. observe. split_addr. }
    split; cycle 1.
    { apply (kept_local σ σ' ([a] ++ [b]) Hfr); [by left|].
      intros u p' Hu E _. left.
      apply elem_of_app in Hu as [Hu|Hu]; apply list_elem_of_singleton in Hu as ->.
      - exists b. congruence.
      - exists a. congruence. }
    apply (sound_local σ σ' ([a] ++ [b]) Hs Hfr); try done.
    + intros u Hu _. apply elem_of_app in Hu as [Hu|Hu];
        apply list_elem_of_singleton in Hu as ->.
      * exists [a], q. split_and!;
          [by apply ring_singleton|by apply Forall_singleton|set_solver].
      * exists [b], p. split_and!;
          [by apply ring_singleton|by apply Forall_singleton|set_solver].
    + intros u v p' Hu Hv Hp' Eu Ev.
      apply elem_of_app in Hu as [Hu|Hu]; apply list_elem_of_singleton in Hu as ->;
        apply elem_of_app in Hv as [Hv|Hv]; apply list_elem_of_singleton in Hv as ->;
        try congruence.
      * exists [a]. split_and!; [by apply ring_singleton|set_solver..].
      * exists [b]. split_and!; [by apply ring_singleton|set_solver..].
    + intros u p' Hu E Hp'. left.
      apply elem_of_app in Hu as [Hu|Hu]; apply list_elem_of_singleton in Hu as ->.
      * exists b. split; [set_solver|congruence].
      * exists a. split; [set_solver|congruence].
    + by left.
  - apply ring_singleton in HringA. apply Hboth in HringA.
    by apply (singleton_ring_nil _ _ _ HringB) in HringA.
  - apply ring_singleton in HringB. apply Hboth in HringB.
    by apply (singleton_ring_nil _ _ _ HringA) in HringB.
  - destruct (swap_shared_rings _ _ _ _ _ _ _ _ _ HringA HringB Hdisj HownA HownB Hpq)
      as (σ' & Hrun & HringA' & HringB' & HownA' & HownB' & Hdel & Hframe).
    assert (HinA : ∀ u, u ∈ a :: x1 :: xs → u ∈ b :: x1 :: xs ∨ u ∈ a :: y1 :: ys)
      by set_solver.
    assert (HinB : ∀ u, u ∈ b :: y1 :: ys → u ∈ b :: x1 :: xs ∨ u ∈ a :: y1 :: ys)
      by set_solver.
    assert (Hin : ∀ u, u ∈ (a :: x1 :: xs) ++ (b :: y1 :: ys) →
               u ∈ b :: x1 :: xs ∨ u ∈ a :: y1 :: ys).
    { intros u Hu. apply elem_of_app in Hu as [Hu|Hu]; auto. }
    exists σ'. split; [done|].
    assert (Hfr : ∀ u, u ∉ (a :: x1 :: xs) ++ (b :: y1 :: ys) →
              lft σ' u = lft σ u ∧ rgt σ' u = rgt σ u ∧ rsrc σ' u = rsrc σ u).
    { intros u Hu. rewrite not_elem_of_app in Hu. destruct Hu. by apply Hframe. }
    split; cycle 1.
    { apply (kept_local σ σ' ((a :: x1 :: xs) ++ (b :: y1 :: ys)) Hfr); [by left|].
      intros u p' Hu E _. left. apply elem_of_app in Hu as [Hu|Hu].
      - exists b. rewrite (owns_lookup _ _ _ u HownA Hu) in E.
        rewrite (owns_lookup _ _ _ b HownA') by set_solver. done.
      - exists a. rewrite (owns_lookup _ _ _ u HownB Hu) in E.
        rewrite (owns_lookup _ _ _ a HownB') by set_solver. done. }
    apply (sound_local σ σ' ((a :: x1 :: xs) ++ (b :: y1 :: ys)) Hs Hfr); try done.
    + intros u Hu _. destruct (Hin u Hu) as [H|H].
      * exists (b :: x1 :: xs), p. done.
      * exists (a :: y1 :: ys), q. done.
    + intros u v p' Hu Hv Hp' Eu Ev.
      destruct (Hin u Hu) as [Hu'|Hu'], (Hin v Hv) as [Hv'|Hv'].
      * exists (b :: x1 :: xs). done.
      * rewrite (owns_lookup _ _ _ _ HownA' Hu') in Eu.
        rewrite (owns_lookup _ _ _ _ HownB' Hv') in Ev. congruence.
      * rewrite (owns_lookup _ _ _ _ HownB' Hu') in Eu.
        rewrite (owns_lookup _ _ _ _ HownA' Hv') in Ev. congruence.
      * exists (a :: y1 :: ys). done.
    + intros u p' Hu E Hp'. left. destruct (Hin u Hu) as [Hu'|Hu'].
      * exists a. split; [set_solver|].
        rewrite (owns_lookup _ _ _ _ HownA' Hu') in E. congruence.
      * exists b. split; [set_solver|].
        rewrite (owns_lookup _ _ _ _ HownB' Hu') in E. congruence.
    + by left.
Qed.

Lemma exec_sound σ o :
  sound σ → permitted σ o →
  ∃ σ', exec o σ = Done () σ' ∧ sound σ' ∧ kept σ σ' ∧
        ∀ p, p ∈ handed o → ∃ y, rsrc σ' y = Some p.
Proof.
  intros Hs [Hok Hfresh]. destruct o as [h|h p|h rhs|h|h p|h|a b]; simpl in *.
  - exists (st_alloc h (mk_linked_ptr nullptr (mk_base h h)) σ).
    destruct (sound_raw σ h nullptr Hs Hok (fresh_nullptr σ)).
    split_and!; try done; [by apply alloc_ok|]. intros p Hp. set_solver.
  - exists (st_alloc h (mk_linked_ptr p (mk_base h h)) σ).
    destruct (sound_raw σ h p Hs Hok Hfresh).
    split_and!; try done; [by apply alloc_ok|].
    intros p' Hp. apply list_elem_of_singleton in Hp as ->.
    exists h. observe. by rewrite decide_True.
  - destruct Hok as [F L].
    destruct (sound_copy σ h rhs Hs F L) as (σ' & ? & ? & ?).
    exists σ'. split_and!; try done. intros p Hp. set_solver.
  - rewrite reset_is_reset_to.
    destruct (sound_reset_to σ h nullptr Hs Hok (fresh_nullptr σ)) as (σ' & ? & ? & ? & _).
    exists σ'. split_and!; try done. intros p Hp. set_solver.
  - destruct (sound_reset_to σ h p Hs Hok Hfresh) as (σ' & ? & ? & ? & ?).
    exists σ'. split_and!; try done.
    intros p' Hp. apply list_elem_of_singleton in Hp as ->. eauto.
  - destruct (sound_dtor σ h Hs Hok) as (σ' & ? & ? & ?).
    exists σ'. split_and!; try done. intros p Hp. set_solver.
  - destruct Hok as (La & Lb & Hcase).
    destruct (sound_swap σ a b Hs La Lb Hcase) as (σ' & ? & ? & ?).
    exists σ'. split_and!; try done. intros p Hp. set_solver.
Qed.

Lemma sound_empty : sound ex_empty.
Proof.
  split_and!.
  - intros x [c Hc]. done.
  - intros x y p _ E. done.
  - intros x p E. done.
  - apply NoDup_nil_2.
Qed.

End sound_programs.

Section sound_runs.
Implicit Types (σ : state) (o : op) (os : list op).

Lemma run_kept os : ∀ σ,
  sound σ → permitted_all σ os →
  ∃ σ', run os σ = Done () σ' ∧ sound σ' ∧ kept σ σ' ∧
    (∀ p, p ∈ flat_map handed os → p ≠ nullptr →
          (∃ y, rsrc σ' y = Some p) ∨ p ∈ deleted σ').
Proof.
  induction os as [|o os IH]; intros σ Hs Hok; simpl in *.
  - exists σ. split_and!; try done; [apply kept_refl|]. intros p Hp. set_solver.
  - destruct Hok as [Ho Hrest].
    destruct (exec_sound σ o Hs Ho) as (σ1 & Hrun & Hs1 & Hkept1 & Hhanded).
    rewrite Hrun in Hrest.
    destruct (IH σ1 Hs1 Hrest) as (σ' & Hrun' & Hs' & Hkept' & Hlater).
    exists σ'. split_and!; try done.
    + by rewrite (bind_done _ _ _ _ _ Hrun).
    + by eapply kept_trans.
    + intros p Hin Hp. apply elem_of_app in Hin as [Hin|Hin]; [|by apply Hlater].
      destruct (Hhanded p Hin) as [y Ey]. destruct Hkept' as [_ Hk].
      by apply (Hk y).
Qed.

(** Property X23.  From a sound state, every sequence of operations,
    each permitted in the state it meets, runs to its end without fault
    and ends in a sound state: [delete] never runs twice on a resource,
    and never on a resource that a live handle still holds.  No resource
    is lost either: every resource held at the start or handed to a
    handle on the way is, at the end, held by a live handle or deleted. *)
Theorem run_sound os σ :
  sound σ → permitted_all σ os →
  ∃ σ', run os σ = Done () σ' ∧ sound σ' ∧
    NoDup (deleted σ') ∧
    (∀ x p, rsrc σ' x = Some p → p ≠ nullptr → p ∉ deleted σ') ∧
    (∀ p, p ≠ nullptr →
       (∃ x, rsrc σ x = Some p) ∨ p ∈ flat_map handed os →
       (∃ y, rsrc σ' y = Some p) ∨ p ∈ deleted σ').
Proof.
  intros Hs Hok.
  destruct (run_kept os σ Hs Hok) as (σ' & Hrun & Hs' & [_ Hkept] & Hhanded).
  exists σ'. pose proof Hs' as (_ & _ & HC & HD). split_and!; try done.
  intros p Hp [[x Ex]|Hin]; [by apply (Hkept x)|by apply Hhanded].
Qed.

Lemma run_sound_witness :
  ∃ σ', run [Raw 1 100; Copy 2 1; Copy 3 2; Raw 4 200; Copy 5 4;
             Swap 2 5; ResetTo 3 300; Reset 1; Destroy 5; Default 6;
             Copy 7 6; Swap 7 4; Destroy 2] ex_empty = Done () σ' ∧
    sound σ' ∧ NoDup (deleted σ') ∧
    (∀ x p, rsrc σ' x = Some p → p ≠ nullptr → p ∉ deleted σ') ∧
    (∀ p, p ≠ nullptr →
       (∃ x, rsrc ex_empty x = Some p) ∨
       p ∈ flat_map handed
             [Raw 1 100; Copy 2 1; Copy 3 2; Raw 4 200; Copy 5 4;
              Swap 2 5; ResetTo 3 300; Reset 1; Destroy 5; Default 6;
              Copy 7 6; Swap 7 4; Destroy 2] →
       (∃ y, rsrc σ' y = Some p) ∨ p ∈ deleted σ').
Proof.
  apply (run_sound
           [Raw 1 100; Copy 2 1; Copy 3 2; Raw 4 200; Copy 5 4;
            Swap 2 5; ResetTo 3 300; Reset 1; Destroy 5; Default 6;
            Copy 7 6; Swap 7 4; Destroy 2] ex_empty).
  - exact sound_empty.
  - apply (bool_decide_unpack _). vm_compute. exact I.
Defined.

End sound_runs.

(** ** The handles against plain holders of references *)

Section refinement.
Implicit Types (σ : state) (x y z this rhs a b h : loc) (p q : ptr).
Implicit Types (ls rest : list loc) (o : op) (os : list op).

Lemma holders_lookup σ x : holders σ !! x = rsrc σ x.
Proof. unfold holders, rsrc. by rewrite lookup_fmap. Qed.

Lemma holders_eq σ (m : gmap loc ptr) :
  (∀ u, rsrc σ u = m !! u) → holders σ = m.
Proof. intros H. apply map_eq. intros u. by rewrite holders_lookup. Qed.

Lemma sole_holder_spec σ h p :
  sole_holder (holders σ) h p ↔ ∀ u, rsrc σ u = Some p → u = h.
Proof.
  unfold sole_holder. rewrite map_Forall_lookup. split.
  - intros H u E. rewrite <- holders_lookup in E.
    destruct (H u p E) as [?|?]; done.
  - intros H u v E. rewrite holders_lookup in E.
    destruct (decide (v = p)) as [->|?]; [left; by apply H|by right].
Qed.

(** In a sound state the ring of a handle with a resource has no other
    members exactly when no other handle holds the resource. *)
Lemma sole_holder_ring σ x rest p :
  sound σ → ring σ (x :: rest) → owns σ (x :: rest) p → p ≠ nullptr →
  rest = [] ↔ sole_holder (holders σ) x p.
Proof.
  intros (_ & HB & _) Hring Hown Hp. rewrite sole_holder_spec. split.
  - intros -> u E.
    assert (Ex : rsrc σ x = Some p) by (apply (owns_lookup _ _ _ _ Hown); set_solver).
    destruct (HB x u p Hp Ex E) as (ls & Hls & Hx & Hu).
    assert (u ∈ [x]) by (apply (ring_same_members σ ls [x] x u); set_solver).
    set_solver.
  - intros H. destruct rest as [|y ys]; [done|].
    assert (y = x) as -> by (apply H, (owns_lookup _ _ _ _ Hown); set_solver).
    apply ring_NoDup, NoDup_cons in Hring as [Hx _]. set_solver.
Qed.

Lemma release_head σ x rest p :
  sound σ → ring σ (x :: rest) → owns σ (x :: rest) p →
  release (holders σ) (deleted σ) x =
  if decide (rest = [] ∧ p ≠ nullptr) then deleted σ ++ [p] else deleted σ.
Proof.
  intros Hs Hring Hown. unfold release. rewrite holders_lookup.
  rewrite (owns_lookup _ _ _ x Hown) by set_solver.
  destruct (decide (p = nullptr)) as [->|Hp].
  - rewrite !decide_False; [done|intros [_ ?]; done|intros [? _]; done].
  - pose proof (sole_holder_ring σ x rest p Hs Hring Hown Hp) as Hiff.
    destruct (decide (rest = [])) as [E|E].
    + rewrite !decide_True; [done|done|]. split; [done|by apply Hiff].
    + rewrite !decide_False; [done|intros [? _]; done|].
      intros [_ ?]. by apply E, Hiff.
Qed.

Lemma exec_effect σ o :
  sound σ → permitted σ o →
  ∃ σ', exec o σ = Done () σ' ∧
    (holders σ', deleted σ') = model_step o (holders σ, deleted σ).
Proof.
  intros Hs [Hok Hfresh]. destruct o as [h|h p|h rhs|h|h p|h|a b]; simpl in *.
  - exists (st_alloc h (mk_linked_ptr nullptr (mk_base h h)) σ). split.
    + by apply alloc_ok.
    + f_equal. apply holders_eq. intros u. rewrite rsrc_alloc, lookup_insert.
      by rewrite holders_lookup.
  - exists (st_alloc h (mk_linked_ptr p (mk_base h h)) σ). split.
    + by apply alloc_ok.
    + f_equal. apply holders_eq. intros u. rewrite rsrc_alloc, lookup_insert.
      by rewrite holders_lookup.
  - destruct Hok as [F L].
    destruct (ring_of_live σ rhs Hs L) as (rest & p & Hring & Hown).
    assert (Hp : rsrc σ rhs = Some p) by (apply (owns_lookup _ _ _ _ Hown); set_solver).
    destruct (ctor_copy_ring _ _ _ _ _ F Hring Hp)
      as (σ' & Hrun & _ & Hthis & Hdel & Hother).
    exists σ'. split; [done|]. rewrite holders_lookup, Hp, Hdel. f_equal.
    apply holders_eq. intros u. rewrite lookup_insert, holders_lookup.
    destruct (decide (h = u)) as [<-|?]; [done|]. by apply Hother, not_eq_sym.
  - destruct (ring_of_live σ h Hs Hok) as (rest & p & Hring & Hown).
    destruct (reset_to_head σ h rest p nullptr Hring Hown)
      as (σ' & Hrun & _ & Hq & Hrsrc & _ & Hcase).
    exists σ'. split; [by rewrite reset_is_reset_to|].
    rewrite (release_head σ h rest p Hs Hring Hown). f_equal.
    + apply holders_eq. intros u. rewrite lookup_insert, holders_lookup.
      destruct (decide (h = u)) as [<-|?]; [done|]. by apply Hrsrc, not_eq_sym.
    + destruct Hcase as [[-> ->]|(Hne & _ & ->)].
      * destruct (decide (p = nullptr)).
        -- rewrite decide_False; [done|intros [_ ?]; done].
        -- by rewrite decide_True.
      * rewrite decide_False; [done|intros [? _]; done].
  - destruct (ring_of_live σ h Hs Hok) as (rest & p' & Hring & Hown).
    destruct (reset_to_head σ h rest p' p Hring Hown)
      as (σ' & Hrun & _ & Hq & Hrsrc & _ & Hcase).
    exists σ'. split; [done|].
    rewrite (release_head σ h rest p' Hs Hring Hown). f_equal.
    + apply holders_eq. intros u. rewrite lookup_insert, holders_lookup.
      destruct (decide (h = u)) as [<-|?]; [done|]. by apply Hrsrc, not_eq_sym.
    + destruct Hcase as [[-> ->]|(Hne & _ & ->)].
      * destruct (decide (p' = nullptr)).
        -- rewrite decide_False; [done|intros [_ ?]; done].
        -- by rewrite decide_True.
      * rewrite decide_False; [done|intros [? _]; done].
  - destruct (ring_of_live σ h Hs Hok) as (rest & p & Hring & Hown).
    destruct (reset_to_head σ h rest p nullptr Hring Hown)
      as (σ1 & Hrun & _ & Hq & Hrsrc & _ & Hcase).
    assert (L1 : live σ1 h) by eauto with heap_db.
    exists (st_dealloc h σ1). split.
    { unfold dtor. rewrite reset_is_reset_to, (bind_done _ _ _ _ _ Hrun).
      by apply dealloc_ok. }
    rewrite (release_head σ h rest p Hs Hring Hown). f_equal.
    + apply holders_eq. intros u. rewrite rsrc_dealloc, lookup_delete, holders_lookup.
      destruct (decide (h = u)) as [<-|?]; [done|]. by apply Hrsrc, not_eq_sym.
    + simpl. destruct Hcase as [[-> ->]|(Hne & _ & ->)].
      * destruct (decide (p = nullptr)).
        -- rewrite decide_False; [done|intros [_ ?]; done].
        -- by rewrite decide_True.
      * rewrite decide_False; [done|intros [? _]; done].
  - destruct Hok as (La & Lb & Hcase).
    destruct (ring_of_live σ a Hs La) as (ra & p & HringA & HownA).
    destruct (ring_of_live σ b Hs Lb) as (rb & q & HringB & HownB).
    assert (Hp : rsrc σ a = Some p) by (apply (owns_lookup _ _ _ _ HownA); set_solver).
    assert (Hq : rsrc σ b = Some q) by (apply (owns_lookup _ _ _ _ HownB); set_solver).
    rewrite !holders_lookup, Hp, Hq.
    destruct (decide (p = q)) as [->|Hpq].
    { exists σ. split; [by apply (swap_same_reference _ _ _ q)|]. f_equal.
      symmetry. apply map_eq. intros u. rewrite !lookup_insert, holders_lookup.
      repeat case_decide; subst; done. }
    destruct Hcase as [E|Hboth]; [congruence|].
    assert (Hdisj : ∀ u, u ∈ a :: ra → u ∉ b :: rb).
    { intros u Hu Hu'. apply Hpq.
      assert (a ∈ b :: rb)
        by (apply (ring_same_members σ (a :: ra) (b :: rb) u a); set_solver).
      rewrite (owns_lookup _ _ _ a HownB) in Hp by done. congruence. }
    assert (Hab : a ≠ b) by (intros ->; apply (Hdisj b); set_solver).
    destruct ra as [|x1 xs], rb as [|y1 ys].
    + apply ring_singleton in HringA, HringB.
      destruct (swap_sole_owners σ a b p q HringA HringB Hp Hq Hpq) as [Hrun _].
      exists (st_set_ptr b p (st_set_ptr a q σ)). split; [done|]. f_equal.
      apply holders_eq. intros u. observe. rewrite !lookup_insert, holders_lookup.
      repeat case_decide; subst; done.
    + apply ring_singleton in HringA. apply Hboth in HringA.
      by apply (singleton_ring_nil _ _ _ HringB) in HringA.
    + apply ring_singleton in HringB. apply Hboth in HringB.
      by apply (singleton_ring_nil _ _ _ HringA) in HringB.
    + destruct (swap_shared_rings _ _ _ _ _ _ _ _ _ HringA HringB Hdisj HownA HownB Hpq)
        as (σ' & Hrun & _ & _ & HownA' & HownB' & Hdel & Hframe).
      exists σ'. split; [done|]. rewrite Hdel. f_equal.
      apply holders_eq. intros u. rewrite !lookup_insert, holders_lookup.
      destruct (decide (b = u)) as [<-|Hbu].
      { apply (owns_lookup _ _ _ _ HownA'). set_solver. }
      destruct (decide (a = u)) as [<-|Hau].
      { apply (owns_lookup _ _ _ _ HownB'). set_solver. }
      destruct (decide (u ∈ x1 :: xs)) as [Hu|Hu].
      { rewrite (owns_lookup _ _ _ u HownA') by set_solver.
        symmetry. apply (owns_lookup _ _ _ _ HownA). set_solver. }
      destruct (decide (u ∈ y1 :: ys)) as [Hu'|Hu'].
      { rewrite (owns_lookup _ _ _ u HownB') by set_solver.
        symmetry. apply (owns_lookup _ _ _ _ HownB). set_solver. }
      apply Hframe; set_solver.
Qed.

Lemma model_run_cons o os s : model_run (o :: os) s = model_run os (model_step o s).
Proof. done. Qed.

Lemma run_effect os : ∀ σ,
  sound σ → permitted_all σ os →
  ∃ σ', run os σ = Done () σ' ∧ sound σ' ∧
    (holders σ', deleted σ') = model_run os (holders σ, deleted σ).
Proof.
  induction os as [|o os IH]; intros σ Hs Hok.
  - exists σ. done.
  - simpl in Hok. destruct Hok as [Ho Hrest].
    destruct (exec_effect σ o Hs Ho) as (σ1 & Hrun & Heff).
    destruct (exec_sound σ o Hs Ho) as (σ1' & Hrun' & Hs1 & _).
    assert (σ1' = σ1) as -> by congruence.
    rewrite Hrun in Hrest.
    destruct (IH σ1 Hs1 Hrest) as (σ' & Hrun2 & ? & Heff2).
    exists σ'. split_and!; try done.
    + simpl. by rewrite (bind_done _ _ _ _ _ Hrun).
    + by rewrite model_run_cons, <- Heff.
Qed.

(** Property X24.  From a sound state, a sequence of permitted
    operations does to the references held by the handles, and to the log
    of deleted resources, what the same sequence does to a plain table of
    references in which a resource is deleted when the last handle that
    holds it lets go: the rings are a faithful reference count. *)
Theorem run_refines_model os σ :
  sound σ → permitted_all σ os →
  ∃ σ', run os σ = Done () σ' ∧ sound σ' ∧
    (holders σ', deleted σ') = model_run os (holders σ, deleted σ).
Proof. intros Hs Hok. by apply run_effect. Qed.

Lemma run_refines_model_witness :
  ∃ σ', run [Raw 1 100; Copy 2 1; Copy 3 2; Raw 4 200; Copy 5 4;
             Swap 2 5; ResetTo 3 300; Reset 1; Destroy 5; Default 6;
             Copy 7 6; Swap 7 4; Destroy 2] ex_empty = Done () σ' ∧
    sound σ' ∧
    (holders σ', deleted σ') =
    model_run [Raw 1 100; Copy 2 1; Copy 3 2; Raw 4 200; Copy 5 4;
               Swap 2 5; ResetTo 3 300; Reset 1; Destroy 5; Default 6;
               Copy 7 6; Swap 7 4; Destroy 2]
              (holders ex_empty, deleted ex_empty).
Proof.
  apply (run_refines_model
           [Raw 1 100; Copy 2 1; Copy 3 2; Raw 4 200; Copy 5 4;
            Swap 2 5; ResetTo 3 300; Reset 1; Destroy 5; Default 6;
            Copy 7 6; Swap 7 4; Destroy 2] ex_empty).
  - exact sound_empty.
  - apply (bool_decide_unpack _). vm_compute. exact I.
Defined.

End refinement.

(** ** Reasoning on the table of references *)

Section table.
Implicit Types (σ : state) (x y h a b u : loc) (p q : ptr) (o : op).
Implicit Types (m : gmap loc ptr) (D : list ptr) (os : list op).

Lemma live_holders σ x : live σ x ↔ is_Some (holders σ !! x).
Proof. by rewrite holders_lookup, live_rsrc_iff. Qed.

Lemma not_live_holders σ x : ¬ live σ x ↔ holders σ !! x = None.
Proof. by rewrite live_holders, eq_None_not_Some. Qed.

Lemma holds_none_holders σ p :
  holds_none σ p ↔ map_Forall (λ _ v, v ≠ p) (holders σ).
Proof.
  rewrite holds_none_spec, map_Forall_lookup. split.
  - intros H u v E ->. apply (H u). by rewrite <- holders_lookup.
  - intros H u E. rewrite <- holders_lookup in E. by apply (H u p).
Qed.

Lemma model_fresh_fresh σ p : model_fresh (holders σ, deleted σ) p ↔ fresh σ p.
Proof. unfold model_fresh, fresh. simpl. by rewrite holds_none_holders. Qed.

(** A handle with a resource is alone in its ring exactly when it is the
    sole holder of the resource. *)
Lemma singleton_sole_holder σ x p :
  sound σ → holders σ !! x = Some p → p ≠ nullptr →
  singleton σ x ↔ sole_holder (holders σ) x p.
Proof.
  intros Hs E Hp. rewrite holders_lookup in E.
  assert (L : live σ x) by (apply live_rsrc_iff; eauto).
  destruct (ring_of_live σ x Hs L) as (rest & p' & Hring & Hown).
  assert (p' = p) as ->.
  { rewrite (owns_lookup _ _ _ x Hown) in E by set_solver. congruence. }
  rewrite <- (sole_holder_ring σ x rest p Hs Hring Hown Hp). split.
  - by apply singleton_ring_nil.
  - intros ->. by apply ring_singleton.
Qed.

Lemma model_permitted_permitted σ o :
  sound σ → model_permitted (holders σ, deleted σ) o → permitted σ o.
Proof.
  intros Hs H. destruct o as [h|h p|h r|h|h p|h|a b]; simpl in *.
  - split; [|done]. by apply not_live_holders.
  - destruct H. split; [by apply not_live_holders|by apply model_fresh_fresh].
  - destruct H. split; [|done].
    split; [by apply not_live_holders|by apply live_holders].
  - split; [|done]. by apply live_holders.
  - destruct H. split; [by apply live_holders|by apply model_fresh_fresh].
  - split; [|done]. by apply live_holders.
  - destruct (holders σ !! a) as [p|] eqn:Ea; [|done].
    destruct (holders σ !! b) as [q|] eqn:Eb; [|done].
    split; [|done]. split_and!.
    + apply live_holders. eauto.
    + apply live_holders. eauto.
    + destruct H as [->|(Hp & Hq & Hiff)].
      * left. rewrite <- !holders_lookup. congruence.
      * right.
        by rewrite (singleton_sole_holder σ a p), (singleton_sole_holder σ b q).
Qed.

(** One operation, checked and traced on the table. *)
Lemma exec_model σ o :
  sound σ → model_permitted (holders σ, deleted σ) o →
  ∃ σ', exec o σ = Done () σ' ∧ sound σ' ∧
    holders σ' = (model_step o (holders σ, deleted σ)).1 ∧
    deleted σ' = (model_step o (holders σ, deleted σ)).2.
Proof.
  intros Hs H. apply (model_permitted_permitted σ o Hs) in H.
  destruct (exec_effect σ o Hs H) as (σ1 & Hrun & Heff).
  destruct (exec_sound σ o Hs H) as (σ1' & Hrun' & Hs1 & _).
  assert (σ1' = σ1) as -> by congruence.
  exists σ1. by rewrite <- Heff.
Qed.

Lemma unique_sole_holder σ h p :
  sound σ → holders σ !! h = Some p → p ≠ nullptr →
  unique h σ = Done (bool_decide (sole_holder (holders σ) h p)) σ.
Proof.
  intros Hs E Hp. pose proof E as E'. rewrite holders_lookup in E'.
  assert (L : live σ h) by (apply live_rsrc_iff; eauto).
  destruct (ring_of_live σ h Hs L) as (rest & p' & Hring & Hown).
  assert (p' = p) as ->.
  { rewrite (owns_lookup _ _ _ h Hown) in E' by set_solver. congruence. }
  rewrite (ring_unique σ (h :: rest) h Hring) by set_solver.
  f_equal. apply bool_decide_ext.
  rewrite <- (sole_holder_ring σ h rest p Hs Hring Hown Hp).
  destruct rest; simpl; split; intros ?; done.
Qed.

Lemma not_sole_holder m h p u :
  u ≠ h → m !! u = Some p → ¬ sole_holder m h p.
Proof.
  intros Hu Eu H. unfold sole_holder in H. rewrite map_Forall_lookup in H.
  destruct (H u p Eu); done.
Qed.

Lemma sole_holder_intro m h p :
  (∀ u v, m !! u = Some v → u = h ∨ v ≠ p) → sole_holder m h p.
Proof. intros H. unfold sole_holder. by rewrite map_Forall_lookup. Qed.

Lemma release_shared m D h p u :
  m !! h = Some p → u ≠ h → m !! u = Some p → release m D h = D.
Proof.
  intros E Hu Eu. unfold release. rewrite E, decide_False; [done|].
  intros [_ H]. by apply (not_sole_holder m h p u).
Qed.

Lemma release_null m D h : m !! h = Some nullptr → release m D h = D.
Proof.
  intros E. unfold release. rewrite E, decide_False; [done|]. by intros [? _].
Qed.

Lemma release_sole m D h p :
  m !! h = Some p → p ≠ nullptr → sole_holder m h p →
  release m D h = D ++ [p].
Proof. intros E Hp H. unfold release. by rewrite E, decide_True. Qed.

(** [ex_two_rings] is what five constructions leave, and so is sound. *)
Lemma sound_two_rings : sound ex_two_rings.
Proof.
  destruct (run_effect [Raw 1 100; Copy 2 1; Raw 3 200; Copy 4 3; Copy 5 4]
              ex_empty sound_empty) as (σ' & Hrun & Hs & _).
  { apply (bool_decide_unpack _). vm_compute. exact I. }
  assert (E : run [Raw 1 100; Copy 2 1; Raw 3 200; Copy 4 3; Copy 5 4]
                ex_empty = Done () ex_two_rings) by (vm_compute; reflexivity).
  rewrite E in Hrun. by injection Hrun as <-.
Qed.

(** Property X25.  In a sound state, [unique()] on a handle that holds a
    resource answers true exactly when no other live handle holds that
    resource: the self-link test is the test "reference count is one". *)
Theorem unique_counts_holders σ h p :
  sound σ → rsrc σ h = Some p → p ≠ nullptr →
  ∃ r : bool, unique h σ = Done r σ ∧
       (r = true ↔ ∀ x, rsrc σ x = Some p → x = h).
Proof.
  intros Hs E Hp. rewrite <- holders_lookup in E.
  exists (bool_decide (sole_holder (holders σ) h p)). split.
  - by apply unique_sole_holder.
  - by rewrite bool_decide_eq_true, sole_holder_spec.
Qed.

Lemma unique_counts_holders_witness :
  ∃ r : bool, unique 3 ex_two_rings = Done r ex_two_rings ∧
       (r = true ↔ ∀ x, rsrc ex_two_rings x = Some 200 → x = 3%positive).
Proof.
  apply (unique_counts_holders ex_two_rings 3 200).
  - exact sound_two_rings.
  - reflexivity.
  - discriminate.
Defined.

End table.

(** ** The test routines *)

Section queries.
Implicit Types (σ : state) (h u : loc) (p q : ptr) (m : M bool).

Lemma negation_done m σ (b : bool) σ' :
  m σ = Done b σ' → main.negation m σ = Done (negb b) σ'.
Proof. intros H. unfold main.negation. by rewrite (bind_done _ _ _ _ _ H). Qed.

Lemma and_then_true m1 m2 σ σ' :
  m1 σ = Done true σ' → main.and_then m1 m2 σ = m2 σ'.
Proof. intros H. unfold main.and_then. by rewrite (bind_done _ _ _ _ _ H). Qed.

Lemma and_then_done m1 m2 σ σ1 (b : bool) σ2 :
  m1 σ = Done true σ1 → m2 σ1 = Done b σ2 →
  main.and_then m1 m2 σ = Done b σ2.
Proof. intros H1 H2. by rewrite (and_then_true _ _ _ _ H1). Qed.

Lemma unique_alone σ h p :
  sound σ → holders σ !! h = Some p → p ≠ nullptr →
  sole_holder (holders σ) h p → unique h σ = Done true σ.
Proof.
  intros Hs E Hp H. rewrite (unique_sole_holder σ h p Hs E Hp).
  by rewrite bool_decide_eq_true_2.
Qed.

Lemma unique_shared σ h p u :
  sound σ → holders σ !! h = Some p → p ≠ nullptr →
  u ≠ h → holders σ !! u = Some p → unique h σ = Done false σ.
Proof.
  intros Hs E Hp Hu Eu. rewrite (unique_sole_holder σ h p Hs E Hp).
  rewrite bool_decide_eq_false_2; [done|]. by apply (not_sole_holder _ _ _ u).
Qed.

Lemma equal_done σ (a b : loc) p q :
  holders σ !! a = Some p → holders σ !! b = Some q →
  main.equal a b σ = Done (bool_decide (p = q)) σ.
Proof.
  rewrite !holders_lookup. intros Ea Eb.
  apply rsrc_lookup in Ea as (ca & Ha & <-).
  apply rsrc_lookup in Eb as (cb & Hb & <-).
  unfold main.equal, bind, load. by rewrite Ha, Hb.
Qed.

Lemma flag_set (D : list ptr) p : p ∈ D ++ [p].
Proof. set_solver. Qed.

Lemma flag_unset (D : list ptr) p q : q ∉ D → p ≠ q → q ∉ D ++ [p].
Proof. set_solver. Qed.

End queries.

(** Looking up a table written as a sequence of updates. *)
Ltac look :=
  repeat first
    [ rewrite lookup_insert_eq | rewrite lookup_delete_eq
    | rewrite lookup_insert_ne by done | rewrite lookup_delete_ne by done ].

Ltac look_in H :=
  repeat first
    [ rewrite lookup_insert_eq in H | rewrite lookup_delete_eq in H
    | rewrite lookup_insert_ne in H by done
    | rewrite lookup_delete_ne in H by done ].

(** Every entry of such a table, one update after the other. *)
Ltac scan E :=
  repeat lazymatch type of E with
  | <[?i:=_]> _ !! ?u = Some _ =>
      rewrite lookup_insert in E; destruct (decide (i = u)) as [<-|?];
      lazy beta iota in E;
      [injection E as <-; first [by left | by right | done] |]
  | delete ?i _ !! ?u = Some _ =>
      rewrite lookup_delete in E; destruct (decide (i = u)) as [<-|?];
      lazy beta iota in E; [done|]
  end.

Ltac entries :=
  let u := fresh "u" in let v := fresh "v" in let E := fresh "E" in
  intros u v E; scan E;
  try (right; match goal with H : map_Forall _ _ |- _ => exact (H _ _ E) end).

Ltac sole := apply sole_holder_intro; entries.

Ltac unheld :=
  let u := fresh "u" in let v := fresh "v" in let E := fresh "E" in
  apply map_Forall_lookup; intros u v E;
  repeat lazymatch type of E with
  | <[?i:=_]> _ !! ?u = Some _ =>
      rewrite lookup_insert in E; destruct (decide (i = u)) as [<-|?];
      lazy beta iota in E; [injection E as <-; done |]
  | delete ?i _ !! ?u = Some _ =>
      rewrite lookup_delete in E; destruct (decide (i = u)) as [<-|?];
      lazy beta iota in E; [done|]
  end;
  match goal with H : map_Forall _ _ |- _ => exact (H _ _ E) end.

Ltac same_table :=
  let u := fresh "u" in
  apply map_eq; intros u;
  repeat lazymatch goal with
  | |- <[?i:=_]> _ !! u = _ =>
      rewrite lookup_insert; destruct (decide (i = u)) as [<-|?];
      lazy beta iota; [done|]
  | |- delete ?i _ !! u = _ =>
      rewrite lookup_delete; destruct (decide (i = u)) as [<-|?];
      lazy beta iota; [done|]
  end;
  done.

(** One operation of a routine, taken on the table. *)
Ltac table_op o :=
  lazymatch goal with
  | Hs : sound ?σ, Hm : holders ?σ = ?m, Hd : deleted ?σ = ?D |- _ =>
      let σ' := fresh "σ" in
      let Hrun := fresh "Hrun" in
      let Hs' := fresh "Hs" in
      let Hm' := fresh "Hm" in
      let Hd' := fresh "Hd" in
      destruct (exec_model σ o Hs) as (σ' & Hrun & Hs' & Hm' & Hd');
      [ rewrite Hm, Hd; cbn [model_permitted fst snd]; unfold model_fresh; cbn [fst snd]; look;
        lazy beta iota
      | rewrite Hm, Hd in Hm', Hd'; cbn [model_step fst snd] in Hm', Hd';
        look_in Hm'; lazy beta iota in Hm';
        cbn [exec] in Hrun; rewrite (bind_done _ _ _ _ _ Hrun);
        clear Hrun Hs Hm Hd; rename Hs' into Hs, Hm' into Hm, Hd' into Hd ]
  end.

(** The start of a routine: what is known of the state it is entered in,
    told of the table. *)
Ltac enter m0 D0 E0 F0 :=
  repeat match goal with
  | H : unused _ _ |- _ => destruct H
  | H : new_resources _ _ |- _ => destruct H
  | H : _ ∧ _ |- _ => destruct H
  | H : Forall _ (_ :: _) |- _ => apply Forall_cons in H as [? H]
  | H : NoDup (_ :: _) |- _ => apply NoDup_cons in H as [? H]
  | H : _ ∉ _ :: _ |- _ => apply not_elem_of_cons in H as [? H]
  | H : ¬ live _ _ |- _ => apply not_live_holders in H
  | H : holds_none _ _ |- _ => apply holds_none_holders in H
  end;
  lazymatch goal with
  | Hs : sound ?σ |- _ =>
      remember (holders σ) as m0 eqn:E0; remember (deleted σ) as D0 eqn:F0;
      let Hm := fresh "Hm" in let Hd := fresh "Hd" in
      assert (Hm : holders σ = m0) by done;
      assert (Hd : deleted σ = D0) by done
  end.

(** A call of [unique] on a handle whose resource another handle [u]
    holds, and on a handle that is the sole holder. *)
Ltac shared U h p u :=
  lazymatch goal with
  | Hs : sound ?σ, Hm : holders ?σ = _ |- _ =>
      assert (U : unique h σ = Done false σ)
        by (apply (unique_shared σ h p u Hs); rewrite ?Hm; by look)
  end.

Ltac alone U h p :=
  lazymatch goal with
  | Hs : sound ?σ, Hm : holders ?σ = _ |- _ =>
      assert (U : unique h σ = Done true σ)
        by (apply (unique_alone σ h p Hs); rewrite ?Hm; first [by look | sole])
  end.

(** [swap] of two handles whose resources [u1] and [u2] hold as well. *)
Ltac both_shared u1 u2 :=
  right; split_and!; [done|done|];
  split; intros ?; exfalso;
  match goal with H : sole_holder _ _ _ |- _ => revert H end;
  [apply (not_sole_holder _ _ _ u1) | apply (not_sole_holder _ _ _ u2)];
  by look.

(** What [reset] and the destructor delete. *)
Ltac keeps h p u :=
  lazymatch goal with
  | Hd : deleted _ = _ |- _ =>
      rewrite (release_shared _ _ h p u) in Hd by by look
  end.

Ltac holds_null h :=
  lazymatch goal with
  | Hd : deleted _ = _ |- _ => rewrite (release_null _ _ h) in Hd by by look
  end.

Ltac deletes h p :=
  lazymatch goal with
  | Hd : deleted _ = _ |- _ =>
      rewrite (release_sole _ _ h p) in Hd by first [by look | sole]
  end.

(** Reading the flag of the [is_deleted] object at [p]. *)
Ltac read_flag p :=
  lazymatch goal with
  | Hs : sound ?σ, Hd : deleted ?σ = _ |- _ =>
      rewrite (bind_done (main.flag p) _ σ _ σ eq_refl); rewrite Hd
  end.

(** The end of a routine: the state it leaves. *)
Ltac leave :=
  lazymatch goal with
  | Hs : sound ?σ, Hm : holders ?σ = _, Hd : deleted ?σ = _ |- _ =>
      exists σ; split_and!;
      [done|done|rewrite Hm; same_table|by rewrite Hd, <- ?app_assoc]
  end.

Section routines.
Implicit Types (σ : state).

(** Property X26.  [base_test] of [main.cpp], entered in any sound state
    with its three locals at unused addresses and two new resources,
    returns true: the handle made from a second resource is alone, the
    copied handle is not, and the copy compares equal to its source.  Its
    locals are gone at the end, the second resource was deleted and then
    the first, each once. *)
Theorem base_test_passes σ (n1 n2 : ptr) (ptr1 ptr2 ptr3 : loc) :
  sound σ → unused σ [ptr1; ptr2; ptr3] → new_resources σ [n1; n2] →
  ∃ σ', main.base_test n1 n2 ptr1 ptr2 ptr3 σ = Done true σ' ∧ sound σ' ∧
    holders σ' = holders σ ∧ deleted σ' = deleted σ ++ [n2; n1].
Proof.
  intros Hs Hu Hn. enter m0 D0 E0 F0. unfold main.base_test.
  table_op (Raw ptr1 n1). { split; [done|]. right. split; [done|unheld]. }
  table_op (Raw ptr2 n2). { split; [done|]. right. split; [done|unheld]. }
  table_op (Copy ptr3 ptr1). { split; [done|eauto]. }
  alone U2 ptr2 n2. rewrite (bind_done _ _ _ _ _ U2).
  shared U1 ptr1 n1 ptr3.
  rewrite (bind_done _ _ _ _ _ (negation_done _ _ _ _ U1)).
  rewrite (bind_done _ _ _ _ _ (equal_done _ ptr1 ptr3 n1 n1
    ltac:(by rewrite Hm; look) ltac:(by rewrite Hm; look))).
  rewrite bool_decide_eq_true_2 by done.
  table_op (Destroy ptr3). { eauto. } keeps ptr3 n1 ptr1.
  table_op (Destroy ptr2). { eauto. } deletes ptr2 n2.
  table_op (Destroy ptr1). { eauto. } deletes ptr1 n1.
  leave.
Qed.

(** Property X27.  [unique_test] of [main.cpp], entered in any sound
    state with its four locals at unused addresses and four new
    resources, returns true: three handles made from raw resources are
    alone, a handle and its copy are not, and after [reset(new int(5))]
    on the source both are alone again.  The destructors then delete the
    four resources, each once. *)
Theorem unique_test_passes σ (n1 n2 n3 n5 : ptr) (p1 p2 p3 p4 : loc) :
  sound σ → unused σ [p1; p2; p3; p4] → new_resources σ [n1; n2; n3; n5] →
  ∃ σ', main.unique_test n1 n2 n3 n5 p1 p2 p3 p4 σ = Done true σ' ∧
    sound σ' ∧ holders σ' = holders σ ∧
    deleted σ' = deleted σ ++ [n3; n5; n2; n1].
Proof.
  intros Hs Hu Hn. enter m0 D0 E0 F0. unfold main.unique_test.
  table_op (Raw p1 n1). { split; [done|]. right. split; [done|unheld]. }
  table_op (Raw p2 n2). { split; [done|]. right. split; [done|unheld]. }
  table_op (Raw p3 n3). { split; [done|]. right. split; [done|unheld]. }
  alone U1 p1 n1. alone U2 p2 n2. alone U3 p3 n3.
  rewrite (bind_done _ _ _ _ _
    (and_then_done _ _ _ _ _ _ (and_then_done _ _ _ _ _ _ U1 U2) U3)).
  clear U1 U2 U3.
  table_op (Copy p4 p3). { split; [done|eauto]. }
  shared U3 p3 n3 p4. shared U4 p4 n3 p3.
  rewrite (bind_done _ _ _ _ _
    (and_then_done _ _ _ _ _ _ (negation_done _ _ _ _ U3)
       (negation_done _ _ _ _ U4))).
  clear U3 U4.
  table_op (ResetTo p3 n5). { split; [eauto|]. right. split; [done|unheld]. }
  keeps p3 n3 p4.
  alone U3 p3 n5. alone U4 p4 n3.
  rewrite (bind_done _ _ _ _ _ (and_then_done _ _ _ _ _ _ U3 U4)).
  clear U3 U4.
  table_op (Destroy p4). { eauto. } deletes p4 n3.
  table_op (Destroy p3). { eauto. } deletes p3 n5.
  table_op (Destroy p2). { eauto. } deletes p2 n2.
  table_op (Destroy p1). { eauto. } deletes p1 n1.
  leave.
Qed.

(** Property X28.  [unique2_test] of [main.cpp], entered in any sound
    state with its two locals at unused addresses and a new resource,
    returns true: a handle to the derived class and the handle to the
    base class made from it are both not alone.  The resource is deleted
    once, by the destructor of the first handle. *)
Theorem unique2_test_passes σ (n : ptr) (p1 p2 : loc) :
  sound σ → unused σ [p1; p2] → new_resources σ [n] →
  ∃ σ', main.unique2_test n p1 p2 σ = Done true σ' ∧ sound σ' ∧
    holders σ' = holders σ ∧ deleted σ' = deleted σ ++ [n].
Proof.
  intros Hs Hu Hn. enter m0 D0 E0 F0. unfold main.unique2_test.
  table_op (Raw p1 n). { split; [done|]. right. split; [done|unheld]. }
  table_op (Copy p2 p1). { split; [done|eauto]. }
  shared U1 p1 n p2.
  rewrite (bind_done _ _ _ _ _ (negation_done _ _ _ _ U1)).
  shared U2 p2 n p1.
  rewrite (bind_done _ _ _ _ _ (negation_done _ _ _ _ U2)).
  table_op (Destroy p2). { eauto. } keeps p2 n p1.
  table_op (Destroy p1). { eauto. } deletes p1 n.
  leave.
Qed.

(** Property X29.  [test_swap] of [main.cpp], entered in any sound state
    with its eight locals at unused addresses and two new [is_deleted]
    objects, returns true: after the three swaps the handles [a3], [b2],
    [b1] and [a4] hold the first object, the four resets delete it, and
    the second object is still held when the flags are read.  The
    destructors then delete the second object, once. *)
Theorem test_swap_passes σ (a0 b0 : ptr) (a1 a2 a3 a4 b1 b2 b3 b4 : loc) :
  sound σ → unused σ [a1; a2; a3; a4; b1; b2; b3; b4] →
  new_resources σ [a0; b0] →
  ∃ σ', main.test_swap a0 b0 a1 a2 a3 a4 b1 b2 b3 b4 σ = Done true σ' ∧
    sound σ' ∧ holders σ' = holders σ ∧ deleted σ' = deleted σ ++ [a0; b0].
Proof.
  intros Hs Hu Hn. enter m0 D0 E0 F0. unfold main.test_swap.
  table_op (Raw a1 a0). { split; [done|]. right. split; [done|unheld]. }
  table_op (Copy a2 a1). { split; [done|eauto]. }
  table_op (Copy a3 a2). { split; [done|eauto]. }
  table_op (Copy a4 a3). { split; [done|eauto]. }
  table_op (Raw b1 b0). { split; [done|]. right. split; [done|unheld]. }
  table_op (Copy b2 b1). { split; [done|eauto]. }
  table_op (Copy b3 b2). { split; [done|eauto]. }
  table_op (Copy b4 b3). { split; [done|eauto]. }
  table_op (Swap a2 b2). { both_shared a1 b1. }
  table_op (Swap b3 a2). { by left. }
  table_op (Swap b1 a1). { both_shared b3 a3. }
  table_op (Reset a3). { eauto. } keeps a3 a0 a4.
  table_op (Reset b2). { eauto. } keeps b2 a0 b1.
  table_op (Reset b1). { eauto. } keeps b1 a0 a4.
  table_op (Reset a4). { eauto. } deletes a4 a0.
  read_flag a0. read_flag b0.
  rewrite (bool_decide_eq_true_2 (a0 ∈ D0 ++ [a0])) by apply flag_set.
  rewrite (bool_decide_eq_false_2 (b0 ∈ D0 ++ [a0])) by by apply flag_unset.
  table_op (Destroy b4). { eauto. } keeps b4 b0 a1.
  table_op (Destroy b3). { eauto. } keeps b3 b0 a1.
  table_op (Destroy b2). { eauto. } holds_null b2.
  table_op (Destroy b1). { eauto. } holds_null b1.
  table_op (Destroy a4). { eauto. } holds_null a4.
  table_op (Destroy a3). { eauto. } holds_null a3.
  table_op (Destroy a2). { eauto. } keeps a2 b0 a1.
  table_op (Destroy a1). { eauto. } deletes a1 b0.
  leave.
Qed.

Lemma base_test_passes_witness :
  ∃ σ', main.base_test 300 400 6 7 8 ex_two_rings = Done true σ' ∧
    sound σ' ∧ holders σ' = holders ex_two_rings ∧
    deleted σ' = deleted ex_two_rings ++ [400; 300].
Proof.
  apply (base_test_passes ex_two_rings 300 400 6 7 8).
  - exact sound_two_rings.
  - apply (bool_decide_unpack _). vm_compute. exact I.
  - apply (bool_decide_unpack _). vm_compute. exact I.
Defined.

Lemma unique_test_passes_witness :
  ∃ σ', main.unique_test 300 400 500 600 6 7 8 9 ex_two_rings
          = Done true σ' ∧
    sound σ' ∧ holders σ' = holders ex_two_rings ∧
    deleted σ' = deleted ex_two_rings ++ [500; 600; 400; 300].
Proof.
  apply (unique_test_passes ex_two_rings 300 400 500 600 6 7 8 9).
  - exact sound_two_rings.
  - apply (bool_decide_unpack _). vm_compute. exact I.
  - apply (bool_decide_unpack _). vm_compute. exact I.
Defined.

Lemma unique2_test_passes_witness :
  ∃ σ', main.unique2_test 300 6 7 ex_two_rings = Done true σ' ∧
    sound σ' ∧ holders σ' = holders ex_two_rings ∧
    deleted σ' = deleted ex_two_rings ++ [300].
Proof.
  apply (unique2_test_passes ex_two_rings 300 6 7).
  - exact sound_two_rings.
  - apply (bool_decide_unpack _). vm_compute. exact I.
  - apply (bool_decide_unpack _). vm_compute. exact I.
Defined.

Lemma test_swap_passes_witness :
  ∃ σ', main.test_swap 300 400 6 7 8 9 10 11 12 13 ex_two_rings
          = Done true σ' ∧
    sound σ' ∧ holders σ' = holders ex_two_rings ∧
    deleted σ' = deleted ex_two_rings ++ [300; 400].
Proof.
  apply (test_swap_passes ex_two_rings 300 400 6 7 8 9 10 11 12 13).
  - exact sound_two_rings.
  - apply (bool_decide_unpack _). vm_compute. exact I.
  - apply (bool_decide_unpack _). vm_compute. exact I.
Defined.

End routines.
